(** * AI Council: the session engine, the hat allocator and the retrying client

    A shallow embedding of the Python sources
    [council/hats.py], [services/openrouter.py], [services/search.py],
    [council/moderator.py] and [council/session.py], with the properties of
    the specification proved about it.

    Conventions of the embedding:
    - a Python [int] is a [Z], a [str] a [string] (its UTF-8 bytes), a [list]
      a [list], a [dict] keyed by an enum a [gmap];
    - a raised exception is a value of [exn]; a function that can raise
      returns an [outcome];
    - the random generator is an oracle: every call of [random.choice] or
      [random.shuffle] consumes natural numbers that stand for the values of
      the generator's [_randbelow];
    - the model provider and the search provider are oracles too: what they
      answer is an input of the model, never computed. *)

From Stdlib Require Import ZArith QArith String List Permutation Lia Lqa.
From stdpp Require Import base decidable option list gmap strings pretty.

Local Open Scope string_scope.
Local Open Scope list_scope.
Local Open Scope Z_scope.

(** ** Exceptions *)

(** [openai.RateLimitError] is a subclass of [openai.APIStatusError]; every
    other exception class is a [PyException] carrying its class name. *)
Inductive exn : Type :=
  | RateLimitError (msg : string)
  | APIStatusError (msg : string)
  | PyException (cls msg : string).

#[global] Instance exn_eq_dec : EqDecision exn.
Proof. solve_decision. Defined.

(** [str(e)] *)
Definition exn_str (e : exn) : string :=
  match e with
  | RateLimitError msg | APIStatusError msg | PyException _ msg => msg
  end.

(** [isinstance(e, (RateLimitError, APIStatusError))] *)
Definition is_api_status_error (e : exn) : bool :=
  match e with
  | RateLimitError _ | APIStatusError _ => true
  | PyException _ _ => false
  end.

Inductive outcome (A : Type) : Type :=
  | Returned (a : A)
  | Raised (e : exn).
Arguments Returned {A} a.
Arguments Raised {A} e.

(** ** The random generator *)

(** [random.choice(seq)] is [seq[self._randbelow(len(seq))]] and raises
    [IndexError] on an empty sequence; [r] is the value the generator holds
    for this call, reduced below [len(seq)]. *)
Definition random_choice {A : Type} (r : nat) (seq : list A) : outcome A :=
  match seq !! (r mod length seq)%nat with
  | Some x => Returned x
  | None => Raised (PyException "IndexError" "Cannot choose from an empty sequence")
  end.

(** [x[i], x[j] = x[j], x[i]] *)
Definition list_swap {A : Type} (i j : nat) (x : list A) : list A :=
  match x !! i, x !! j with
  | Some xi, Some xj => <[j := xi]> (<[i := xj]> x)
  | _, _ => x
  end.

(** [random.shuffle(x)]:
    [for i in reversed(range(1, len(x))): j = randbelow(i + 1); swap x[i], x[j]].
    The loop runs [i] from [len(x) - 1] down to [1]; [draws] holds one value
    of the generator for each iteration, in the order they are consumed. *)
Fixpoint shuffle_from {A : Type} (i : nat) (draws : list nat) (x : list A) : list A :=
  match i with
  | O => x
  | S i' =>
      match draws with
      | [] => x
      | r :: draws' => shuffle_from i' draws' (list_swap i (r mod (i + 1))%nat x)
      end
  end.

Definition random_shuffle {A : Type} (draws : list nat) (x : list A) : list A :=
  shuffle_from (length x - 1)%nat draws x.

(** Number of values of the generator one [random.shuffle] of [x] consumes. *)
Definition shuffle_cost {A : Type} (x : list A) : nat := (length x - 1)%nat.

(** The positions [random.shuffle] exchanges with [i], [i - 1], ..., [1]:
    the values of [randbelow(i + 1)] it drew. *)
Fixpoint shuffle_choices (i : nat) (draws : list nat) : list nat :=
  match i, draws with
  | S i', r :: draws' => (r mod (i + 1))%nat :: shuffle_choices i' draws'
  | _, _ => []
  end.

(** ** council/hats.py *)

Module Hats.

Inductive HatColor : Type := WHITE | RED | BLACK | YELLOW | GREEN.

#[global] Instance HatColor_eq_dec : EqDecision HatColor.
Proof. solve_decision. Defined.

Definition HatColor_to_nat (h : HatColor) : nat :=
  match h with WHITE => 0 | RED => 1 | BLACK => 2 | YELLOW => 3 | GREEN => 4 end%nat.

Definition HatColor_of_nat (n : nat) : option HatColor :=
  match n with
  | 0 => Some WHITE | 1 => Some RED | 2 => Some BLACK
  | 3 => Some YELLOW | 4 => Some GREEN | _ => None
  end%nat.

#[global] Program Instance HatColor_countable : Countable HatColor :=
  inj_countable HatColor_to_nat HatColor_of_nat _.
Next Obligation. by intros []. Qed.

(** The members of the enum, in declaration order ([for h in HatColor]). *)
Definition all_HatColor : list HatColor := [WHITE; RED; BLACK; YELLOW; GREEN].

(** The value of the [str] enum member. *)
Definition hat_value (h : HatColor) : string :=
  match h with
  | WHITE => "white" | RED => "red" | BLACK => "black"
  | YELLOW => "yellow" | GREEN => "green"
  end.

(** An entry of [HAT_DEFINITIONS].  The [instruction] text is read by the
    prompt builders only and is left out. *)
Record HatInfo : Type := {
  color : string;
  emoji : string;
  name : string;
  description : string;
}.

Definition HAT_DEFINITIONS (h : HatColor) : HatInfo :=
  match h with
  | WHITE => {| color := "white"; emoji := "⚪"; name := "白帽"; description := "事實與數據" |}
  | RED => {| color := "red"; emoji := "🔴"; name := "紅帽"; description := "情感與直覺" |}
  | BLACK => {| color := "black"; emoji := "⚫"; name := "黑帽"; description := "批判與風險" |}
  | YELLOW => {| color := "yellow"; emoji := "🟡"; name := "黃帽"; description := "樂觀與價值" |}
  | GREEN => {| color := "green"; emoji := "🟢"; name := "綠帽"; description := "創意與替代方案" |}
  end.

Record HatManager : Type := {
  hat_counts : gmap HatColor Z;
  available_hats : list HatColor;
}.

(** The two list fields of the dataclass are never reassigned. *)
Definition FIRST_SPEAKER_HATS : list HatColor := [WHITE; GREEN].
Definition MEMBER_HATS : list HatColor := [WHITE; RED; BLACK; YELLOW; GREEN].

(** [{h: 0 for h in HatColor}] *)
Definition zero_counts : gmap HatColor Z :=
  list_to_map (map (fun h => (h, 0)) all_HatColor).

(** [HatManager()]: the default factories. *)
Definition fresh : HatManager :=
  {| hat_counts := zero_counts; available_hats := [] |}.

(** [list.remove(x)]: drops the first occurrence, [ValueError] (here
    [None]) when there is none. *)
Fixpoint list_remove (x : HatColor) (l : list HatColor) : option (list HatColor) :=
  match l with
  | [] => None
  | y :: l' =>
      if decide (x = y) then Some l'
      else match list_remove x l' with
           | Some l'' => Some (y :: l'')
           | None => None
           end
  end.

(** [[h for h in hats if h in self.FIRST_SPEAKER_HATS]] *)
Definition first_speaker_candidates (hats : list HatColor) : list HatColor :=
  filter (fun h => h ∈ FIRST_SPEAKER_HATS) hats.

(** The pool as the draw sees it: refilled when empty, and refilled again
    when the first-speaker restriction leaves no candidate. *)
Definition refill_if_empty (self : HatManager) : HatManager :=
  if decide (available_hats self = [])
  then {| hat_counts := hat_counts self; available_hats := MEMBER_HATS |}
  else self.

(** The restricted draw finds neither WHITE nor GREEN in the pool. *)
Definition forced_refill (is_first_speaker : bool) (self : HatManager) : bool :=
  is_first_speaker &&
  bool_decide (first_speaker_candidates (available_hats (refill_if_empty self)) = []).

Definition assign_hat (r : nat) (is_first_speaker : bool) (self : HatManager)
  : outcome HatColor * HatManager :=
  let self1 := refill_if_empty self in
  let '(candidates, self2) :=
    if is_first_speaker then
      let candidates := first_speaker_candidates (available_hats self1) in
      if decide (candidates = []) then
        let self2 := {| hat_counts := hat_counts self1; available_hats := MEMBER_HATS |} in
        (first_speaker_candidates (available_hats self2), self2)
      else (candidates, self1)
    else (available_hats self1, self1) in
  match random_choice r candidates with
  | Raised e => (Raised e, self2)
  | Returned selected =>
      match list_remove selected (available_hats self2) with
      | None => (Raised (PyException "ValueError" "list.remove(x): x not in list"), self2)
      | Some rest =>
          (Returned selected,
           {| hat_counts :=
                <[selected := default 0 (hat_counts self2 !! selected) + 1]> (hat_counts self2);
              available_hats := rest |})
      end
  end.

Definition get_hat_info (h : HatColor) : HatInfo := HAT_DEFINITIONS h.

Definition get_unused_hats (self : HatManager) : list HatColor :=
  filter (fun h => default 0 (hat_counts self !! h) = 0) MEMBER_HATS.

Definition get_distribution_summary (self : HatManager) : string :=
  String.concat " | "
    (map (fun hat =>
            let info := HAT_DEFINITIONS hat in
            let count := default 0 (hat_counts self !! hat) in
            emoji info +:+ " " +:+ name info +:+ ": " +:+ pretty count +:+ "次")
         MEMBER_HATS).

Definition reset (self : HatManager) : HatManager :=
  {| hat_counts := zero_counts; available_hats := MEMBER_HATS |}.

End Hats.

(** ** services/openrouter.py *)

Module OpenRouter.

(** [REQUEST_DELAY = 1.5], [BASE_RETRY_DELAY = 2], [DEFAULT_MAX_RETRIES = 2];
    durations are seconds, kept exact as rationals. *)
Definition REQUEST_DELAY : Q := 3 # 2.
Definition BASE_RETRY_DELAY : Z := 2.
Definition DEFAULT_MAX_RETRIES : Z := 2.

(** [range(n)] *)
Definition py_range (n : Z) : list Z := map Z.of_nat (seq 0 (Z.to_nat n)).

(** What the provider sends back.  A completion holds choices, a choice a
    message with an optional content, optional tool calls and a finish
    reason; a streamed chunk holds choices whose delta has an optional
    content. *)
Record ToolCall : Type := {
  tc_id : string;
  tc_name : string;
  tc_arguments : string;
}.

Record Choice : Type := {
  message_content : option string;
  message_tool_calls : option (list ToolCall);
  choice_finish_reason : option string;
}.

Record Completion : Type := { choices : list Choice }.

Record Chunk : Type := { delta_contents : list (option string) }.

(** One streamed attempt: the chunks that arrive, and the exception that
    ends the attempt if any.  An attempt whose [create] call raises has no
    chunks. *)
Record StreamAttempt : Type := {
  chunks : list Chunk;
  failure : option exn;
}.

(** The [dict] built by [_parse_response]. *)
Record Response : Type := {
  content : string;
  tool_calls : option (list ToolCall);
  finish_reason : option string;
}.

(** What a call of the client does, in order: requests sent to the
    provider, sleeps, fragments handed to the consumer. *)
Inductive ClientEvent : Type :=
  | Create (attempt : Z)
  | Sleep (seconds : Q)
  | YieldChunk (fragment : string).

Definition _parse_response (response : Completion) : outcome Response :=
  match choices response with
  | [] => Raised (PyException "IndexError" "list index out of range")
  | choice :: _ =>
      Returned
        {| content := default "" (message_content choice);
           tool_calls :=
             match message_tool_calls choice with
             | Some (tc :: tcs) => Some (tc :: tcs)
             | _ => None
             end;
           finish_reason := choice_finish_reason choice |}
  end.

(** [raise last_error] after the loop; raising [None] is a [TypeError]. *)
Definition raise_last_error {A : Type} (last_error : option exn) : outcome A :=
  match last_error with
  | Some e => Raised e
  | None => Raised (PyException "TypeError" "exceptions must derive from BaseException")
  end.

(** [BASE_RETRY_DELAY * (2 ** attempt)] *)
Definition retry_delay (attempt : Z) : Q := inject_Z (BASE_RETRY_DELAY * 2 ^ attempt).

(** The loop of [_chat_with_retry] over the attempts still to run.
    [create attempt] is the provider's answer to the request of that
    attempt. *)
Fixpoint chat_retry_loop (attempts : list Z) (max_retries : Z)
    (create : Z -> outcome Completion) (last_error : option exn)
  : list ClientEvent * outcome Response :=
  match attempts with
  | [] => ([], raise_last_error last_error)
  | attempt :: rest =>
      match create attempt with
      | Returned response =>
          ([Create attempt; Sleep REQUEST_DELAY], _parse_response response)
      | Raised e =>
          if is_api_status_error e then
            if attempt <? max_retries then
              let '(trace, result) := chat_retry_loop rest max_retries create (Some e) in
              (Create attempt :: Sleep (retry_delay attempt) :: trace, result)
            else ([Create attempt], Raised e)
          else ([Create attempt], Raised e)
      end
  end.

Definition _chat_with_retry (max_retries : Z) (create : Z -> outcome Completion)
  : list ClientEvent * outcome Response :=
  chat_retry_loop (py_range (max_retries + 1)) max_retries create None.

(** [if chunk.choices and chunk.choices[0].delta.content: yield ...] *)
Definition chunk_fragment (chunk : Chunk) : list string :=
  match delta_contents chunk with
  | Some s :: _ => if decide (s = "") then [] else [s]
  | _ => []
  end.

Definition yields_of (cs : list Chunk) : list ClientEvent :=
  map YieldChunk (concat (map chunk_fragment cs)).

(** The loop of [_stream_chat]; [None] is a normal end of the generator. *)
Fixpoint stream_retry_loop (attempts : list Z) (max_retries : Z)
    (create : Z -> StreamAttempt) (last_error : option exn)
  : list ClientEvent * option exn :=
  match attempts with
  | [] => ([], last_error)
  | attempt :: rest =>
      let a := create attempt in
      match failure a with
      | None => (Create attempt :: yields_of (chunks a) ++ [Sleep REQUEST_DELAY], None)
      | Some e =>
          if is_api_status_error e then
            if attempt <? max_retries then
              let '(trace, result) := stream_retry_loop rest max_retries create (Some e) in
              (Create attempt :: yields_of (chunks a) ++ Sleep (retry_delay attempt) :: trace,
               result)
            else (Create attempt :: yields_of (chunks a), Some e)
          else (Create attempt :: yields_of (chunks a), Some e)
      end
  end.

Definition _stream_chat (max_retries : Z) (create : Z -> StreamAttempt)
  : list ClientEvent * option exn :=
  stream_retry_loop (py_range (max_retries + 1)) max_retries create None.

(** Projections of a trace. *)
Definition fragments_of (trace : list ClientEvent) : list string :=
  concat (map (fun ev => match ev with YieldChunk s => [s] | _ => [] end) trace).

Definition sleeps_of (trace : list ClientEvent) : list Q :=
  concat (map (fun ev => match ev with Sleep q => [q] | _ => [] end) trace).

Definition requests_of (trace : list ClientEvent) : list Z :=
  concat (map (fun ev => match ev with Create a => [a] | _ => [] end) trace).

(** What a consumer of the streamed call sees: the fragments, then the
    terminal exception if the call ends with one. *)
Record StreamResult : Type := {
  fragments : list string;
  terminal : option exn;
}.

Definition stream_result (max_retries : Z) (create : Z -> StreamAttempt) : StreamResult :=
  let '(trace, result) := _stream_chat max_retries create in
  {| fragments := fragments_of trace; terminal := result |}.

(** Vocabulary for the retry policy: the backoff delays of the first [k]
    retries; "the first [k] attempts end with a rate-limit or provider-status
    error"; the exception of an outcome; the fragments one attempt yields. *)
Definition backoffs (k : nat) : list Q := map (fun j => retry_delay (Z.of_nat j)) (seq 0 k).

Definition fails_before {A : Type} (failure_of : A -> option exn) (create : Z -> A) (k : nat) : Prop :=
  ∀ j : nat, (j < k)%nat →
    ∃ e, failure_of (create (Z.of_nat j)) = Some e ∧ is_api_status_error e = true.

Definition raised_by {A : Type} (o : outcome A) : option exn :=
  match o with Raised e => Some e | Returned _ => None end.

Definition attempt_fragments (a : StreamAttempt) : list string :=
  concat (map chunk_fragment (chunks a)).



Definition text_chunk (s : string) : Chunk := {| delta_contents := [Some s] |}.

Definition flaky_stream (attempt : Z) : StreamAttempt :=
  if decide (attempt = 0)
  then {| chunks := [text_chunk "I think "]; failure := Some (APIStatusError "502") |}
  else {| chunks := [text_chunk "I think "; text_chunk "so."]; failure := None |}.


(** The seconds a call spends asleep. *)
Definition total_sleep (trace : list ClientEvent) : Q :=
  fold_right Qplus (0 # 1) (sleeps_of trace).

(** What the last request decides for the call that is not streamed. *)
Definition reply_result (o : outcome Completion) : outcome Response :=
  match o with
  | Returned response => _parse_response response
  | Raised e => Raised e
  end.

(** The attempt ended with an error that is retried while retries remain. *)
Definition asks_retry (failure_of : option exn) : bool :=
  match failure_of with
  | Some e => is_api_status_error e
  | None => false
  end.

(** A provider that always answers with a rate-limit error. *)
Definition always_limited (attempt : Z) : StreamAttempt :=
  {| chunks := []; failure := Some (RateLimitError "429") |}.

End OpenRouter.

(** ** models.py *)

Module Models.

Inductive Role : Type := SYSTEM | USER | ASSISTANT | MODERATOR | MEMBER.

Inductive MessageType : Type :=
  | OPENING | SPEECH | ROUND_SUMMARY | FINAL_SUMMARY | SEARCH_RESULT.

#[global] Instance Role_eq_dec : EqDecision Role.
Proof. solve_decision. Defined.

#[global] Instance MessageType_eq_dec : EqDecision MessageType.
Proof. solve_decision. Defined.

Record Message : Type := {
  role : Role;
  content : string;
  speaker_name : string;
  model_id : string;
  message_type : MessageType;
  sources : list string;
  hat_color : string;
  hat_name : string;
}.

Record MemberConfig : Type := {
  member_model_id : string;
  member_display_name : string;
  member_system_prompt : string;
  enabled : bool;
}.

Record ModeratorConfig : Type := {
  moderator_model_id : string;
  moderator_display_name : string;
  moderator_system_prompt : string;
}.

Record SessionConfig : Type := {
  topic : string;
  total_rounds : Z;
  max_tokens : Z;
  moderator : ModeratorConfig;
  members : list MemberConfig;
}.

Inductive SessionState : Type := IDLE | RUNNING | SUMMARIZING | FINISHED.

#[global] Instance SessionState_eq_dec : EqDecision SessionState.
Proof. solve_decision. Defined.

End Models.

(** ** services/search.py *)

Module Search.

(** The newline character. *)
Definition nl : string := String (Ascii.ascii_of_nat 10) EmptyString.

(** [s[:n]] counts code points: a byte of the form 10xxxxxx continues the
    code point before it. *)
Definition is_continuation (c : Ascii.ascii) : bool :=
  let b := Ascii.nat_of_ascii c in ((128 <=? b) && (b <? 192))%nat.

Fixpoint py_take (n : nat) (s : string) : string :=
  match s with
  | EmptyString => EmptyString
  | String c s' =>
      if is_continuation c then String c (py_take n s')
      else match n with
           | O => EmptyString
           | S n' => String c (py_take n' s')
           end
  end.

(** A decoded JSON value; a number keeps its literal. *)
Local Unset Elimination Schemes.
Inductive json : Type :=
  | JNull
  | JBool (b : bool)
  | JNum (literal : string)
  | JStr (s : string)
  | JArr (items : list json)
  | JObj (entries : list (string * json)).
Local Set Elimination Schemes.

(** [args.get(key, default)]: only a [dict] has [get]. *)
Fixpoint assoc_get (key : string) (entries : list (string * json)) : option json :=
  match entries with
  | [] => None
  | (k, v) :: rest => if decide (k = key) then Some v else assoc_get key rest
  end.

Definition json_get (args : json) (key : string) (dflt : json) : outcome json :=
  match args with
  | JObj entries => Returned (default dflt (assoc_get key entries))
  | _ => Raised (PyException "AttributeError" "object has no attribute 'get'")
  end.

Record SearchItem : Type := {
  title : string;
  url : string;
  item_content : string;
}.

(** What the Tavily client returns, its [get] defaults resolved. *)
Record TavilyResponse : Type := {
  tavily_answer : string;
  tavily_results : list SearchItem;
}.

(** The [dict] returned by [search]: the key ["error"] is present or not. *)
Record SearchResults : Type := {
  error : option string;
  answer : string;
  results : list SearchItem;
}.

(** [SearchService.search]: whatever the Tavily client raises (its lazy
    construction included) is caught and returned as data. *)
Definition search (tavily : json -> outcome TavilyResponse) (query : json) : SearchResults :=
  match tavily query with
  | Returned response =>
      {| error := None;
         answer := tavily_answer response;
         results := tavily_results response |}
  | Raised e => {| error := Some (exn_str e); answer := ""; results := [] |}
  end.

Fixpoint format_sources_from (i : Z) (items : list SearchItem) : list string :=
  match items with
  | [] => []
  | result :: rest =>
      (nl +:+ pretty i +:+ ". **" +:+ title result +:+ "**")
      :: ("   - 網址: " +:+ url result)
      :: ("   - 內容: " +:+ py_take 200 (item_content result) +:+ "...")
      :: format_sources_from (i + 1) rest
  end.

Definition format_results_for_ai (search_results : SearchResults) : string :=
  match error search_results with
  | Some err => "搜尋失敗: " +:+ err
  | None =>
      let lines := ["### 搜尋結果" +:+ nl] in
      let lines :=
        if decide (answer search_results = "") then lines
        else lines ++ ["**摘要**: " +:+ answer search_results +:+ nl] in
      let lines := lines ++ ["**來源**:"] in
      let lines := lines ++ format_sources_from 1 (results search_results) in
      String.concat nl lines
  end.

(** [format_sources]: the links only. *)
Definition format_sources (search_results : SearchResults) : string :=
  match error search_results, results search_results with
  | None, result :: rest =>
      String.concat nl
        (map (fun result => "- [" +:+ title result +:+ "](" +:+ url result +:+ ")")
             (result :: rest))
  | _, _ => ""
  end.

End Search.

(** ** Library functions taken as given *)

(** [str.lower], [str.strip] and [json.loads] belong to Python, not to the
    repository; the model takes them as they come. *)
Record Runtime : Type := {
  str_lower : string -> string;
  str_strip : string -> string;
  json_loads : string -> outcome Search.json;
}.

(** [a in b] on strings. *)
Fixpoint is_substring (a b : string) : bool :=
  String.prefix a b ||
  match b with
  | EmptyString => false
  | String _ b' => is_substring a b'
  end.

(** [len(s)] counts code points. *)
Fixpoint py_len (s : string) : Z :=
  match s with
  | EmptyString => 0
  | String c s' => (if Search.is_continuation c then 0 else 1) + py_len s'
  end.

(** ** String methods written out

    Where a property depends on what [str.strip], [str.endswith],
    [str.split] and [re.split] do, they are written out on the UTF-8
    bytes. *)

(** The code points [str.isspace] accepts, which [str.strip()] removes, by
    their encoding:
    - one byte: U+0009..U+000D, U+001C..U+0020;
    - two bytes: U+0085 (C2 85), U+00A0 (C2 A0);
    - three bytes: U+1680 (E1 9A 80), U+2000..U+200A (E2 80 80..8A),
      U+2028, U+2029, U+202F (E2 80 A8, A9, AF), U+205F (E2 81 9F),
      U+3000 (E3 80 80). *)
Definition is_space1 (c1 : Ascii.ascii) : bool :=
  let n1 := Ascii.nat_of_ascii c1 in
  ((9 <=? n1) && (n1 <=? 13) || (28 <=? n1) && (n1 <=? 32))%nat.

Definition is_space2 (c1 c2 : Ascii.ascii) : bool :=
  let n1 := Ascii.nat_of_ascii c1 in
  let n2 := Ascii.nat_of_ascii c2 in
  ((n1 =? 194) && ((n2 =? 133) || (n2 =? 160)))%nat.

Definition is_space3 (c1 c2 c3 : Ascii.ascii) : bool :=
  let n1 := Ascii.nat_of_ascii c1 in
  let n2 := Ascii.nat_of_ascii c2 in
  let n3 := Ascii.nat_of_ascii c3 in
  ((n1 =? 225) && (n2 =? 154) && (n3 =? 128)
   || (n1 =? 226) && (n2 =? 128)
      && ((128 <=? n3) && (n3 <=? 138) || (n3 =? 168) || (n3 =? 169) || (n3 =? 175))
   || (n1 =? 226) && (n2 =? 129) && (n3 =? 159)
   || (n1 =? 227) && (n2 =? 128) && (n3 =? 128))%nat.

(** [s.lstrip()] *)
Fixpoint py_lstrip (s : string) : string :=
  match s with
  | String c1 s1 =>
      if is_space1 c1 then py_lstrip s1
      else match s1 with
           | String c2 s2 =>
               if is_space2 c1 c2 then py_lstrip s2
               else match s2 with
                    | String c3 s3 => if is_space3 c1 c2 c3 then py_lstrip s3 else s
                    | EmptyString => s
                    end
           | EmptyString => s
           end
  | EmptyString => s
  end.

(** [s.rstrip()]: the text is cut at the first place from which only
    whitespace follows. *)
Fixpoint py_rstrip (s : string) : string :=
  match s with
  | String c s' => if decide (py_lstrip s = "") then "" else String c (py_rstrip s')
  | EmptyString => ""
  end.

(** [s.strip()] *)
Definition py_strip (s : string) : string := py_rstrip (py_lstrip s).

(** [s.endswith(suffix)] *)
Fixpoint ends_with (suffix s : string) : bool :=
  String.eqb s suffix ||
  match s with
  | String _ s' => ends_with suffix s'
  | EmptyString => false
  end.

(** [s.split(sep)] for a separator [sep] of one byte: [line] is the part
    read since the last separator. *)
Fixpoint split_from (sep : Ascii.ascii) (line rest : string) : list string :=
  match rest with
  | String c rest' =>
      if Ascii.eqb c sep then line :: split_from sep "" rest'
      else split_from sep (line +:+ String c "") rest'
  | EmptyString => [line]
  end.

Definition py_split (sep : Ascii.ascii) (s : string) : list string := split_from sep "" s.

(** The two question marks, ASCII and full-width (U+FF1F, EF BC 9F). *)
Definition ends_with_question_mark (s : string) : bool :=
  ends_with "?" s || ends_with "？" s.

Definition has_question_mark (s : string) : bool :=
  is_substring "?" s || is_substring "？" s.

(** The first byte of a question mark: 3F, or EF. *)
Definition opens_mark (c : Ascii.ascii) : bool :=
  ((Ascii.nat_of_ascii c =? 63) || (Ascii.nat_of_ascii c =? 239))%nat.

Definition mark (m : string) : Prop := m = "?" ∨ m = "？".

(** [re.split(r'(?<=[?？])', content)]: the pattern matches the empty text
    at every place that a question mark precedes; the text is cut at each
    of them.  [piece] is the part read since the last cut. *)
Fixpoint split_after_question_marks (piece rest : string) : list string :=
  match rest with
  | String c rest' =>
      let piece' := piece +:+ String c "" in
      if ends_with_question_mark piece'
      then piece' :: split_after_question_marks "" rest'
      else split_after_question_marks piece' rest'
  | EmptyString => [piece]
  end.

(** A piece that [re.split] cut: a text without question mark, then the
    byte that completes one. *)
Definition single_mark (p : string) : Prop :=
  ∃ body c, p = body +:+ String c "" ∧ has_question_mark body = false.

(** [b] is a contiguous part of [a]. *)
Definition part_of (b a : string) : Prop := ∃ before after, a = before +:+ b +:+ after.

(** ** council/moderator.py *)

Module Moderator.

Import Models OpenRouter Search.

(** The prompt templates of [council/prompts.py] are plain text. *)
Record Prompts : Type := {
  MODERATOR_SYSTEM_PROMPT : string;
  get_final_summary_prompt : string -> string -> string;
  get_select_speaker_prompt : string -> string -> list string -> Z -> Z -> string;
}.

(** A message of a chat request: a plain turn, the assistant turn that
    repeats the tool calls of the reply, or the result of one tool call. *)
Inductive ChatMessage : Type :=
  | Turn (role content : string)
  | AssistantToolCalls (content : string) (calls : list ToolCall)
  | ToolResult (tool_call_id content : string).

(** What a call of the moderator does, in order. *)
Inductive ModEvent : Type :=
  | ChatCall (stream tools : bool) (messages : list ChatMessage) (max_retries : Z)
  | SearchCall (query : json)
  | OnSearch (query : json) (result : SearchResults)
  | Yield (fragment : string).

(** The outcome of a generator of the moderator: its effects, the message
    list it was given as it stands at the end, and the exception that ended
    it if any. *)
Record ModRun : Type := {
  log : list ModEvent;
  messages_after : list ChatMessage;
  raised : option exn;
}.

Definition yielded (l : list ModEvent) : list string :=
  concat (map (fun ev => match ev with Yield s => [s] | _ => [] end) l).

Definition searches (l : list ModEvent) : list json :=
  concat (map (fun ev => match ev with SearchCall q => [q] | _ => [] end) l).

Definition chat_calls (l : list ModEvent) : list ModEvent :=
  List.filter (fun ev => match ev with ChatCall _ _ _ _ => true | _ => false end) l.

Definition tool_enabled_calls (l : list ModEvent) : list ModEvent :=
  List.filter (fun ev => match ev with ChatCall _ true _ _ => true | _ => false end) l.


Section moderator.

Variable rt : Runtime.
Variable prompts : Prompts.
Variable config : ModeratorConfig.

Definition system_prompt : string :=
  let base := MODERATOR_SYSTEM_PROMPT prompts in
  if decide (moderator_system_prompt config = "") then base
  else moderator_system_prompt config +:+ nl +:+ nl +:+ base.

(** [history[-5:]] *)
Definition last_five (history : list Message) : list Message :=
  drop (length history - 5)%nat history.

Definition _summarize_history (history : list Message) : string :=
  match history with
  | [] => "討論剛開始"
  | _ =>
      let lines :=
        concat (map (fun msg =>
          if decide (speaker_name msg = "") then []
          else
            let content_preview :=
              if 100 <? py_len (Models.content msg)
              then py_take 100 (Models.content msg) +:+ "..."
              else Models.content msg in
            ["- " +:+ speaker_name msg +:+ ": " +:+ content_preview])
          (last_five history)) in
      match lines with
      | [] => "討論剛開始"
      | _ => String.concat nl lines
      end
  end.

Definition _format_full_history (history : list Message) : string :=
  String.concat nl
    (concat (map (fun msg =>
       match message_type msg with
       | OPENING => ["**主持人開場**：" +:+ nl +:+ Models.content msg +:+ nl]
       | SPEECH => ["**" +:+ speaker_name msg +:+ "**：" +:+ nl +:+ Models.content msg +:+ nl]
       | ROUND_SUMMARY => ["**小結**：" +:+ nl +:+ Models.content msg +:+ nl]
       | _ => []
       end) history)).

(** [member.lower() in selected.lower() or selected.lower() in member.lower()] *)
Definition name_matches (selected member : string) : bool :=
  is_substring (str_lower rt member) (str_lower rt selected)
  || is_substring (str_lower rt selected) (str_lower rt member).

(** The validation loop of [select_next_speaker]. *)
Fixpoint match_member (selected : string) (remaining_members : list string) : option string :=
  match remaining_members with
  | [] => None
  | member :: rest =>
      if name_matches selected member then Some member else match_member selected rest
  end.

(** [select_next_speaker]; [reply attempt] is the provider's answer to the
    request of that attempt of the non-streaming call. *)
Definition select_next_speaker (reply : Z -> outcome Completion)
    (topic : string) (history : list Message) (remaining_members : list string)
    (current_round total_rounds : Z) : outcome string :=
  match snd (_chat_with_retry DEFAULT_MAX_RETRIES reply) with
  | Raised e => Raised e
  | Returned response =>
      let selected := str_strip rt (OpenRouter.content response) in
      match match_member selected remaining_members with
      | Some member => Returned member
      | None =>
          Returned (match remaining_members with
                    | first :: _ => first
                    | [] => ""
                    end)
      end
  end.

(** The messages [select_next_speaker] sends. *)
Definition select_next_speaker_messages (topic : string) (history : list Message)
    (remaining_members : list string) (current_round total_rounds : Z) : list ChatMessage :=
  [Turn "system" system_prompt;
   Turn "user" (get_select_speaker_prompt prompts topic (_summarize_history history)
                  remaining_members current_round total_rounds)].

Section final_summary.

Variable search_service : json -> outcome TavilyResponse.
(** the answers to the tool-enabled call and to the follow-up streamed call *)
Variable tools_reply : Z -> outcome Completion.
Variable follow_up : Z -> StreamAttempt.
(** whether an [on_search] callback was passed *)
Variable on_search : bool.

(** [args = json.loads(tc["arguments"]); query = args.get("query", "")] *)
Definition tool_query (tc : ToolCall) : outcome json :=
  match json_loads rt (tc_arguments tc) with
  | Raised e => Raised e
  | Returned args => json_get args "query" (JStr "")
  end.

(** The loop over [response["tool_calls"]]. *)
Fixpoint dispatch_tool_calls (tcs : list ToolCall)
  : list ModEvent * outcome (list (ToolCall * string)) :=
  match tcs with
  | [] => ([], Returned [])
  | tc :: rest =>
      if decide (tc_name tc = "web_search") then
        match tool_query tc with
        | Raised e => ([], Raised e)
        | Returned query =>
            let result := search search_service query in
            let '(evs, r) := dispatch_tool_calls rest in
            (SearchCall query :: (if on_search then [OnSearch query result] else []) ++ evs,
             match r with
             | Returned search_results =>
                 Returned ((tc, format_results_for_ai result) :: search_results)
             | Raised e => Raised e
             end)
        end
      else dispatch_tool_calls rest
  end.

Definition _chat_with_optional_search (messages : list ChatMessage)
    (max_tokens max_retries : Z) : ModRun :=
  let first_call := ChatCall false true messages max_retries in
  match snd (_chat_with_retry max_retries tools_reply) with
  | Raised e => {| log := [first_call]; messages_after := messages; raised := Some e |}
  | Returned response =>
      match tool_calls response with
      | Some (tc :: tcs) =>
          let '(evs, r) := dispatch_tool_calls (tc :: tcs) in
          match r with
          | Raised e =>
              {| log := first_call :: evs; messages_after := messages; raised := Some e |}
          | Returned search_results =>
              let messages' :=
                (messages ++ [AssistantToolCalls (OpenRouter.content response) (tc :: tcs)])
                ++ map (fun p => ToolResult (tc_id (fst p)) (snd p)) search_results in
              let sr := stream_result max_retries follow_up in
              {| log := first_call :: evs
                        ++ ChatCall true false messages' max_retries
                        :: map Yield (fragments sr);
                 messages_after := messages';
                 raised := terminal sr |}
          end
      | _ =>
          {| log := first_call ::
                    (if decide (OpenRouter.content response = "") then []
                     else [Yield (OpenRouter.content response)]);
             messages_after := messages;
             raised := None |}
      end
  end.

Definition final_summary (topic : string) (full_history : list Message)
    (max_tokens max_retries : Z) : ModRun :=
  let history_str := _format_full_history full_history in
  let messages :=
    [Turn "system" system_prompt;
     Turn "user" (get_final_summary_prompt prompts topic history_str)] in
  _chat_with_optional_search messages max_tokens max_retries.

End final_summary.

End moderator.

(** The requests of a reply that name the search tool, and the tool-result
    turn that answers one of them with the result of the search for
    [query]. *)
Definition web_search_calls (tcs : list ToolCall) : list ToolCall :=
  List.filter (fun tc => bool_decide (tc_name tc = "web_search")) tcs.

Definition tool_result_turn (search_service : json -> outcome TavilyResponse)
    (tc : ToolCall) (query : json) : ChatMessage :=
  ToolResult (tc_id tc) (format_results_for_ai (search search_service query)).

(** The arguments of every request in [tcs] decode, to the queries [qs]. *)
Definition queries_are (rt : Runtime) (tcs : list ToolCall) (qs : list json) : Prop :=
  Forall2 (fun tc q => tool_query rt tc = Returned q) tcs qs.

(** [_format_round_history] *)
Definition _format_round_history (history : list Message) : string :=
  String.concat nl
    (concat (map (fun msg =>
       match message_type msg with
       | SPEECH => ["**" +:+ speaker_name msg +:+ "**：" +:+ nl +:+ Models.content msg +:+ nl]
       | _ => []
       end) history)).

Definition is_speech (msg : Message) : bool := bool_decide (message_type msg = SPEECH).

(** The entries [_format_full_history] has a line for. *)
Definition is_discussion (msg : Message) : bool :=
  match message_type msg with
  | OPENING | SPEECH | ROUND_SUMMARY => true
  | FINAL_SUMMARY | SEARCH_RESULT => false
  end.

(** The searches and the calls of [on_search], as they follow each other. *)
Definition search_events (l : list ModEvent) : list ModEvent :=
  List.filter (fun ev => match ev with SearchCall _ | OnSearch _ _ => true | _ => false end) l.

(** What a search leads to: the call of the service and, when a callback
    was passed, its call with the query and the result. *)
Definition search_round (search_service : json -> outcome TavilyResponse) (on_search : bool)
    (query : json) : list ModEvent :=
  SearchCall query
  :: (if on_search then [OnSearch query (search search_service query)] else []).

End Moderator.

(** ** council/session.py *)

Module Session.

Import Models Hats OpenRouter.

Record SessionEvent : Type := {
  event_type : string;
  ev_speaker_name : string;
  ev_content : string;
  is_streaming : bool;
  is_final : bool;
  speech_index : Z;
  search_query : string;
  search_sources : list string;
  hat_emoji : string;
  ev_hat_name : string;
}.

(** The fields of a [Session] object.  [members] is the [dict] from display
    name to member, as the list of its items in insertion order. *)
Record Session : Type := {
  config : SessionConfig;
  members : list (string * MemberConfig);
  state : SessionState;
  history : list Message;
  _stop_requested : bool;
  _summary_requested : bool;
  _speech_count : Z;
  _latest_summary : string;
  _hat_manager : HatManager;
  _current_round : Z;
  _current_hat_info : option HatInfo;
}.

(** [d[k] = v] on the items of a [dict]: an existing key keeps its place. *)
Fixpoint dict_set {V : Type} (k : string) (v : V) (d : list (string * V)) : list (string * V) :=
  match d with
  | [] => [(k, v)]
  | (k', v') :: d' => if decide (k' = k) then (k, v) :: d' else (k', v') :: dict_set k v d'
  end.

(** [d[k]] *)
Fixpoint dict_get {V : Type} (k : string) (d : list (string * V)) : option V :=
  match d with
  | [] => None
  | (k', v) :: d' => if decide (k' = k) then Some v else dict_get k d'
  end.

(** [Session.__init__] *)
Definition init (session_config : SessionConfig) : Session :=
  {| config := session_config;
     members :=
       fold_left
         (fun d member_config =>
            if enabled member_config
            then dict_set (member_display_name member_config) member_config d
            else d)
         (Models.members session_config) [];
     state := IDLE;
     history := [];
     _stop_requested := false;
     _summary_requested := false;
     _speech_count := 0;
     _latest_summary := "";
     _hat_manager := Hats.fresh;
     _current_round := 1;
     _current_hat_info := None |}.

Definition member_names (self : Session) : list string := map fst (members self).

(** Everything outside the session that a run depends on:
    - [draws]: the values of the random generator, in the order consumed;
    - [stop_at i], [summary_at i]: whether the consumer calls
      [request_stop], [request_summary] while it holds the [i]-th event of
      the run (counted from 0);
    - the answers of the provider to each streamed call, by attempt: the
      opening, the speech and the after-speech summary of each turn (turns
      are numbered by the speech counter), and the two calls of the final
      summary;
    - the search provider, the prompt templates and the library functions. *)
Record Env : Type := {
  draws : nat -> nat;
  stop_at : nat -> bool;
  summary_at : nat -> bool;
  opening_stream : Z -> StreamAttempt;
  speak_stream : Z -> Z -> StreamAttempt;
  summary_stream : Z -> Z -> StreamAttempt;
  final_tools_reply : Z -> outcome Completion;
  final_stream : Z -> StreamAttempt;
  search_service : Search.json -> outcome Search.TavilyResponse;
  prompts : Moderator.Prompts;
  runtime : Runtime;
}.

(** The state a run threads: the session object, the events yielded so far
    (oldest first), the number of random values consumed, the successive
    values assigned to [self.state] by this run, and the local variable
    [speech_succeeded] of [run]. *)
Record World : Type := {
  session : Session;
  emitted : list SessionEvent;
  cursor : nat;
  state_trace : list SessionState;
  speech_succeeded : bool;
}.

(** How a step ends: with a value, with an exception, or because the loop
    body of [run] that consumes the events executed [return]. *)
Inductive result (A : Type) : Type :=
  | Val (a : A)
  | Exc (e : exn)
  | Ret.
Arguments Val {A} a.
Arguments Exc {A} e.
Arguments Ret {A}.

Definition M (A : Type) : Type := World -> result A * World.

Definition ret {A : Type} (a : A) : M A := fun w => (Val a, w).

Definition bind {A B : Type} (m : M A) (k : A -> M B) : M B :=
  fun w =>
    match m w with
    | (Val a, w') => k a w'
    | (Exc e, w') => (Exc e, w')
    | (Ret, w') => (Ret, w')
    end.

Notation "x <- m ;; k" := (bind m (fun x => k))
  (at level 100, m at next level, right associativity).
Notation "m ;; k" := (bind m (fun _ => k))
  (at level 100, right associativity).

Definition raise {A : Type} (e : exn) : M A := fun w => (Exc e, w).
Definition gen_return {A : Type} : M A := fun w => (Ret, w).

(** Updates of one component of the world. *)
Definition with_session (f : Session -> Session) (w : World) : World :=
  {| session := f (session w); emitted := emitted w; cursor := cursor w;
     state_trace := state_trace w; speech_succeeded := speech_succeeded w |}.

Definition with_cursor (n : nat) (w : World) : World :=
  {| session := session w; emitted := emitted w; cursor := n;
     state_trace := state_trace w; speech_succeeded := speech_succeeded w |}.

Definition with_speech_succeeded (v : bool) (w : World) : World :=
  {| session := session w; emitted := emitted w; cursor := cursor w;
     state_trace := state_trace w; speech_succeeded := v |}.

Definition get_session : M Session := fun w => (Val (session w), w).
Definition modify_session (f : Session -> Session) : M unit :=
  fun w => (Val tt, with_session f w).

(** [try: body  except Exception as e: handler(e)] *)
Definition try_except {A : Type} (body : M A) (handler : exn -> M A) : M A :=
  fun w =>
    match body w with
    | (Exc e, w') => handler e w'
    | r => r
    end.

Fixpoint for_each {A : Type} (l : list A) (body : A -> M unit) : M unit :=
  match l with
  | [] => ret tt
  | x :: l' => body x ;; for_each l' body
  end.

(** [async for chunk in stream: body(chunk)]: the fragments in order, then
    the terminal exception of the call if it has one. *)
Definition for_chunks (sr : StreamResult) (body : string -> M unit) : M unit :=
  for_each (fragments sr) body ;;
  match terminal sr with
  | Some e => raise e
  | None => ret tt
  end.

(** Field updates of the session object. *)
Definition set_state (v : SessionState) (s : Session) : Session :=
  {| config := config s; members := members s; state := v; history := history s;
     _stop_requested := _stop_requested s; _summary_requested := _summary_requested s;
     _speech_count := _speech_count s; _latest_summary := _latest_summary s;
     _hat_manager := _hat_manager s; _current_round := _current_round s;
     _current_hat_info := _current_hat_info s |}.

Definition set_history (v : list Message) (s : Session) : Session :=
  {| config := config s; members := members s; state := state s; history := v;
     _stop_requested := _stop_requested s; _summary_requested := _summary_requested s;
     _speech_count := _speech_count s; _latest_summary := _latest_summary s;
     _hat_manager := _hat_manager s; _current_round := _current_round s;
     _current_hat_info := _current_hat_info s |}.

Definition set_flags (stop summary : bool) (s : Session) : Session :=
  {| config := config s; members := members s; state := state s; history := history s;
     _stop_requested := stop; _summary_requested := summary;
     _speech_count := _speech_count s; _latest_summary := _latest_summary s;
     _hat_manager := _hat_manager s; _current_round := _current_round s;
     _current_hat_info := _current_hat_info s |}.

Definition set_speech_count (v : Z) (s : Session) : Session :=
  {| config := config s; members := members s; state := state s; history := history s;
     _stop_requested := _stop_requested s; _summary_requested := _summary_requested s;
     _speech_count := v; _latest_summary := _latest_summary s;
     _hat_manager := _hat_manager s; _current_round := _current_round s;
     _current_hat_info := _current_hat_info s |}.

Definition set_latest_summary (v : string) (s : Session) : Session :=
  {| config := config s; members := members s; state := state s; history := history s;
     _stop_requested := _stop_requested s; _summary_requested := _summary_requested s;
     _speech_count := _speech_count s; _latest_summary := v;
     _hat_manager := _hat_manager s; _current_round := _current_round s;
     _current_hat_info := _current_hat_info s |}.

Definition set_hat_manager (v : HatManager) (s : Session) : Session :=
  {| config := config s; members := members s; state := state s; history := history s;
     _stop_requested := _stop_requested s; _summary_requested := _summary_requested s;
     _speech_count := _speech_count s; _latest_summary := _latest_summary s;
     _hat_manager := v; _current_round := _current_round s;
     _current_hat_info := _current_hat_info s |}.

Definition set_current_round (v : Z) (s : Session) : Session :=
  {| config := config s; members := members s; state := state s; history := history s;
     _stop_requested := _stop_requested s; _summary_requested := _summary_requested s;
     _speech_count := _speech_count s; _latest_summary := _latest_summary s;
     _hat_manager := _hat_manager s; _current_round := v;
     _current_hat_info := _current_hat_info s |}.

Definition set_current_hat_info (v : option HatInfo) (s : Session) : Session :=
  {| config := config s; members := members s; state := state s; history := history s;
     _stop_requested := _stop_requested s; _summary_requested := _summary_requested s;
     _speech_count := _speech_count s; _latest_summary := _latest_summary s;
     _hat_manager := _hat_manager s; _current_round := _current_round s;
     _current_hat_info := v |}.

(** [self.state = v], recorded in the trace of the run. *)
Definition assign_state (v : SessionState) : M unit :=
  fun w =>
    (Val tt,
     {| session := set_state v (session w); emitted := emitted w; cursor := cursor w;
        state_trace := state_trace w ++ [v]; speech_succeeded := speech_succeeded w |}).

Definition set_speech_succeeded (v : bool) : M unit :=
  fun w => (Val tt, with_speech_succeeded v w).

Definition get_speech_succeeded : M bool := fun w => (Val (speech_succeeded w), w).

(** The next value of the random generator. *)
Definition next_draw (env : Env) : M nat :=
  fun w => (Val (draws env (cursor w)), with_cursor (S (cursor w)) w).

(** The next [n] values of the random generator. *)
Definition next_draws (env : Env) (n : nat) : M (list nat) :=
  fun w => (Val (map (draws env) (seq (cursor w) n)), with_cursor (cursor w + n)%nat w).

(** [yield ev] out of [run]: the consumer receives the event and may raise
    the flags before the generator resumes. *)
Definition yield_ (env : Env) (ev : SessionEvent) : M unit :=
  fun w =>
    let i := length (emitted w) in
    let s := session w in
    (Val tt,
     {| session :=
          set_flags (_stop_requested s || stop_at env i)
                    (_summary_requested s || summary_at env i) s;
        emitted := emitted w ++ [ev]; cursor := cursor w;
        state_trace := state_trace w; speech_succeeded := speech_succeeded w |}).

(** [SessionEvent(...)] with its defaults. *)
Definition system_event (content : string) (index : Z) (emoji hat : string) : SessionEvent :=
  {| event_type := "system"; ev_speaker_name := ""; ev_content := content;
     is_streaming := false; is_final := false; speech_index := index;
     search_query := ""; search_sources := []; hat_emoji := emoji; ev_hat_name := hat |}.

Definition moderator_event (speaker content : string) (streaming final : bool) : SessionEvent :=
  {| event_type := "moderator"; ev_speaker_name := speaker; ev_content := content;
     is_streaming := streaming; is_final := final; speech_index := 0;
     search_query := ""; search_sources := []; hat_emoji := ""; ev_hat_name := "" |}.

Definition member_event (speaker content : string) (streaming final : bool)
    (index : Z) (info : HatInfo) : SessionEvent :=
  {| event_type := "member"; ev_speaker_name := speaker; ev_content := content;
     is_streaming := streaming; is_final := final; speech_index := index;
     search_query := ""; search_sources := [];
     hat_emoji := emoji info; ev_hat_name := name info |}.

(** The two system events of a turn: the announcement of the speaker and
    the warning that replaces a speech the provider failed to deliver. *)
Definition speech_started (member_name : string) (count : Z) (hat_info : HatInfo)
  : SessionEvent :=
  system_event
    (member_name +:+ " " +:+ emoji hat_info +:+ " 開始發言（第 " +:+ pretty count
     +:+ " 次發言，" +:+ name hat_info +:+ "）")
    count (emoji hat_info) (name hat_info).

Definition speech_skipped (member_name : string) (count : Z) (e : exn) : SessionEvent :=
  system_event ("⚠️ " +:+ member_name +:+ " 發言失敗，已跳過：" +:+ exn_str e) count "" "".

(** [_add_message] *)
Definition _add_message (role : Role) (content speaker_name : string)
    (message_type : MessageType) (model_id hat_color hat_name : string) : M unit :=
  modify_session (fun s =>
    set_history
      (history s ++
       [{| Models.role := role; Models.content := content;
           Models.speaker_name := speaker_name; Models.model_id := model_id;
           Models.message_type := message_type; Models.sources := [];
           Models.hat_color := hat_color; Models.hat_name := hat_name |}]) s).

Definition moderator_name (s : Session) : string :=
  moderator_display_name (moderator (config s)).

(** [_moderator_opening]; [yield_event] is what the loop of [run] that
    consumes this generator does with each event. *)
Definition _moderator_opening (env : Env) (yield_event : SessionEvent -> M unit) : M unit :=
  s <- get_session ;;
  let mod_name := moderator_name s in
  yield_event (moderator_event mod_name "" true false) ;;
  let stream := stream_result 5 (opening_stream env) in
  for_chunks stream (fun chunk => yield_event (moderator_event mod_name chunk true false)) ;;
  let full_content := String.concat "" (fragments stream) in
  _add_message MODERATOR full_content mod_name OPENING "" "" "" ;;
  yield_event (moderator_event mod_name full_content false true).

(** [next((m for m in reversed(self.history) if m.message_type == SPEECH), None)] *)
Definition last_speech (history : list Message) : option Message :=
  List.find (fun m => bool_decide (message_type m = SPEECH)) (rev history).

(** [_member_speak].  The arguments [member.speak] builds its prompt from
    (the previous speaker, the question taken from their text, the latest
    summary) reach the provider only; its answer is [speak_stream]. *)
Definition _member_speak (env : Env) (member_name : string)
    (yield_event : SessionEvent -> M unit) : M unit :=
  s <- get_session ;;
  match dict_get member_name (members s) with
  | None => raise (PyException "KeyError" member_name)
  | Some member =>
      let is_first := bool_decide (_speech_count s = 1) in
      r <- next_draw env ;;
      match assign_hat r is_first (_hat_manager s) with
      | (Raised e, hm) => modify_session (set_hat_manager hm) ;; raise e
      | (Returned assigned_hat, hm) =>
          let hat_info := get_hat_info assigned_hat in
          let count := _speech_count s in
          modify_session (set_hat_manager hm) ;;
          modify_session (set_current_hat_info (Some hat_info)) ;;
          yield_event (speech_started member_name count hat_info) ;;
          yield_event (member_event member_name "" true false count hat_info) ;;
          let stream := stream_result 2 (speak_stream env count) in
          spoken <-
            try_except
              (for_chunks stream
                 (fun chunk => yield_event (member_event member_name chunk true false count hat_info)) ;;
               ret true)
              (fun e =>
                 yield_event (speech_skipped member_name count e) ;;
                 modify_session (set_current_hat_info None) ;;
                 ret false) ;;
          if spoken : bool then
            let full_content := String.concat "" (fragments stream) in
            _add_message MEMBER full_content member_name SPEECH
              (member_model_id member) (color hat_info) (name hat_info) ;;
            yield_event (member_event member_name full_content false true count hat_info)
          else ret tt
      end
  end.

(** [_after_speech_summary] *)
Definition _after_speech_summary (env : Env) (yield_event : SessionEvent -> M unit) : M unit :=
  s <- get_session ;;
  match last_speech (history s) with
  | None => ret tt
  | Some _ =>
      let mod_name := moderator_name s in
      yield_event (moderator_event mod_name "" true false) ;;
      let stream := stream_result 5 (summary_stream env (_speech_count s)) in
      for_chunks stream (fun chunk => yield_event (moderator_event mod_name chunk true false)) ;;
      let full_content := String.concat "" (fragments stream) in
      modify_session (set_latest_summary full_content) ;;
      _add_message MODERATOR full_content mod_name ROUND_SUMMARY "" "" "" ;;
      yield_event (moderator_event mod_name full_content false true)
  end.

(** [self.moderator.final_summary(topic, self.history, max_tokens=1000)] *)
Definition moderator_final_summary (env : Env) (s : Session) : Moderator.ModRun :=
  Moderator.final_summary (runtime env) (prompts env) (moderator (config s))
    (search_service env) (final_tools_reply env) (final_stream env) false
    (topic (config s)) (history s) 1000 5.

(** [_final_summary] *)
Definition _final_summary (env : Env) (yield_event : SessionEvent -> M unit) : M unit :=
  assign_state SUMMARIZING ;;
  s <- get_session ;;
  let mod_name := moderator_name s in
  let summary_name := mod_name +:+ "（總結）" in
  yield_event (system_event "進行最終總結" 0 "" "") ;;
  yield_event (moderator_event summary_name "" true false) ;;
  let r := moderator_final_summary env s in
  let stream := {| fragments := Moderator.yielded (Moderator.log r);
                   terminal := Moderator.raised r |} in
  for_chunks stream (fun chunk => yield_event (moderator_event summary_name chunk true false)) ;;
  let full_content := String.concat "" (fragments stream) in
  _add_message MODERATOR full_content mod_name FINAL_SUMMARY "" "" "" ;;
  yield_event (moderator_event summary_name full_content false true).

(** The speaking order: one shuffle of the names per round, appended. *)
Fixpoint build_speaking_order (env : Env) (rounds : list Z) (names : list string)
    (speaking_order : list string) : M (list string) :=
  match rounds with
  | [] => ret speaking_order
  | _ :: rounds' =>
      ds <- next_draws env (shuffle_cost names) ;;
      let round_order := random_shuffle ds names in
      build_speaking_order env rounds' names (speaking_order ++ round_order)
  end.

Definition flag_raised (s : Session) : bool := _stop_requested s || _summary_requested s.

(** The bodies of the two loops of [run] that do more than pass the event
    on: [yield event; if self._stop_requested: return] over the opening,
    and [yield event; if event.is_final and event.event_type == "member":
    speech_succeeded = True] over a turn. *)
Definition opening_yield (env : Env) (event : SessionEvent) : M unit :=
  yield_ env event ;;
  s <- get_session ;;
  if _stop_requested s then gen_return else ret tt.

Definition is_final_member (event : SessionEvent) : bool :=
  is_final event && bool_decide (event_type event = "member").

Definition turn_yield (env : Env) (event : SessionEvent) : M unit :=
  yield_ env event ;;
  if is_final_member event then set_speech_succeeded true else ret tt.

(** The end of the body of the speaking loop, once the turn is over: the
    second checkpoint and the after-speech summary; [continue] is the rest
    of the loop. *)
Definition after_member_speak (env : Env) (total_speeches i : Z) (continue : M unit) : M unit :=
  s <- get_session ;;
  if flag_raised s then ret tt
  else
    succeeded <- get_speech_succeeded ;;
    (if succeeded && (i <? total_speeches - 1)
     then _after_speech_summary env (yield_ env)
     else ret tt) ;;
    continue.

(** The body of [for i, member_name in enumerate(speaking_order)], from
    index [i] on; [break] leaves the loop for the final summary. *)
Fixpoint speaking_loop (env : Env) (total_speeches speeches_per_round : Z)
    (i : Z) (speaking_order : list string) : M unit :=
  match speaking_order with
  | [] => ret tt
  | member_name :: rest =>
      s <- get_session ;;
      if flag_raised s then ret tt
      else
        modify_session (set_current_round (i / speeches_per_round + 1)) ;;
        modify_session (fun s => set_speech_count (_speech_count s + 1) s) ;;
        set_speech_succeeded false ;;
        _member_speak env member_name (turn_yield env) ;;
        after_member_speak env total_speeches i
          (speaking_loop env total_speeches speeches_per_round (i + 1) rest)
  end.

(** The [try] block of [run]. *)
Definition run_body (env : Env) : M unit :=
  yield_ env (system_event "討論開始" 0 "" "") ;;
  _moderator_opening env (opening_yield env) ;;
  s <- get_session ;;
  let total_speeches := Z.of_nat (length (member_names s)) * total_rounds (config s) in
  let speeches_per_round := Z.of_nat (length (member_names s)) in
  speaking_order <-
    build_speaking_order env (py_range (total_rounds (config s))) (member_names s) [] ;;
  speaking_loop env total_speeches speeches_per_round 0 speaking_order ;;
  _final_summary env (yield_ env) ;;
  assign_state FINISHED.

(** The assignments at the head of [run]. *)
Definition run_prelude : M unit :=
  assign_state RUNNING ;;
  modify_session (set_flags false false) ;;
  modify_session (set_speech_count 0) ;;
  modify_session (set_latest_summary "") ;;
  modify_session (fun s => set_hat_manager (Hats.reset (_hat_manager s)) s) ;;
  modify_session (set_current_round 1) ;;
  modify_session (set_current_hat_info None).

Definition initial_world (s : Session) : World :=
  {| session := s; emitted := []; cursor := O; state_trace := [];
     speech_succeeded := false |}.

(** [Session.run], consumed to its end: the world it leaves. *)
Definition run (env : Env) (s : Session) : World :=
  snd ((run_prelude ;;
        try_except (run_body env)
          (fun e =>
             yield_ env (system_event ("發生錯誤: " +:+ exn_str e) 0 "" "") ;;
             assign_state IDLE)) (initial_world s)).

(** The world after the events [evs] were yielded one after the other with
    nothing else done in between: the consumer saw them all, the flags it
    raised meanwhile are in, and, when [track] is set (the loop over a
    turn), [speech_succeeded] records a final member event. *)
Definition indices_of (w : World) (evs : list SessionEvent) : list nat :=
  seq (length (emitted w)) (length evs).

Definition delivered (env : Env) (track : bool) (evs : list SessionEvent) (w : World) : World :=
  {| session :=
       set_flags
         (_stop_requested (session w) || existsb (stop_at env) (indices_of w evs))
         (_summary_requested (session w) || existsb (summary_at env) (indices_of w evs))
         (session w);
     emitted := emitted w ++ evs;
     cursor := cursor w;
     state_trace := state_trace w;
     speech_succeeded := speech_succeeded w || (track && existsb is_final_member evs) |}.

Definition speech_message (member_name : string) (member : MemberConfig)
    (hat_info : HatInfo) (full_content : string) : Message :=
  {| Models.role := MEMBER; Models.content := full_content;
     Models.speaker_name := member_name; Models.model_id := member_model_id member;
     Models.message_type := SPEECH; Models.sources := [];
     Models.hat_color := color hat_info; Models.hat_name := name hat_info |}.

Definition turn_events (member_name : string) (count : Z) (hat_info : HatInfo)
    (fragments : list string) : list SessionEvent :=
  speech_started member_name count hat_info
  :: member_event member_name "" true false count hat_info
  :: map (fun chunk => member_event member_name chunk true false count hat_info) fragments.

Definition moderator_message (mod_name full_content : string) (message_type : MessageType)
  : Message :=
  {| Models.role := MODERATOR; Models.content := full_content;
     Models.speaker_name := mod_name; Models.model_id := "";
     Models.message_type := message_type; Models.sources := [];
     Models.hat_color := ""; Models.hat_name := "" |}.

Definition append_message (msg : Message) (s : Session) : Session :=
  set_history (history s ++ [msg]) s.

(** The events of a streamed moderator turn before its final event. *)
Definition moderator_events (speaker : string) (fragments : list string) : list SessionEvent :=
  moderator_event speaker "" true false
  :: map (fun chunk => moderator_event speaker chunk true false) fragments.

(** The consumer raises no stop flag while it holds one of the next [n]
    events. *)
Definition no_stop_during (env : Env) (w : World) (n : nat) : Prop :=
  ∀ i : nat, (length (emitted w) ≤ i < length (emitted w) + n)%nat → stop_at env i = false.

(** The world after [self.state = v]. *)
Definition with_state (v : SessionState) (w : World) : World :=
  {| session := set_state v (session w); emitted := emitted w; cursor := cursor w;
     state_trace := state_trace w ++ [v]; speech_succeeded := speech_succeeded w |}.

Definition summary_name (s : Session) : string := moderator_name s +:+ "（總結）".

Definition final_summary_events (s : Session) (fragments : list string) : list SessionEvent :=
  system_event "進行最終總結" 0 "" "" :: moderator_events (summary_name s) fragments.

(** The orders of [rounds] rounds: each is a shuffle of [names] made with
    the next values of the random generator, from [cursor] on. *)
Fixpoint shuffled_rounds (draws : nat -> nat) (cursor rounds : nat) (names : list string)
  : list (list string) :=
  match rounds with
  | O => []
  | S rounds' =>
      random_shuffle (map draws (seq cursor (shuffle_cost names))) names
      :: shuffled_rounds draws (cursor + shuffle_cost names) rounds' names
  end.

(** What the speaking loop may change: it appends speeches and after-speech
    summaries to the history and events to the stream, and leaves the
    configuration, the members and [self.state] alone. *)
Definition turn_message (m : Message) : Prop :=
  message_type m = SPEECH ∨ message_type m = ROUND_SUMMARY.

Record loop_frame (w w' : World) : Prop := {
  frame_config : config (session w') = config (session w);
  frame_members : members (session w') = members (session w);
  frame_state : state (session w') = state (session w);
  frame_trace : state_trace w' = state_trace w;
  frame_emitted : ∃ evs, emitted w' = emitted w ++ evs;
  frame_history :
    ∃ added, history (session w') = history (session w) ++ added ∧ Forall turn_message added;
}.

(** The world after the assignments at the head of [run]. *)
Definition started (s : Session) : World :=
  {| session :=
       {| config := config s; members := members s; state := RUNNING;
          history := history s; _stop_requested := false; _summary_requested := false;
          _speech_count := 0; _latest_summary := "";
          _hat_manager := Hats.reset (_hat_manager s); _current_round := 1;
          _current_hat_info := None |};
     emitted := []; cursor := O; state_trace := [RUNNING]; speech_succeeded := false |}.

(** The world after the opening, when it ran to its end. *)
Definition opened (env : Env) (s : Session) : World :=
  let stream := stream_result 5 (opening_stream env) in
  let mod_name := moderator_name s in
  let full_content := String.concat "" (fragments stream) in
  delivered env false [moderator_event mod_name full_content false true]
    (with_session (append_message (moderator_message mod_name full_content OPENING))
       (delivered env false
          (system_event "討論開始" 0 "" "" :: moderator_events mod_name (fragments stream))
          (started s))).

(** The world after the final summary, when it ran to its end, from the
    world [w] the speaking loop left. *)
Definition summarized (env : Env) (w : World) : World :=
  let w1 := with_state SUMMARIZING w in
  let r := moderator_final_summary env (session w1) in
  let frags := Moderator.yielded (Moderator.log r) in
  let full_content := String.concat "" frags in
  with_state FINISHED
    (delivered env false [moderator_event (summary_name (session w1)) full_content false true]
       (with_session
          (append_message
             (moderator_message (moderator_name (session w1)) full_content FINAL_SUMMARY))
          (delivered env false (final_summary_events (session w1) frags) w1))).

(** The world in which a turn starts: the round and the speech counter are
    updated and [speech_succeeded] is cleared. *)
Definition entering_turn (speeches_per_round i : Z) (w : World) : World :=
  with_speech_succeeded false
    (with_session (fun s => set_speech_count (_speech_count s + 1) s)
       (with_session (set_current_round (i / speeches_per_round + 1)) w)).

(** A system warning: a system event that carries no hat and whose text
    opens with the warning sign. *)
Definition is_warning (ev : SessionEvent) : bool :=
  bool_decide (event_type ev = "system")
  && bool_decide (hat_emoji ev = "")
  && String.prefix "⚠️ " (ev_content ev).

(** The consumer raises no flag while it holds one of the next [n] events. *)
Definition no_flag_during (env : Env) (w : World) (n : nat) : Prop :=
  ∀ i : nat, (length (emitted w) ≤ i < length (emitted w) + n)%nat →
             stop_at env i = false ∧ summary_at env i = false.

(** [w'] comes after [w]: the history and the stream of events only got
    longer.  A step [appends] when it always leads to such a world. *)
Definition grown (w w' : World) : Prop :=
  (∃ added, history (session w') = history (session w) ++ added) ∧
  (∃ evs, emitted w' = emitted w ++ evs).

Definition appends {A : Type} (m : M A) : Prop := ∀ w, grown w (snd (m w)).

(** The first recorded speech of a history, and the final summaries in it. *)
Definition first_speech (history : list Message) : option Message :=
  List.find (fun m => bool_decide (message_type m = SPEECH)) history.

Definition final_summaries (history : list Message) : list Message :=
  List.filter (fun m => bool_decide (message_type m = FINAL_SUMMARY)) history.



(** The random values the shuffle of round [k] consumes, when the first
    round starts at [cursor]. *)
Definition round_draws (draws : nat -> nat) (cursor : nat) (names : list string) (k : nat)
  : list nat :=
  map draws (seq (cursor + k * shuffle_cost names) (shuffle_cost names)).

(** The messages [final_summary] starts from, and the entry [_final_summary]
    records. *)
Definition final_summary_messages (env : Env) (s : Session) : list Moderator.ChatMessage :=
  [Moderator.Turn "system" (Moderator.system_prompt (prompts env) (moderator (config s)));
   Moderator.Turn "user"
     (Moderator.get_final_summary_prompt (prompts env) (topic (config s))
        (Moderator._format_full_history (history s)))].

(** How many entries of type [t] a list of messages holds, and bounds on
    these numbers: one per message type. *)
Definition count_type (t : MessageType) (l : list Message) : nat :=
  length (List.filter (fun m => bool_decide (message_type m = t)) l).

Definition no_messages : MessageType -> nat := fun _ => O.

Definition one_message (t0 : MessageType) : MessageType -> nat :=
  fun t => if decide (t = t0) then 1%nat else O.

Definition bound_plus (b1 b2 : MessageType -> nat) : MessageType -> nat :=
  fun t => (b1 t + b2 t)%nat.

(** [turns] turns record at most [turns] speeches and as many after-speech
    summaries. *)
Definition turn_bound (turns : nat) : MessageType -> nat :=
  fun t => match t with SPEECH | ROUND_SUMMARY => turns | _ => O end.

(** [w'] comes after [w] in a run: the configuration, the members,
    [self.state] and the trace of its values are the same, and the history
    has grown by entries whose numbers, type by type, are within [bound]. *)
Definition within (bound : MessageType -> nat) (w w' : World) : Prop :=
  config (session w') = config (session w) ∧
  members (session w') = members (session w) ∧
  state (session w') = state (session w) ∧
  state_trace w' = state_trace w ∧
  ∃ added, history (session w') = history (session w) ++ added ∧
           ∀ t, (count_type t added ≤ bound t)%nat.

(** A step stays within [bound]: from every world it leads to one that is
    [within bound]; and it ends with the [return] of the loop that consumes
    the opening only if [may_return] is set, the stop flag being raised
    then. *)
Definition stays_within {A : Type} (may_return : bool) (bound : MessageType -> nat)
    (m : M A) : Prop :=
  ∀ w, within bound w (snd (m w)) ∧
       (fst (m w) = Ret → may_return = true ∧ _stop_requested (session (snd (m w))) = true).

(** The [try] block of [run] up to the final summary. *)
Definition before_summary (env : Env) : M unit :=
  yield_ env (system_event "討論開始" 0 "" "") ;;
  _moderator_opening env (opening_yield env) ;;
  s <- get_session ;;
  let total_speeches := Z.of_nat (length (member_names s)) * total_rounds (config s) in
  let speeches_per_round := Z.of_nat (length (member_names s)) in
  speaking_order <-
    build_speaking_order env (py_range (total_rounds (config s))) (member_names s) [] ;;
  speaking_loop env total_speeches speeches_per_round 0 speaking_order.

(** The number of turns a session schedules. *)
Definition scheduled_turns (s : Session) : nat :=
  (Z.to_nat (total_rounds (config s)) * length (member_names s))%nat.

(** The event [run] yields for an exception it catches. *)
Definition error_event (e : exn) : SessionEvent :=
  system_event ("發生錯誤: " +:+ exn_str e) 0 "" "".

(** The bound on what a run adds to the history. *)
Definition run_bound (s : Session) : MessageType -> nat :=
  fun t =>
    match t with
    | OPENING | FINAL_SUMMARY => 1%nat
    | SPEECH | ROUND_SUMMARY => scheduled_turns s
    | SEARCH_RESULT => O
    end.

(** The consumer raises a flag while it holds the event of index [i]. *)
Definition flag_at (env : Env) (i : nat) : bool := stop_at env i || summary_at env i.

(** The last event of a turn: the final event of the speech, or the
    warning when the provider failed. *)
Definition turn_end (member_name : string) (count : Z) (info : HatInfo)
    (stream : StreamResult) : SessionEvent :=
  match terminal stream with
  | Some e => speech_skipped member_name count e
  | None => member_event member_name (String.concat "" (fragments stream)) false true count info
  end.

(** The enabled members of a configuration, and the last of them that
    bears a given name. *)
Definition enabled_members (session_config : SessionConfig) : list MemberConfig :=
  List.filter enabled (Models.members session_config).

Definition last_named (name : string) (l : list MemberConfig) : option MemberConfig :=
  List.find (fun m => bool_decide (member_display_name m = name)) (rev l).

(** [Session._extract_question] *)
Definition is_question (s : string) : bool :=
  bool_decide (py_strip s ≠ "")
  && (ends_with "?" (py_strip s) || ends_with "？" (py_strip s)).

Definition _extract_question (content : string) : string :=
  let sentences := split_after_question_marks "" content in
  let questions := map py_strip (List.filter is_question sentences) in
  match last questions with
  | Some last_q =>
      let lines := py_split (Ascii.ascii_of_nat 10) (py_strip last_q) in
      py_strip (default "" (last lines))
  | None => ""
  end.

End Session.

(** ** Runs of the hat allocator *)

Module HatRuns.

Import Hats.

(** Consecutive calls of [assign_hat], each with the value the random
    generator holds for it and its [is_first_speaker] argument. *)
Fixpoint assign_hats (calls : list (nat * bool)) (self : HatManager)
  : list (outcome HatColor) * HatManager :=
  match calls with
  | [] => ([], self)
  | (r, is_first_speaker) :: calls' =>
      let '(o, self') := assign_hat r is_first_speaker self in
      let '(os, self'') := assign_hats calls' self' in
      (o :: os, self'')
  end.

(** No call of the run is a restricted draw that finds the pool without
    WHITE and GREEN. *)
Fixpoint no_forced_refill (calls : list (nat * bool)) (self : HatManager) : bool :=
  match calls with
  | [] => true
  | (r, is_first_speaker) :: calls' =>
      negb (forced_refill is_first_speaker self)
      && no_forced_refill calls' (snd (assign_hat r is_first_speaker self))
  end.

(** The operations of a [HatManager] and what each lets its caller see. *)
Inductive HatOp : Type :=
  | AssignHat (r : nat) (is_first_speaker : bool)
  | GetUnusedHats
  | GetDistributionSummary
  | Reset.

Inductive HatObs : Type :=
  | SawHat (o : outcome HatColor)
  | SawUnused (hats : list HatColor)
  | SawSummary (s : string)
  | SawNothing.

Fixpoint observe (ops : list HatOp) (self : HatManager) : list HatObs :=
  match ops with
  | [] => []
  | AssignHat r is_first_speaker :: ops' =>
      let '(o, self') := assign_hat r is_first_speaker self in
      SawHat o :: observe ops' self'
  | GetUnusedHats :: ops' => SawUnused (get_unused_hats self) :: observe ops' self
  | GetDistributionSummary :: ops' =>
      SawSummary (get_distribution_summary self) :: observe ops' self
  | Reset :: ops' => SawNothing :: observe ops' (reset self)
  end.

(** Two runs of five calls: [is_first_speaker] passed three times in a
    row, and passed on the first call only. *)
Definition three_first_speakers : list (nat * bool) :=
  [(0, true); (0, true); (0, true); (0, false); (0, false)]%nat.

Definition one_first_speaker : list (nat * bool) :=
  [(7, true); (3, false); (0, false); (5, false); (1, false)]%nat.

(** How often [h] occurs in [hats]. *)
Definition occurrences (h : HatColor) (hats : list HatColor) : Z :=
  Z.of_nat (length (List.filter (fun h' => bool_decide (h' = h)) hats)).

(** The calls of a session: the pool is reset, the first call is the
    restricted one and no later call is. *)
Definition session_calls (r : nat) (rs : list nat) : list (nat * bool) :=
  (r, true) :: map (fun r' => (r', false)) rs.

(** The balance the pool keeps as long as no refill is forced: the hats
    still in the pool were handed out [c] times, the others [c + 1] times. *)
Definition balanced_at (c : Z) (self : HatManager) : Prop :=
  NoDup (available_hats self) ∧
  ∀ h, default 0 (hat_counts self !! h)
       = if decide (h ∈ available_hats self) then c else c + 1.

End HatRuns.

(** ** Scripted runs

    A council of two members and the environments of a few runs: what the
    provider answers, what the random generator holds, when the consumer
    raises a flag. *)

Module Scenario.

Import Models OpenRouter Session.

Definition council (rounds : Z) : SessionConfig :=
  {| topic := "Should the library open on Sundays?";
     total_rounds := rounds;
     max_tokens := 500;
     moderator := {| moderator_model_id := "openai/gpt-5.2";
                     moderator_display_name := "Max";
                     moderator_system_prompt := "" |};
     Models.members :=
       [{| member_model_id := "anthropic/claude-sonnet-4.5";
           member_display_name := "Alice"; member_system_prompt := ""; enabled := true |};
        {| member_model_id := "google/gemini-3-pro-preview";
           member_display_name := "Bob"; member_system_prompt := ""; enabled := true |}] |}.

(** A streamed call that delivers [texts] at the first attempt, and one
    whose every attempt raises [e] before any chunk. *)
Definition says (texts : list string) (attempt : Z) : StreamAttempt :=
  {| chunks := map text_chunk texts; failure := None |}.

Definition fails (e : exn) (attempt : Z) : StreamAttempt :=
  {| chunks := []; failure := Some e |}.

Definition plain_reply (text : string) (attempt : Z) : outcome Completion :=
  Returned {| choices := [{| message_content := Some text;
                             message_tool_calls := None;
                             choice_finish_reason := Some "stop" |}] |}.

(** ASCII stand-ins for the library functions. *)
Definition ascii_lower (c : Ascii.ascii) : Ascii.ascii :=
  let n := Ascii.nat_of_ascii c in
  if ((65 <=? n) && (n <=? 90))%nat then Ascii.ascii_of_nat (n + 32) else c.

Fixpoint lower (s : string) : string :=
  match s with
  | EmptyString => EmptyString
  | String c s' => String (ascii_lower c) (lower s')
  end.

Fixpoint lstrip (s : string) : string :=
  match s with
  | String c s' => if Ascii.eqb c (Ascii.ascii_of_nat 32) then lstrip s' else s
  | EmptyString => EmptyString
  end.

Definition strip (s : string) : string :=
  String.rev (lstrip (String.rev (lstrip s))).

Definition runtime : Runtime :=
  {| str_lower := lower; str_strip := strip;
     json_loads := fun _ => Raised (PyException "JSONDecodeError" "Expecting value") |}.

Definition templates : Moderator.Prompts :=
  {| Moderator.MODERATOR_SYSTEM_PROMPT := "You moderate.";
     Moderator.get_final_summary_prompt := fun topic history => topic +:+ history;
     Moderator.get_select_speaker_prompt := fun topic _ _ _ _ => topic |}.

(** A run in which every call succeeds at once; parameters: the random
    values, the flags the consumer raises, and the speech of each turn. *)
Definition quiet_env (draws : nat -> nat) (stop_at summary_at : nat -> bool)
    (speak_stream : Z -> Z -> StreamAttempt) : Env :=
  {| Session.draws := draws; Session.stop_at := stop_at; Session.summary_at := summary_at;
     opening_stream := says ["Welcome."];
     Session.speak_stream := speak_stream;
     summary_stream := fun _ => says ["Noted."];
     final_tools_reply := plain_reply "We conclude.";
     final_stream := says ["unused"];
     search_service := fun _ => Raised (PyException "ValueError" "TAVILY_API_KEY");
     prompts := templates;
     Session.runtime := runtime |}.

Definition never (i : nat) : bool := false.
Definition at_event (n : nat) (i : nat) : bool := Nat.eqb i n.

(** The consumer presses "stop" while it holds the very first event. *)
Definition stop_during_opening : Env :=
  quiet_env (fun _ => O) (at_event 0) never (fun _ => says ["Yes."; " And you?"]).

(** The consumer asks for the summary at that same moment instead. *)
Definition summary_during_opening : Env :=
  quiet_env (fun _ => O) never (at_event 0) (fun _ => says ["Yes."; " And you?"]).

(** The consumer presses "stop" during the first speech. *)
Definition stop_during_first_speech : Env :=
  quiet_env (fun _ => O) (at_event 6) never (fun _ => says ["Yes."; " And you?"]).

(** The provider refuses the first speech; the random generator holds 0, 0
    and then 1. *)
Definition first_turn_fails : Env :=
  quiet_env (fun n => if Nat.eqb n 2 then 1%nat else O) never never
    (fun count => if decide (count = 1)
                  then fails (PyException "APIConnectionError" "Connection error.")
                  else says ["No."; " Why not?"]).

(** The provider fails the first speech half-way and delivers it whole at
    the second attempt. *)
Definition interrupted_speech : Env :=
  quiet_env (fun _ => O) never never (fun _ => flaky_stream).

(** A decoder that takes the whole text of the arguments for the query. *)
Definition json_runtime : Runtime :=
  {| str_lower := lower; str_strip := strip;
     json_loads := fun arguments => Returned (Search.JObj [("query", Search.JStr arguments)]) |}.

Definition tool_reply (calls : list ToolCall) (attempt : Z) : outcome Completion :=
  Returned {| choices := [{| message_content := None;
                             message_tool_calls := Some calls;
                             choice_finish_reason := Some "tool_calls" |}] |}.



Definition search_call : ToolCall :=
  {| tc_id := "call_1"; tc_name := "web_search"; tc_arguments := "library sunday hours" |}.


(** The consumer presses "stop" while it holds the first words of a speech:
    the third event of the turn. *)
Definition stop_mid_speech : Env :=
  quiet_env (fun _ => O) (at_event 2) never (fun _ => says ["Yes."; " And you?"]).

End Scenario.

(** ** config.py *)

Module Config.

Definition AVAILABLE_MODELS : list (string * string) :=
  [("openai/gpt-5.2", "GPT-5.2");
   ("anthropic/claude-sonnet-4.5", "Claude Sonnet 4.5");
   ("google/gemini-3-pro-preview", "Gemini 3 Pro");
   ("google/gemini-3-flash-preview", "Gemini 3 Flash");
   ("x-ai/grok-4.1-fast", "Grok 4.1 Fast");
   ("deepseek/deepseek-v3.2", "DeepSeek V3.2");
   ("moonshotai/kimi-k2-thinking", "Kimi K2 Thinking");
   ("allenai/olmo-3.1-32b-think:free", "Olmo 3.1 32b Think");
   ("xiaomi/mimo-v2-flash:free", "Mimo V2 Flash");
   ("mistralai/devstral-2512:free", "Devstral 2512");
   ("openai/gpt-oss-120b:free", "GPT-OSS 120b");
   ("z-ai/glm-4.5-air:free", "GLM 4.5 Air");
   ("moonshotai/kimi-k2:free", "Kimi K2");
   ("deepseek/deepseek-r1-0528:free", "DeepSeek R1 0528");
   ("qwen/qwen3-coder:free", "Qwen 3 Coder")].

Definition RANDOM_NAMES : list string :=
  ["Alice"; "Bob"; "Carol"; "David"; "Eve";
   "Frank"; "Grace"; "Henry"; "Iris"; "Jack";
   "Kate"; "Leo"; "Mia"; "Noah"; "Olivia"].

Definition MODERATOR_NAME : string := "Max".

(** [get_model_name]: the name of the first model of that id, else the id. *)
Definition get_model_name (model_id : string) : string :=
  match List.find (fun model => bool_decide (fst model = model_id)) AVAILABLE_MODELS with
  | Some model => snd model
  | None => model_id
  end.

End Config.

(** ** ui/app.py *)

Module App.

Import Models Session Config.

(** What [start_discussion] does before it runs the session: it refuses
    the request, with a status line, or it has a table of names and the
    configuration of the session. *)
Inductive Setup : Type :=
  | Refused (status : string)
  | Prepared (name_mapping_text : string) (session_config : SessionConfig).

(** The state of the loop over the slots: the names left, the members and
    the table of names built so far. *)
Definition Slots : Type := (list string * list MemberConfig * list (string * string))%type.

(** One turn of the loop [for model_id, prompt in zip(model_ids, prompts)];
    a value of the form is [None] or a text. *)
Definition add_member (st : Slots) (slot : option string * option string) : Slots :=
  let '(available_names, members, name_to_model) := st in
  match fst slot with
  | Some model_id =>
      if decide (model_id = "") then st
      else
        let alias :=
          match available_names with
          | name :: _ => name
          | [] => "Member" +:+ pretty (Z.of_nat (length members) + 1)
          end in
        let model_name := get_model_name model_id in
        (tail available_names,
         members ++ [{| member_model_id := model_id;
                        member_display_name := alias;
                        member_system_prompt := default "" (snd slot);
                        enabled := true |}],
         name_to_model ++ [(alias, model_name)])
  | None => st
  end.

(** [start_discussion], up to the creation of the session.  [draws] are the
    values the generator holds for the shuffle of the names; [rounds] and
    [max_tokens] are the whole numbers [int(rounds)] and [int(max_tokens)];
    [member_values] are the values of the member fields of the form, the
    models first. *)
Definition start_discussion (draws : list nat) (topic : string) (rounds max_tokens : Z)
    (mod_model mod_prompt : string) (member_values : list (option string)) : Setup :=
  if decide (py_strip topic = "") then Refused "狀態：請輸入討論主題"
  else
    let num_slots := 5%nat in
    let model_ids := take num_slots member_values in
    let prompts := drop num_slots member_values in
    let available_names := random_shuffle draws RANDOM_NAMES in
    let '(_, members, name_to_model) :=
      fold_left add_member (zip model_ids prompts) (available_names, [], []) in
    match members with
    | [] => Refused "狀態：請至少選擇一位成員"
    | _ :: _ =>
        let moderator_alias := MODERATOR_NAME in
        let moderator_model_name := get_model_name mod_model in
        let mapping_lines :=
          ("🎤 **" +:+ moderator_alias +:+ "**（主持人）→ " +:+ moderator_model_name)
          :: map (fun '(alias, model_name) => "💬 **" +:+ alias +:+ "** → " +:+ model_name)
               name_to_model in
        let name_mapping_text := String.concat (Search.nl +:+ Search.nl) mapping_lines in
        Prepared name_mapping_text
          {| topic := topic;
             total_rounds := rounds;
             max_tokens := max_tokens;
             moderator := {| moderator_model_id := mod_model;
                             moderator_display_name := moderator_alias;
                             moderator_system_prompt := mod_prompt |};
             Models.members := members |}
    end.

(** The slots of the form in which a model is chosen, each with its model
    and its persona. *)
Definition chosen_slot (slot : option string * option string) : option (string * string) :=
  match fst slot with
  | Some model_id =>
      if decide (model_id = "") then None else Some (model_id, default "" (snd slot))
  | None => None
  end.

Definition chosen_slots (member_values : list (option string)) : list (string * string) :=
  omap chosen_slot (zip (take 5 member_values) (drop 5 member_values)).

(** *** The loop over the events of the session *)

(** What the loop keeps: the texts of the bubbles of the chat (each is a
    dict of role "assistant"), and the speech being streamed. *)
Record Chat : Type := {
  messages : list string;
  current_content : string;
  current_speaker : string;
}.

(** What [start_discussion] yields: the chat, the status line and the table
    of names.  The list it yields is a copy of [messages] whose bubbles are
    the dicts of the loop, and the loop rewrites the last of them in place;
    an [Output] holds the texts as they are when the list is yielded. *)
Definition Output : Type := (list string * string * string)%type.

Definition shown (output : Output) : list string := output.1.1.

Definition status_of (output : Output) : string := output.1.2.

Definition speaker_prefix (event : SessionEvent) : string :=
  if bool_decide (event_type event = "member") && bool_decide (hat_emoji event ≠ "")
  then "💬 " +:+ hat_emoji event
  else if bool_decide (event_type event = "moderator") then "🎤"
  else "💬".

Definition hat_suffix (event : SessionEvent) : string :=
  if bool_decide (ev_hat_name event ≠ "") then " [" +:+ ev_hat_name event +:+ "]" else "".

(** The text of a bubble: [f"**{speaker_prefix} {speaker}{hat_suffix}**\n\n{content}"]. *)
Definition bubble (event : SessionEvent) (speaker content : string) : string :=
  "**" +:+ speaker_prefix event +:+ " " +:+ speaker +:+ hat_suffix event +:+ "**"
  +:+ Search.nl +:+ Search.nl +:+ content.

(** [if messages: messages[-1]["content"] = text] *)
Definition set_last (text : string) (messages : list string) : list string :=
  match messages with
  | [] => []
  | _ :: _ => removelast messages ++ [text]
  end.

(** The text of the bubble of a complete speech, with three sources at most. *)
Definition final_content (event : SessionEvent) : string :=
  bubble event (ev_speaker_name event) (ev_content event)
  +:+ match search_sources event with
      | [] => ""
      | _ :: _ =>
          Search.nl +:+ Search.nl +:+ "📎 **來源**:" +:+ Search.nl
          +:+ String.concat Search.nl (map (fun s => "- " +:+ s) (take 3 (search_sources event)))
      end.

(** [f" (第 {speech_index} 次發言)"], when the index is not zero. *)
Definition speech_index_note (event : SessionEvent) : string :=
  if decide (speech_index event = 0) then ""
  else " (第 " +:+ pretty (speech_index event) +:+ " 次發言)".

(** One turn of the loop [async for event in current_session.run()]: the
    chat after it, and what it yields. *)
Definition render_event (name_mapping_text : string) (chat : Chat) (event : SessionEvent)
  : Chat * list Output :=
  if bool_decide (event_type event = "system") then
    let messages := messages chat ++ ["*" +:+ ev_content event +:+ "*"] in
    ({| messages := messages;
        current_content := current_content chat;
        current_speaker := current_speaker chat |},
     [(messages, "狀態：" +:+ ev_content event, name_mapping_text)])
  else if bool_decide (event_type event = "moderator")
          || bool_decide (event_type event = "member") then
    if is_streaming event && negb (is_final event) then
      let chat' :=
        if decide (ev_speaker_name event ≠ current_speaker chat) then
          {| messages :=
               messages chat ++ [bubble event (ev_speaker_name event) (ev_content event)];
             current_content := ev_content event;
             current_speaker := ev_speaker_name event |}
        else
          let current_content := current_content chat +:+ ev_content event in
          {| messages :=
               set_last (bubble event (current_speaker chat) current_content) (messages chat);
             current_content := current_content;
             current_speaker := current_speaker chat |} in
      let status_msg :=
        "狀態：" +:+ current_speaker chat' +:+ hat_suffix event +:+ " 發言中..."
        +:+ speech_index_note event in
      (chat', [(messages chat', status_msg, name_mapping_text)])
    else if is_final event then
      let messages :=
        match messages chat with
        | _ :: _ =>
            if decide (current_speaker chat = ev_speaker_name event)
            then set_last (final_content event) (messages chat)
            else messages chat ++ [final_content event]
        | [] => [final_content event]
        end in
      ({| messages := messages; current_content := ""; current_speaker := "" |},
       [(messages,
         (if decide (speech_index event = 0) then "狀態：進行中"
          else "狀態：進行中 (第 " +:+ pretty (speech_index event) +:+ " 次發言)"),
         name_mapping_text)])
    else (chat, [])
  else (chat, []).

(** The loop from the chat [chat] on, and the yield that follows it. *)
Fixpoint event_loop (name_mapping_text : string) (chat : Chat) (events : list SessionEvent)
  : list Output :=
  match events with
  | [] => [(messages chat, "狀態：討論結束", name_mapping_text)]
  | event :: events' =>
      let '(chat', outputs) := render_event name_mapping_text chat event in
      outputs ++ event_loop name_mapping_text chat' events'
  end.

(** The chat after the loop. *)
Fixpoint chat_after (name_mapping_text : string) (chat : Chat) (events : list SessionEvent)
  : Chat :=
  match events with
  | [] => chat
  | event :: events' =>
      chat_after name_mapping_text (render_event name_mapping_text chat event).1 events'
  end.

(** [messages = []; current_content = ""; current_speaker = ""] *)
Definition empty_chat : Chat :=
  {| messages := []; current_content := ""; current_speaker := "" |}.

(** All that [start_discussion] yields once the session is created, for the
    events [events] of [Session.run]. *)
Definition discussion_outputs (name_mapping_text : string) (events : list SessionEvent)
  : list Output :=
  event_loop name_mapping_text empty_chat events.

(** The streamed events of one speech, then its final event, as
    [_member_speak] and the moderator's turns yield them: the parts
    [chunks], then the whole. *)
Definition speech_events (event : SessionEvent) (chunks : list string) : list SessionEvent :=
  map (fun chunk =>
         {| event_type := event_type event; ev_speaker_name := ev_speaker_name event;
            ev_content := chunk; is_streaming := true; is_final := false;
            speech_index := speech_index event; search_query := search_query event;
            search_sources := search_sources event; hat_emoji := hat_emoji event;
            ev_hat_name := ev_hat_name event |}) chunks
  ++ [event].

(** The status lines shown while a speech is streamed and when it is
    complete. *)
Definition streaming_status (event : SessionEvent) : string :=
  "狀態：" +:+ ev_speaker_name event +:+ hat_suffix event +:+ " 發言中..."
  +:+ speech_index_note event.

Definition final_status (event : SessionEvent) : string :=
  if decide (speech_index event = 0) then "狀態：進行中"
  else "狀態：進行中 (第 " +:+ pretty (speech_index event) +:+ " 次發言)".

End App.

(** * Properties *)

(** ** The hat allocator *)

(** Membership in a list written out, and its negation for constructors. *)
Ltac in_list := repeat first [apply list_elem_of_here | apply list_elem_of_further].
Ltac not_in_list :=
  let H := fresh in
  intros H;
  repeat (apply elem_of_cons in H; destruct H as [H | H]; [discriminate H |]);
  by apply elem_of_nil in H.

Section hat_facts.

Import Hats HatRuns.

Lemma random_choice_elem {A : Type} (r : nat) (seq : list A) :
  seq ≠ [] → ∃ x, random_choice r seq = Returned x ∧ x ∈ seq.
Proof.
  intros Hne. unfold random_choice.
  assert (Hlt : (r mod length seq < length seq)%nat).
  { apply Nat.mod_upper_bound. destruct seq; [done | simpl; lia]. }
  destruct (lookup_lt_is_Some_2 seq _ Hlt) as [x Hx].
  rewrite Hx. exists x. split; [done |]. by eapply list_elem_of_lookup_2.
Qed.

Lemma list_remove_elem (x : HatColor) (l : list HatColor) :
  x ∈ l → ∃ l', list_remove x l = Some l' ∧ l ≡ₚ x :: l'.
Proof.
  induction l as [| y l IH]; intros Hin.
  - by apply elem_of_nil in Hin.
  - simpl. destruct (decide (x = y)) as [-> | Hne].
    + by exists l.
    + apply elem_of_cons in Hin as [? | Hin]; [done |].
      destruct (IH Hin) as (l' & -> & Hp). exists (y :: l'). split; [done |].
      rewrite Hp. apply perm_swap.
Qed.

Lemma first_speaker_candidates_sub (hats : list HatColor) (h : HatColor) :
  h ∈ first_speaker_candidates hats → h ∈ hats ∧ h ∈ FIRST_SPEAKER_HATS.
Proof. unfold first_speaker_candidates. rewrite list_elem_of_filter. tauto. Qed.

Lemma refill_if_empty_nonempty (self : HatManager) :
  available_hats (refill_if_empty self) ≠ [].
Proof. unfold refill_if_empty. destruct (decide _); [done | done]. Qed.

Lemma refill_if_empty_counts (self : HatManager) :
  hat_counts (refill_if_empty self) = hat_counts self.
Proof. unfold refill_if_empty. by destruct (decide _). Qed.

(** What one call does: the pool the draw is made from, the hat drawn out
    of it, and the state left. *)
Lemma assign_hat_spec (r : nat) (b : bool) (self : HatManager) :
  ∃ pool h rest,
    pool = (if forced_refill b self then MEMBER_HATS
            else available_hats (refill_if_empty self)) ∧
    pool ≡ₚ h :: rest ∧
    (b = true → h ∈ FIRST_SPEAKER_HATS) ∧
    assign_hat r b self =
      (Returned h,
       {| hat_counts := <[h := default 0 (hat_counts self !! h) + 1]> (hat_counts self);
          available_hats := rest |}).
Proof.
  unfold assign_hat, forced_refill.
  pose proof (refill_if_empty_nonempty self) as Hne.
  pose proof (refill_if_empty_counts self) as Hc.
  set (self1 := refill_if_empty self) in *.
  destruct b; cbn [andb].
  - destruct (decide (first_speaker_candidates (available_hats self1) = [])) as [He | He].
    + rewrite bool_decide_eq_true_2 by done. cbn [available_hats hat_counts].
      destruct (random_choice_elem r (first_speaker_candidates MEMBER_HATS)) as (h & -> & Hin);
        [done |].
      apply first_speaker_candidates_sub in Hin as [Hin Hf]. cbn [available_hats hat_counts].
      destruct (list_remove_elem h MEMBER_HATS Hin) as (rest & -> & Hp).
      exists MEMBER_HATS, h, rest. rewrite Hc. done.
    + rewrite bool_decide_eq_false_2 by done.
      destruct (random_choice_elem r _ He) as (h & -> & Hin).
      apply first_speaker_candidates_sub in Hin as [Hin Hf].
      destruct (list_remove_elem h _ Hin) as (rest & -> & Hp).
      exists (available_hats self1), h, rest. rewrite Hc. done.
  - destruct (random_choice_elem r _ Hne) as (h & -> & Hin).
    destruct (list_remove_elem h _ Hin) as (rest & -> & Hp).
    exists (available_hats self1), h, rest. rewrite Hc. done.
Qed.

Lemma assign_hats_no_refill (calls : list (nat * bool)) : ∀ self : HatManager,
  (length calls ≤ length (available_hats self))%nat →
  no_forced_refill calls self = true →
  ∃ hats,
    fst (assign_hats calls self) = map Returned hats ∧
    available_hats self ≡ₚ hats ++ available_hats (snd (assign_hats calls self)).
Proof.
  induction calls as [| [r b] calls IH]; intros self Hlen Hno.
  - by exists [].
  - cbn [no_forced_refill] in Hno. apply andb_true_iff in Hno as [Hf Hno].
    apply negb_true_iff in Hf.
    destruct (assign_hat_spec r b self) as (pool & h & rest & Hpool & Hp & _ & Heq).
    rewrite Hf in Hpool.
    assert (Hself : refill_if_empty self = self).
    { unfold refill_if_empty. destruct (decide _) as [He | ?]; [| done].
      rewrite He in Hlen. simpl in Hlen. lia. }
    rewrite Hself in Hpool. subst pool.
    rewrite Heq in Hno. cbn [snd] in Hno.
    cbn [assign_hats]. rewrite Heq.
    set (self' := {| hat_counts := _; available_hats := rest |}) in *.
    destruct (IH self') as (hats & Hres & Hperm); [| done |].
    { apply Permutation_length in Hp. simpl in *. lia. }
    destruct (assign_hats calls self') as [os self'']. cbn [fst snd] in *.
    exists (h :: hats). split; [by rewrite Hres |].
    subst self'. cbn [available_hats] in Hperm. rewrite Hp, Hperm. done.
Qed.

(** A run of as many calls as the pool holds hats, none of which forces a
    refill, returns the hats of the pool, each once. *)
Lemma assign_hats_empty_the_pool (calls : list (nat * bool)) (self : HatManager) :
  length calls = length (available_hats self) →
  no_forced_refill calls self = true →
  ∃ hats, fst (assign_hats calls self) = map Returned hats ∧ hats ≡ₚ available_hats self.
Proof.
  intros Hlen Hno.
  destruct (assign_hats_no_refill calls self) as (hats & Hres & Hperm); [lia | done |].
  exists hats. split; [done |].
  assert (Hl : length hats = length calls).
  { apply (f_equal (@length _)) in Hres. rewrite length_map in Hres. rewrite <- Hres.
    clear. revert self.
    induction calls as [| [r b] calls IH]; intros self; [done |].
    cbn [assign_hats]. destruct (assign_hat r b self) as [o self'].
    specialize (IH self'). destruct (assign_hats calls self') as [os self''].
    cbn in *. by rewrite IH. }
  pose proof (Permutation_length Hperm) as Hl'.
  rewrite length_app, Hl, Hlen in Hl'.
  destruct (available_hats (snd (assign_hats calls self))) as [| ? ?]; [| cbn in Hl'; lia].
  rewrite app_nil_r in Hperm. by symmetry.
Qed.

(** C3 (as amended): five consecutive calls of [assign_hat] from a full pool
    return each of the five hats exactly once, whatever the random values
    and the [is_first_speaker] arguments, provided no restricted draw finds
    the pool without WHITE and GREEN (which forces a refill). *)
Theorem hat_cycle_without_forced_refill (calls : list (nat * bool)) (self : HatManager) :
  length calls = 5%nat →
  available_hats self = MEMBER_HATS →
  no_forced_refill calls self = true →
  ∃ hats, fst (assign_hats calls self) = map Returned hats ∧ hats ≡ₚ MEMBER_HATS.
Proof.
  intros Hlen Hfull Hno.
  destruct (assign_hats_empty_the_pool calls self) as (hats & Hres & Hperm).
  - rewrite Hfull. exact Hlen.
  - exact Hno.
  - exists hats. split; [exact Hres |]. rewrite Hperm, Hfull. reflexivity.
Qed.

Lemma refill_if_empty_idem (self : HatManager) :
  refill_if_empty (refill_if_empty self) = refill_if_empty self.
Proof.
  unfold refill_if_empty at 1. destruct (decide _) as [He | ?]; [| done].
  by destruct (refill_if_empty_nonempty self).
Qed.

Lemma assign_hat_refill (r : nat) (b : bool) (self : HatManager) :
  assign_hat r b (refill_if_empty self) = assign_hat r b self.
Proof. unfold assign_hat. by rewrite refill_if_empty_idem. Qed.

Lemma observe_refill (ops : list HatOp) : ∀ self1 self2 : HatManager,
  refill_if_empty self1 = refill_if_empty self2 →
  observe ops self1 = observe ops self2.
Proof.
  induction ops as [| op ops IH]; intros self1 self2 Heq; [done |].
  assert (Hc : hat_counts self1 = hat_counts self2).
  { by rewrite <- (refill_if_empty_counts self1), Heq, refill_if_empty_counts. }
  destruct op; cbn [observe].
  - rewrite <- (assign_hat_refill _ _ self1), Heq, assign_hat_refill. done.
  - unfold get_unused_hats. rewrite Hc. f_equal. by apply IH.
  - unfold get_distribution_summary. rewrite Hc. f_equal. by apply IH.
  - done.
Qed.

(** C9: after [reset()] a [HatManager] answers every sequence of
    operations ([assign_hat] with any flags, [get_unused_hats],
    [get_distribution_summary], [reset]) as a freshly constructed one does,
    for the same values of the random generator. *)
Theorem reset_indistinguishable_from_fresh (self : HatManager) (ops : list HatOp) :
  observe ops (reset self) = observe ops fresh.
Proof. by apply observe_refill. Qed.

Lemma first_two_calls_no_forced_refill (c1 c2 c3 c4 c5 : nat * bool) (self : HatManager) :
  available_hats self = MEMBER_HATS →
  snd c3 = false → snd c4 = false → snd c5 = false →
  no_forced_refill [c1; c2; c3; c4; c5] self = true.
Proof.
  destruct c1 as [r1 b1], c2 as [r2 b2], c3 as [r3 b3], c4 as [r4 b4], c5 as [r5 b5].
  cbn [snd]. intros Hfull -> -> ->.
  cbn [no_forced_refill]. unfold forced_refill at 3 4 5. cbn [andb negb].
  rewrite !andb_true_r. apply andb_true_iff. split.
  - apply negb_true_iff. unfold forced_refill, refill_if_empty. rewrite Hfull.
    destruct (decide (MEMBER_HATS = [])); [done |]. rewrite Hfull.
    destruct b1; reflexivity.
  - destruct (assign_hat_spec r1 b1 self) as (pool & h & rest & Hpool & Hp & _ & ->).
    assert (pool = MEMBER_HATS) as ->.
    { rewrite Hpool. unfold refill_if_empty. rewrite Hfull.
      destruct (decide (MEMBER_HATS = [])); [done |]. rewrite Hfull.
      destruct (forced_refill b1 self); reflexivity. }
    cbn [snd]. apply negb_true_iff. unfold forced_refill.
    destruct b2; [| reflexivity]. cbn [andb]. apply bool_decide_eq_false_2.
    unfold refill_if_empty. cbn [available_hats].
    destruct (decide (rest = [])) as [-> | Hne].
    { apply Permutation_length in Hp. discriminate Hp. }
    intros He.
    assert (HW : WHITE ∈ h :: rest) by (rewrite <- Hp; unfold MEMBER_HATS; in_list).
    assert (HG : GREEN ∈ h :: rest) by (rewrite <- Hp; unfold MEMBER_HATS; in_list).
    destruct (proj1 (elem_of_cons _ _ _) HW) as [HW' | HW'].
    + destruct (proj1 (elem_of_cons _ _ _) HG) as [HG' | HG']; [congruence |].
      eapply (filter_nil_not_elem_of _ _ GREEN) in He; [done |].
      unfold FIRST_SPEAKER_HATS. in_list.
    + eapply (filter_nil_not_elem_of _ _ WHITE) in He; [done |].
      unfold FIRST_SPEAKER_HATS. in_list.
Qed.

(** The restriction of C3 holds in particular when [is_first_speaker] is
    passed only within the first two calls. *)
Lemma hat_cycle_first_two_calls (c1 c2 c3 c4 c5 : nat * bool) (self : HatManager) :
  available_hats self = MEMBER_HATS →
  snd c3 = false → snd c4 = false → snd c5 = false →
  ∃ hats, fst (assign_hats [c1; c2; c3; c4; c5] self) = map Returned hats
          ∧ hats ≡ₚ MEMBER_HATS.
Proof.
  intros Hfull H3 H4 H5. rewrite <- Hfull.
  apply assign_hats_empty_the_pool; [by rewrite Hfull |].
  by apply first_two_calls_no_forced_refill.
Qed.

(** C3 as stated fails: with [is_first_speaker] passed three times in a row
    the third restricted draw finds neither WHITE nor GREEN, the pool is
    refilled and WHITE comes back before RED, BLACK and YELLOW were seen. *)
Lemma hat_cycle_three_first_speakers :
  length three_first_speakers = 5%nat ∧
  available_hats (reset fresh) = MEMBER_HATS ∧
  fst (assign_hats three_first_speakers (reset fresh))
    = map Returned [WHITE; GREEN; WHITE; RED; BLACK] ∧
  ¬ ([WHITE; GREEN; WHITE; RED; BLACK] ≡ₚ MEMBER_HATS).
Proof.
  split; [reflexivity |]. split; [reflexivity |]. split; [vm_compute; reflexivity |].
  intros Hp. assert (Hnd : NoDup MEMBER_HATS).
  { unfold MEMBER_HATS. repeat (apply NoDup_cons; split; [not_in_list |]). apply NoDup_nil_2. }
  rewrite <- Hp in Hnd. apply NoDup_cons in Hnd as [Hnin _]. apply Hnin. in_list.
Qed.

Lemma hat_cycle_without_forced_refill_witness :
  length one_first_speaker = 5%nat ∧
  available_hats (reset fresh) = MEMBER_HATS ∧
  no_forced_refill one_first_speaker (reset fresh) = true ∧
  ∃ hats, fst (assign_hats one_first_speaker (reset fresh)) = map Returned hats
          ∧ hats ≡ₚ MEMBER_HATS.
Proof.
  split; [reflexivity |]. split; [reflexivity |]. split; [vm_compute; reflexivity |].
  apply (hat_cycle_without_forced_refill one_first_speaker (reset fresh));
    [reflexivity | reflexivity | vm_compute; reflexivity].
Defined.

Lemma assign_hats_returned (calls : list (nat * bool)) : ∀ self : HatManager,
  ∃ hats, fst (assign_hats calls self) = map Returned hats ∧ length hats = length calls.
Proof.
  induction calls as [| [r b] calls IH]; intros self; [by exists [] |].
  cbn [assign_hats].
  destruct (assign_hat_spec r b self) as (pool & h & rest & _ & _ & _ & ->).
  destruct (IH {| hat_counts := <[h:=default 0 (hat_counts self !! h) + 1]> (hat_counts self);
                  available_hats := rest |}) as (hats & Hres & Hlen).
  destruct (assign_hats calls _) as [os self'']. cbn [fst] in *.
  exists (h :: hats). split; [by rewrite Hres | cbn; by rewrite Hlen].
Qed.

(** The converse of C3's restriction: a restricted draw that forces a
    refill returns a hat that was already returned in the window. *)
Lemma forced_refill_repeats (calls : list (nat * bool)) :
  ∀ (self : HatManager) (done_ : list HatColor),
    done_ ++ available_hats self ≡ₚ MEMBER_HATS →
    (length calls ≤ length (available_hats self))%nat →
    no_forced_refill calls self = false →
    ∃ hats, fst (assign_hats calls self) = map Returned hats ∧ ¬ NoDup (done_ ++ hats).
Proof.
  induction calls as [| [r b] calls IH]; intros self done_ Hinv Hlen Hforced; [done |].
  cbn [no_forced_refill] in Hforced. cbn [length] in Hlen.
  assert (Hself : refill_if_empty self = self).
  { unfold refill_if_empty. destruct (decide _) as [He | ?]; [| done].
    rewrite He in Hlen. cbn in Hlen. lia. }
  destruct (assign_hat_spec r b self) as (pool & h & rest & Hpool & Hp & Hfirst & Heq).
  cbn [assign_hats]. rewrite Heq in *. cbn [snd] in Hforced.
  set (self' := {| hat_counts := _; available_hats := rest |}) in *.
  destruct (forced_refill b self) eqn:Hf.
  - (* the forced refill itself *)
    destruct (assign_hats_returned calls self') as (hats & Hres & _).
    destruct (assign_hats calls self') as [os self'']. cbn [fst] in *.
    exists (h :: hats). split; [by rewrite Hres |].
    unfold forced_refill in Hf. apply andb_true_iff in Hf as [-> Hf].
    apply bool_decide_eq_true in Hf. rewrite Hself in Hf.
    assert (Hh : h ∈ FIRST_SPEAKER_HATS) by by apply Hfirst.
    assert (Hnot : h ∉ available_hats self).
    { exact (filter_nil_not_elem_of _ _ h Hf Hh). }
    assert (Hdone : h ∈ done_).
    { assert (Hall : h ∈ done_ ++ available_hats self).
      { rewrite Hinv. unfold MEMBER_HATS. destruct h; in_list. }
      apply elem_of_app in Hall as [? | ?]; done. }
    intros Hnd. apply NoDup_app in Hnd as (_ & Hdisj & _).
    apply (Hdisj h Hdone). apply list_elem_of_here.
  - cbn [negb andb] in Hforced. rewrite Hself in Hpool. subst pool.
    destruct (IH self' (done_ ++ [h])) as (hats & Hres & Hnd); [| | done |].
    { subst self'. cbn [available_hats]. rewrite <- app_assoc. cbn. by rewrite <- Hp. }
    { subst self'. cbn [available_hats]. apply Permutation_length in Hp. cbn in Hp. lia. }
    destruct (assign_hats calls self') as [os self'']. cbn [fst] in *.
    exists (h :: hats). split; [by rewrite Hres |]. by rewrite <- app_assoc in Hnd.
Qed.

(** From a full pool, five calls return each hat once exactly when none of
    them forces a refill. *)
Lemma hat_cycle_iff (calls : list (nat * bool)) (self : HatManager) :
  length calls = 5%nat →
  available_hats self = MEMBER_HATS →
  ∃ hats, fst (assign_hats calls self) = map Returned hats ∧
          (hats ≡ₚ MEMBER_HATS ↔ no_forced_refill calls self = true).
Proof.
  intros Hlen Hfull.
  destruct (no_forced_refill calls self) eqn:Hno.
  - destruct (assign_hats_empty_the_pool calls self) as (hats & Hres & Hp);
      [by rewrite Hfull | done |].
    rewrite Hfull in Hp. exists hats. split; [done |]. by split.
  - destruct (forced_refill_repeats calls self []) as (hats & Hres & Hnd).
    { by rewrite Hfull. } { rewrite Hfull. cbn. lia. } { done. }
    exists hats. split; [done |]. split; [| done].
    intros Hp. exfalso. apply Hnd. cbn. rewrite Hp.
    unfold MEMBER_HATS. repeat (apply NoDup_cons; split; [not_in_list |]). apply NoDup_nil_2.
Qed.

Lemma assign_hats_cons (r : nat) (b : bool) (calls : list (nat * bool)) (self : HatManager) :
  assign_hats ((r, b) :: calls) self
  = (fst (assign_hat r b self) :: fst (assign_hats calls (snd (assign_hat r b self))),
     snd (assign_hats calls (snd (assign_hat r b self)))).
Proof.
  cbn [assign_hats]. destruct (assign_hat r b self) as [o self']. cbn [fst snd].
  by destruct (assign_hats calls self') as [os self''].
Qed.

Lemma assign_hats_app (calls1 calls2 : list (nat * bool)) : ∀ self : HatManager,
  assign_hats (calls1 ++ calls2) self
  = (fst (assign_hats calls1 self) ++ fst (assign_hats calls2 (snd (assign_hats calls1 self))),
     snd (assign_hats calls2 (snd (assign_hats calls1 self)))).
Proof.
  induction calls1 as [| [r b] calls1 IH]; intros self.
  - cbn. by destruct (assign_hats calls2 self).
  - rewrite <- app_comm_cons, !assign_hats_cons, IH. done.
Qed.

Lemma occurrences_cons (h h' : HatColor) (hats : list HatColor) :
  occurrences h (h' :: hats) = (if decide (h' = h) then 1 else 0) + occurrences h hats.
Proof.
  unfold occurrences. cbn [List.filter].
  destruct (decide (h' = h)) as [-> | Hne].
  - rewrite bool_decide_eq_true_2 by done. cbn [length]. lia.
  - rewrite bool_decide_eq_false_2 by done. lia.
Qed.

Lemma occurrences_zero (h : HatColor) (hats : list HatColor) :
  occurrences h hats = 0 ↔ h ∉ hats.
Proof.
  induction hats as [| h' hats IH].
  - split; [intros _; apply not_elem_of_nil | done].
  - rewrite occurrences_cons, not_elem_of_cons.
    assert (0 ≤ occurrences h hats) by (unfold occurrences; lia).
    destruct (decide (h' = h)) as [-> | Hne].
    + split; [lia | intros [? _]; done].
    + rewrite Z.add_0_l, IH. split; [by split | tauto].
Qed.

Lemma assign_hats_counts (calls : list (nat * bool)) : ∀ self : HatManager,
  ∃ hats,
    fst (assign_hats calls self) = map Returned hats ∧
    length hats = length calls ∧
    (∀ h, default 0 (hat_counts (snd (assign_hats calls self)) !! h)
          = default 0 (hat_counts self !! h) + occurrences h hats).
Proof.
  induction calls as [| [r b] calls IH]; intros self.
  - exists []. split; [done |]. split; [done |]. intros h. cbn. unfold occurrences. cbn. lia.
  - rewrite assign_hats_cons.
    destruct (assign_hat_spec r b self) as (pool & h0 & rest & _ & _ & _ & ->).
    cbn [fst snd].
    set (self' := {| hat_counts := _; available_hats := rest |}).
    destruct (IH self') as (hats & Hres & Hlen & Hcount).
    exists (h0 :: hats). split; [by rewrite Hres |]. split; [cbn; by rewrite Hlen |].
    intros h. rewrite Hcount, occurrences_cons. subst self'. cbn [hat_counts].
    destruct (decide (h0 = h)) as [-> | Hne].
    + rewrite lookup_insert_eq. cbn. lia.
    + rewrite lookup_insert_ne by done. lia.
Qed.

(** X1: The counters record what was handed out: after [reset()], whatever the
    random values and the [is_first_speaker] arguments, every call returns a
    hat, the counter of each hat is the number of times it was returned, and
    [get_unused_hats] lists, in the order of [MEMBER_HATS], the hats never
    returned. *)
Theorem hat_counts_record_assignments (calls : list (nat * bool)) (self : HatManager) :
  ∃ hats,
    fst (assign_hats calls (reset self)) = map Returned hats ∧
    length hats = length calls ∧
    (∀ h, default 0 (hat_counts (snd (assign_hats calls (reset self))) !! h)
          = occurrences h hats) ∧
    get_unused_hats (snd (assign_hats calls (reset self)))
    = filter (fun h => h ∉ hats) MEMBER_HATS.
Proof.
  destruct (assign_hats_counts calls (reset self)) as (hats & Hres & Hlen & Hcount).
  assert (Hz : ∀ h, default 0 (hat_counts (reset self) !! h) = 0) by (by intros []).
  exists hats. split; [done |]. split; [done |]. split.
  - intros h. by rewrite Hcount, Hz.
  - unfold get_unused_hats. apply list_filter_iff. intros h.
    rewrite Hcount, Hz, Z.add_0_l. apply occurrences_zero.
Qed.

Lemma map_Returned_inj {A : Type} (l l' : list A) :
  map (@Returned A) l = map Returned l' → l = l'.
Proof.
  revert l'. induction l as [| x l IH]; intros [| y l'] Heq; try done.
  cbn in Heq. injection Heq as -> Heq. f_equal. by apply IH.
Qed.

Lemma NoDup_MEMBER_HATS : NoDup MEMBER_HATS.
Proof.
  unfold MEMBER_HATS. repeat (apply NoDup_cons; split; [not_in_list |]). apply NoDup_nil_2.
Qed.

Lemma elem_of_MEMBER_HATS (h : HatColor) : h ∈ MEMBER_HATS.
Proof. unfold MEMBER_HATS. destruct h; in_list. Qed.

Lemma forced_refill_refill (b : bool) (self : HatManager) :
  forced_refill b (refill_if_empty self) = forced_refill b self.
Proof. unfold forced_refill. by rewrite refill_if_empty_idem. Qed.

Lemma no_forced_refill_app (calls1 calls2 : list (nat * bool)) : ∀ self : HatManager,
  no_forced_refill (calls1 ++ calls2) self
  = no_forced_refill calls1 self && no_forced_refill calls2 (snd (assign_hats calls1 self)).
Proof.
  induction calls1 as [| [r b] calls1 IH]; intros self; [done |].
  rewrite <- app_comm_cons. cbn [no_forced_refill]. rewrite assign_hats_cons. cbn [snd].
  by rewrite IH, andb_assoc.
Qed.

Lemma no_forced_refill_plain (rs : list nat) : ∀ self : HatManager,
  no_forced_refill (map (fun r' => (r', false)) rs) self = true.
Proof. induction rs as [| r rs IH]; intros self; [done |]. cbn. apply IH. Qed.

Lemma no_forced_refill_session (r : nat) (rs : list nat) (self : HatManager) :
  no_forced_refill (session_calls r rs) (reset self) = true.
Proof. unfold session_calls. cbn [no_forced_refill]. by rewrite no_forced_refill_plain. Qed.

(** A block of five calls that starts on an empty or a full pool and forces
    no refill hands out the five hats and leaves the pool empty. *)
Lemma assign_hats_block (calls : list (nat * bool)) (self : HatManager) :
  available_hats (refill_if_empty self) = MEMBER_HATS →
  length calls = 5%nat →
  no_forced_refill calls self = true →
  ∃ hats,
    fst (assign_hats calls self) = map Returned hats ∧
    hats ≡ₚ MEMBER_HATS ∧
    available_hats (refill_if_empty (snd (assign_hats calls self))) = MEMBER_HATS.
Proof.
  intros Hfull Hlen Hno.
  destruct calls as [| [r b] calls]; [done |].
  assert (Hrun : assign_hats ((r, b) :: calls) self
                 = assign_hats ((r, b) :: calls) (refill_if_empty self)).
  { by rewrite !assign_hats_cons, assign_hat_refill. }
  assert (Hno' : no_forced_refill ((r, b) :: calls) (refill_if_empty self) = true).
  { cbn [no_forced_refill] in *. by rewrite forced_refill_refill, assign_hat_refill. }
  rewrite Hrun.
  destruct (assign_hats_no_refill ((r, b) :: calls) (refill_if_empty self))
    as (hats & Hres & Hperm); [rewrite Hfull; cbn in *; lia | done |].
  destruct (assign_hats_returned ((r, b) :: calls) (refill_if_empty self))
    as (hats' & Hres' & Hlen').
  rewrite Hres in Hres'. apply map_Returned_inj in Hres'. subst hats'.
  pose proof (Permutation_length Hperm) as Hl.
  rewrite Hfull, length_app, Hlen', Hlen in Hl.
  change (length MEMBER_HATS) with 5%nat in Hl.
  destruct (available_hats (snd (assign_hats ((r, b) :: calls) (refill_if_empty self))))
    as [| ? ?] eqn:Hav; [| cbn [length] in Hl; lia].
  rewrite app_nil_r, Hfull in Hperm.
  exists hats. split; [done |]. split; [by symmetry |].
  unfold refill_if_empty at 1. rewrite Hav. done.
Qed.

(** Block after block: with no forced refill, the [k]-th block of five
    calls hands out the five hats. *)
Lemma assign_hats_rotate (k : nat) : ∀ (calls : list (nat * bool)) (self : HatManager)
    (hats : list HatColor),
  available_hats (refill_if_empty self) = MEMBER_HATS →
  no_forced_refill calls self = true →
  fst (assign_hats calls self) = map Returned hats →
  (5 * k + 5 ≤ length calls)%nat →
  take 5 (drop (5 * k) hats) ≡ₚ MEMBER_HATS.
Proof.
  induction k as [| k IH]; intros calls self hats Hfull Hno Hres Hlen.
  - rewrite <- (take_drop 5 calls) in Hno, Hres.
    rewrite no_forced_refill_app in Hno. apply andb_true_iff in Hno as [Hno1 Hno2].
    rewrite assign_hats_app in Hres. cbn [fst] in Hres.
    destruct (assign_hats_block (take 5 calls) self) as (hats1 & Hres1 & Hp1 & _);
      [done | rewrite length_take; lia | done |].
    destruct (assign_hats_returned (drop 5 calls) (snd (assign_hats (take 5 calls) self)))
      as (hats2 & Hres2 & _).
    rewrite Hres1, Hres2, <- map_app in Hres. apply map_Returned_inj in Hres. subst hats.
    change (5 * 0)%nat with 0%nat. rewrite drop_0, take_app_length'; [done |].
    by rewrite (Permutation_length Hp1).
  - rewrite <- (take_drop 5 calls) in Hno, Hres.
    rewrite no_forced_refill_app in Hno. apply andb_true_iff in Hno as [Hno1 Hno2].
    rewrite assign_hats_app in Hres. cbn [fst] in Hres.
    destruct (assign_hats_block (take 5 calls) self) as (hats1 & Hres1 & Hp1 & Hfull1);
      [done | rewrite length_take; lia | done |].
    destruct (assign_hats_returned (drop 5 calls) (snd (assign_hats (take 5 calls) self)))
      as (hats2 & Hres2 & _).
    rewrite Hres1, Hres2, <- map_app in Hres. apply map_Returned_inj in Hres. subst hats.
    replace (5 * S k)%nat with (length hats1 + 5 * k)%nat
      by (rewrite (Permutation_length Hp1); cbn; lia).
    rewrite drop_app_add'; [| done].
    apply (IH (drop 5 calls) (snd (assign_hats (take 5 calls) self))); try done.
    rewrite length_drop. lia.
Qed.

Lemma balanced_assign_hat (r : nat) (b : bool) (self : HatManager) (c : Z) :
  balanced_at c self →
  forced_refill b self = false →
  ∃ c', balanced_at c' (snd (assign_hat r b self)).
Proof.
  intros [Hnd Hc] Hf.
  destruct (assign_hat_spec r b self) as (pool & h & rest & Hpool & Hp & _ & ->).
  rewrite Hf in Hpool. cbn [snd].
  assert (Hndp : NoDup pool).
  { subst pool. unfold refill_if_empty. destruct (decide _); [apply NoDup_MEMBER_HATS | done]. }
  rewrite Hp in Hndp. apply NoDup_cons in Hndp as [Hh Hrest].
  assert (Hin : ∀ h', h' ∈ pool ↔ h' = h ∨ h' ∈ rest).
  { intros h'. rewrite Hp. apply elem_of_cons. }
  unfold refill_if_empty in Hpool.
  destruct (decide (available_hats self = [])) as [He | Hne]; cbn [available_hats] in Hpool.
  - exists (c + 1). split; [done |]. intros h'. cbn [hat_counts available_hats].
    assert (Hold : ∀ h'', default 0 (hat_counts self !! h'') = c + 1).
    { intros h''. rewrite Hc, He. destruct (decide (h'' ∈ [])) as [Hx | ?]; [| done].
      by apply elem_of_nil in Hx. }
    pose proof (proj1 (Hin h')) as Hall. rewrite Hpool in Hall.
    specialize (Hall (elem_of_MEMBER_HATS h')).
    destruct (decide (h = h')) as [-> | Hneq].
    + rewrite lookup_insert_eq. cbn. rewrite Hold.
      destruct (decide (h' ∈ rest)); [done | lia].
    + rewrite lookup_insert_ne by done. rewrite Hold.
      destruct (decide (h' ∈ rest)); [done |]. destruct Hall; [congruence | done].
  - exists c. split; [done |]. intros h'. cbn [hat_counts available_hats]. subst pool.
    destruct (decide (h = h')) as [-> | Hneq].
    + rewrite lookup_insert_eq. cbn. rewrite Hc.
      destruct (decide (h' ∈ available_hats self)) as [? | Hout].
      * destruct (decide (h' ∈ rest)); [done | done].
      * exfalso. apply Hout. apply Hin. by left.
    + rewrite lookup_insert_ne by done. rewrite Hc.
      destruct (decide (h' ∈ available_hats self)) as [Hi | Hout].
      * apply Hin in Hi as [? | Hi]; [congruence |].
        destruct (decide (h' ∈ rest)); [done | done].
      * destruct (decide (h' ∈ rest)) as [Hi | ?]; [| done].
        exfalso. apply Hout. apply Hin. by right.
Qed.

Lemma balanced_assign_hats (calls : list (nat * bool)) : ∀ (self : HatManager) (c : Z),
  balanced_at c self →
  no_forced_refill calls self = true →
  ∃ c', balanced_at c' (snd (assign_hats calls self)).
Proof.
  induction calls as [| [r b] calls IH]; intros self c Hb Hno; [by exists c |].
  cbn [no_forced_refill] in Hno. apply andb_true_iff in Hno as [Hf Hno].
  apply negb_true_iff in Hf.
  destruct (balanced_assign_hat r b self c Hb Hf) as [c1 Hb1].
  rewrite assign_hats_cons. cbn [snd]. by apply (IH _ c1).
Qed.

(** X2: In a session the pool is reset, the first call is the restricted one
    and no later call is.  Then no refill is ever forced: the restricted
    call returns WHITE or GREEN, every block of five consecutive calls (turns
    1 to 5, 6 to 10, ...) hands out the five hats once each, and at any
    moment the counters of two hats differ by one at most. *)
Theorem session_hats_rotate (r : nat) (rs : list nat) (self : HatManager) :
  let calls := session_calls r rs in
  no_forced_refill calls (reset self) = true ∧
  ∃ first hats,
    fst (assign_hats calls (reset self)) = map Returned (first :: hats) ∧
    first ∈ FIRST_SPEAKER_HATS ∧
    (∀ k : nat, (5 * k + 5 ≤ length calls)%nat →
       take 5 (drop (5 * k) (first :: hats)) ≡ₚ MEMBER_HATS) ∧
    ∀ h h',
      default 0 (hat_counts (snd (assign_hats calls (reset self))) !! h)
      - default 0 (hat_counts (snd (assign_hats calls (reset self))) !! h') ≤ 1.
Proof.
  intros calls. pose proof (no_forced_refill_session r rs self) as Hno. fold calls in Hno.
  split; [done |].
  destruct (assign_hats_returned calls (reset self)) as (hats & Hres & Hlen).
  destruct hats as [| first hats]; [done |].
  exists first, hats. split; [done |]. split.
  { unfold calls, session_calls in Hres. rewrite assign_hats_cons in Hres.
    destruct (assign_hat_spec r true (reset self)) as (pool & h & rest & _ & _ & Hfirst & Heq).
    rewrite Heq in Hres. cbn [fst] in Hres. injection Hres as <- _. by apply Hfirst. }
  split.
  { intros k Hk. by apply (assign_hats_rotate k calls (reset self)). }
  destruct (balanced_assign_hats calls (reset self) 0) as (c & _ & Hc); [| done |].
  { split; [apply NoDup_MEMBER_HATS |]. intros h. cbn [reset hat_counts available_hats].
    destruct (decide (h ∈ MEMBER_HATS)) as [? | Hout]; [by destruct h |].
    destruct Hout. apply elem_of_MEMBER_HATS. }
  intros h h'. rewrite !Hc.
  destruct (decide (h ∈ _)); destruct (decide (h' ∈ _)); lia.
Qed.

End hat_facts.

(** ** The retrying client *)

Section client_facts.

Import OpenRouter.

Lemma py_range_of_nat (n : nat) : py_range (Z.of_nat n) = map Z.of_nat (seq 0 n).
Proof. unfold py_range. by rewrite Nat2Z.id. Qed.

Lemma requests_of_app (t1 t2 : list ClientEvent) :
  requests_of (t1 ++ t2) = requests_of t1 ++ requests_of t2.
Proof. unfold requests_of. by rewrite map_app, concat_app. Qed.

Lemma sleeps_of_app (t1 t2 : list ClientEvent) :
  sleeps_of (t1 ++ t2) = sleeps_of t1 ++ sleeps_of t2.
Proof. unfold sleeps_of. by rewrite map_app, concat_app. Qed.

Lemma fragments_of_app (t1 t2 : list ClientEvent) :
  fragments_of (t1 ++ t2) = fragments_of t1 ++ fragments_of t2.
Proof. unfold fragments_of. by rewrite map_app, concat_app. Qed.

Lemma requests_of_yields (cs : list Chunk) : requests_of (yields_of cs) = [].
Proof. unfold yields_of. induction (concat (map chunk_fragment cs)); [done | done]. Qed.

Lemma sleeps_of_yields (cs : list Chunk) : sleeps_of (yields_of cs) = [].
Proof. unfold yields_of. induction (concat (map chunk_fragment cs)); [done | done]. Qed.

Lemma fragments_of_yields (cs : list Chunk) :
  fragments_of (yields_of cs) = concat (map chunk_fragment cs).
Proof.
  unfold yields_of. induction (concat (map chunk_fragment cs)) as [| s l IH]; [done |].
  unfold fragments_of in *. simpl. by rewrite IH.
Qed.

(** The retryable failures of the first [k] attempts from attempt [a] on:
    each is followed by its backoff and the loop goes on. *)
Lemma chat_retry_loop_skip (max_retries : Z) (create : Z -> outcome Completion) (k : nat) :
  ∀ (a n : nat) (last : option exn),
    (∀ j : nat, (a ≤ j < a + k)%nat →
       ∃ e, create (Z.of_nat j) = Raised e ∧ is_api_status_error e = true) →
    Z.of_nat (a + k) ≤ max_retries → (k ≤ n)%nat →
    ∃ last',
      let full := chat_retry_loop (map Z.of_nat (seq a n)) max_retries create last in
      let rest := chat_retry_loop (map Z.of_nat (seq (a + k) (n - k))) max_retries create last' in
      requests_of (fst full) = map Z.of_nat (seq a k) ++ requests_of (fst rest) ∧
      sleeps_of (fst full) = map (fun j => retry_delay (Z.of_nat j)) (seq a k) ++ sleeps_of (fst rest) ∧
      snd full = snd rest.
Proof.
  induction k as [| k IH]; intros a n last Hfail Hle Hn.
  - exists last. rewrite Nat.add_0_r, Nat.sub_0_r. done.
  - destruct n as [| n]; [lia |].
    destruct (Hfail a) as (e & He & Hr); [lia |].
    destruct (IH (S a) n (Some e)) as (last' & IHr); [intros j Hj; apply Hfail; lia | lia | lia |].
    exists last'. cbn zeta in *. cbn [seq map chat_retry_loop]. rewrite He, Hr.
    replace (Z.of_nat a <? max_retries) with true by (symmetry; apply Z.ltb_lt; lia).
    replace (a + S k)%nat with (S a + k)%nat by lia. cbn [Nat.sub].
    destruct (chat_retry_loop (map Z.of_nat (seq (S a) n)) max_retries create (Some e))
      as [trace result].
    cbn [fst snd] in *. destruct IHr as (Hreq & Hsl & Hres).
    unfold requests_of, sleeps_of in *. cbn [map concat app]. rewrite Hreq, Hsl. done.
Qed.

Lemma stream_retry_loop_skip (max_retries : Z) (create : Z -> StreamAttempt) (k : nat) :
  ∀ (a n : nat) (last : option exn),
    (∀ j : nat, (a ≤ j < a + k)%nat →
       ∃ e, failure (create (Z.of_nat j)) = Some e ∧ is_api_status_error e = true) →
    Z.of_nat (a + k) ≤ max_retries → (k ≤ n)%nat →
    ∃ last' skipped,
      let full := stream_retry_loop (map Z.of_nat (seq a n)) max_retries create last in
      let rest := stream_retry_loop (map Z.of_nat (seq (a + k) (n - k))) max_retries create last' in
      fst full = skipped ++ fst rest ∧
      requests_of skipped = map Z.of_nat (seq a k) ∧
      sleeps_of skipped = map (fun j => retry_delay (Z.of_nat j)) (seq a k) ∧
      fragments_of skipped
        = concat (map (fun j => attempt_fragments (create (Z.of_nat j))) (seq a k)) ∧
      snd full = snd rest.
Proof.
  induction k as [| k IH]; intros a n last Hfail Hle Hn.
  - exists last, []. rewrite Nat.add_0_r, Nat.sub_0_r. done.
  - destruct n as [| n]; [lia |].
    destruct (Hfail a) as (e & He & Hr); [lia |].
    destruct (IH (S a) n (Some e)) as (last' & skipped & IHr);
      [intros j Hj; apply Hfail; lia | lia | lia |].
    exists last',
      ([Create (Z.of_nat a)] ++ yields_of (chunks (create (Z.of_nat a)))
       ++ [Sleep (retry_delay (Z.of_nat a))] ++ skipped).
    cbn zeta in *. cbn [seq map stream_retry_loop]. rewrite He, Hr.
    replace (Z.of_nat a <? max_retries) with true by (symmetry; apply Z.ltb_lt; lia).
    replace (a + S k)%nat with (S a + k)%nat by lia. cbn [Nat.sub].
    destruct (stream_retry_loop (map Z.of_nat (seq (S a) n)) max_retries create (Some e))
      as [trace result].
    cbn [fst snd] in *. destruct IHr as (Htr & Hreq & Hsl & Hfr & Hres).
    rewrite !requests_of_app, !sleeps_of_app, !fragments_of_app.
    rewrite requests_of_yields, sleeps_of_yields, fragments_of_yields, Hreq, Hsl, Hfr, Htr.
    cbn [concat map]. unfold attempt_fragments.
    repeat split; try done. by rewrite <- !app_assoc.
Qed.

Lemma seq_snoc (k : nat) : seq 0 (k + 1) = seq 0 k ++ [k].
Proof. by rewrite seq_app. Qed.

(** The call that is not streamed: requests, sleeps and result when the
    first [k] attempts end with a retryable error. *)
Lemma chat_with_retry_outcome (max_retries : Z) (k : nat) (create : Z → outcome Completion) :
  Z.of_nat k ≤ max_retries →
  fails_before raised_by create k →
  let trace := fst (_chat_with_retry max_retries create) in
  let result := snd (_chat_with_retry max_retries create) in
  match create (Z.of_nat k) with
  | Returned response =>
      requests_of trace = py_range (Z.of_nat k + 1) ∧
      sleeps_of trace = backoffs k ++ [REQUEST_DELAY] ∧
      result = _parse_response response
  | Raised e =>
      is_api_status_error e = false ∨ Z.of_nat k = max_retries →
      requests_of trace = py_range (Z.of_nat k + 1) ∧
      sleeps_of trace = backoffs k ∧
      result = Raised e
  end.
Proof.
  intros Hk.
  assert (Hrange : py_range (max_retries + 1) = map Z.of_nat (seq 0 (Z.to_nat (max_retries + 1)))) by done.
  assert (Hsplit : ∃ m : nat, (Z.to_nat (max_retries + 1) - k)%nat = S m ∧
                              (k ≤ Z.to_nat (max_retries + 1))%nat) by (exists (Z.to_nat (max_retries + 1) - k - 1)%nat; lia).
  destruct Hsplit as (m & Hm & Hkn).
  assert (Hreqs : py_range (Z.of_nat k + 1) = map Z.of_nat (seq 0 k) ++ [Z.of_nat k]).
  { replace (Z.of_nat k + 1) with (Z.of_nat (k + 1)) by lia.
    by rewrite py_range_of_nat, seq_snoc, map_app. }
  intros Hfail. unfold _chat_with_retry. rewrite Hrange, Hreqs. cbn zeta.
  destruct (chat_retry_loop_skip max_retries create k 0 (Z.to_nat (max_retries + 1)) None)
    as (last' & Hreq & Hsl & Hres); [| lia | lia |].
  { intros j Hj. destruct (Hfail j) as (e & He & Hr); [lia |]. exists e. split; [| done].
    unfold raised_by in He. destruct (create (Z.of_nat j)); congruence. }
  cbn zeta in *. rewrite Hreq, Hsl, Hres. cbn [Nat.add]. rewrite Hm.
  cbn [seq map chat_retry_loop]. unfold backoffs.
  destruct (create (Z.of_nat k)) as [response | e] eqn:Hc.
  + cbn [fst snd]. done.
  + intros [Hnr | Hlast].
    * rewrite Hnr. cbn [fst snd]. by rewrite app_nil_r.
    * destruct (is_api_status_error e).
      -- replace (Z.of_nat k <? max_retries) with false by (symmetry; apply Z.ltb_ge; lia).
         cbn [fst snd]. by rewrite app_nil_r.
      -- cbn [fst snd]. by rewrite app_nil_r.
Qed.

(** The streamed call: requests, sleeps and terminal exception when the
    first [k] attempts end with a retryable error. *)
Lemma stream_chat_outcome (max_retries : Z) (k : nat) (create : Z → StreamAttempt) :
  Z.of_nat k ≤ max_retries →
  fails_before failure create k →
  let trace := fst (_stream_chat max_retries create) in
  let result := snd (_stream_chat max_retries create) in
  match failure (create (Z.of_nat k)) with
  | None =>
      requests_of trace = py_range (Z.of_nat k + 1) ∧
      sleeps_of trace = backoffs k ++ [REQUEST_DELAY] ∧
      last trace = Some (Sleep REQUEST_DELAY) ∧
      result = None
  | Some e =>
      is_api_status_error e = false ∨ Z.of_nat k = max_retries →
      requests_of trace = py_range (Z.of_nat k + 1) ∧
      sleeps_of trace = backoffs k ∧
      result = Some e
  end.
Proof.
  intros Hk.
  assert (Hrange : py_range (max_retries + 1) = map Z.of_nat (seq 0 (Z.to_nat (max_retries + 1)))) by done.
  assert (Hsplit : ∃ m : nat, (Z.to_nat (max_retries + 1) - k)%nat = S m ∧
                              (k ≤ Z.to_nat (max_retries + 1))%nat) by (exists (Z.to_nat (max_retries + 1) - k - 1)%nat; lia).
  destruct Hsplit as (m & Hm & Hkn).
  assert (Hreqs : py_range (Z.of_nat k + 1) = map Z.of_nat (seq 0 k) ++ [Z.of_nat k]).
  { replace (Z.of_nat k + 1) with (Z.of_nat (k + 1)) by lia.
    by rewrite py_range_of_nat, seq_snoc, map_app. }
  intros Hfail. unfold _stream_chat. rewrite Hrange, Hreqs. cbn zeta.
  destruct (stream_retry_loop_skip max_retries create k 0 (Z.to_nat (max_retries + 1)) None)
    as (last' & skipped & Htr & Hreq & Hsl & Hfr & Hres); [| lia | lia |].
  { intros j Hj. destruct (Hfail j) as (e & He & Hr); [lia |]. by exists e. }
  cbn zeta in *. rewrite Htr, Hres, requests_of_app, sleeps_of_app, Hreq, Hsl.
  cbn [Nat.add]. rewrite Hm. cbn [seq map stream_retry_loop]. unfold backoffs.
  destruct (failure (create (Z.of_nat k))) as [e |] eqn:Hc.
  + assert (Hstop : (if is_api_status_error e
                     then if Z.of_nat k <? max_retries
                          then let '(trace, result) :=
                                 stream_retry_loop (map Z.of_nat (seq (S k) m)) max_retries
                                   create (Some e) in
                               (Create (Z.of_nat k) :: yields_of (chunks (create (Z.of_nat k)))
                                ++ Sleep (retry_delay (Z.of_nat k)) :: trace, result)
                          else (Create (Z.of_nat k) :: yields_of (chunks (create (Z.of_nat k))), Some e)
                     else (Create (Z.of_nat k) :: yields_of (chunks (create (Z.of_nat k))), Some e))
                    = (Create (Z.of_nat k) :: yields_of (chunks (create (Z.of_nat k))), Some e)
                    ∨ (is_api_status_error e = true ∧ Z.of_nat k < max_retries)).
    { destruct (is_api_status_error e); [| by left].
      destruct (Z.ltb_spec (Z.of_nat k) max_retries); [right; done | by left]. }
    intros Hwhy. destruct Hstop as [-> | [Hr Hlt]]; [| destruct Hwhy; [congruence | lia]].
    cbn [fst snd].
    change (Create (Z.of_nat k) :: yields_of (chunks (create (Z.of_nat k))))
      with ([Create (Z.of_nat k)] ++ yields_of (chunks (create (Z.of_nat k)))).
    rewrite requests_of_app, sleeps_of_app, requests_of_yields, sleeps_of_yields.
    by rewrite !app_nil_r.
  + cbn [fst snd].
    change (Create (Z.of_nat k) :: yields_of (chunks (create (Z.of_nat k))) ++ [Sleep REQUEST_DELAY])
      with ([Create (Z.of_nat k)] ++ yields_of (chunks (create (Z.of_nat k))) ++ [Sleep REQUEST_DELAY]).
    rewrite !requests_of_app, !sleeps_of_app, requests_of_yields, sleeps_of_yields.
    rewrite !app_assoc, last_snoc. cbn. by rewrite !app_nil_r.
Qed.


(** The fragments a streamed call hands over are those of every attempt it
    made, in order: nothing is withdrawn when an attempt fails. *)
Lemma stream_result_fragments (max_retries : Z) (k : nat) (create : Z → StreamAttempt) :
  Z.of_nat k ≤ max_retries →
  fails_before failure create k →
  (∀ e, failure (create (Z.of_nat k)) = Some e →
        is_api_status_error e = false ∨ Z.of_nat k = max_retries) →
  fragments (stream_result max_retries create)
    = concat (map (fun j => attempt_fragments (create (Z.of_nat j))) (seq 0 (S k))) ∧
  terminal (stream_result max_retries create) = failure (create (Z.of_nat k)).
Proof.
  intros Hk Hfail Hdec. unfold stream_result, _stream_chat.
  assert (Hm : ∃ m : nat, (Z.to_nat (max_retries + 1) - k)%nat = S m)
    by (exists (Z.to_nat (max_retries + 1) - k - 1)%nat; lia).
  destruct Hm as [m Hm].
  destruct (stream_retry_loop_skip max_retries create k 0 (Z.to_nat (max_retries + 1)) None)
    as (last' & skipped & Htr & _ & _ & Hfr & Hres); [| lia | lia |].
  { intros j Hj. apply Hfail. lia. }
  cbn zeta in *. unfold py_range.
  destruct (stream_retry_loop (map Z.of_nat (seq 0 (Z.to_nat (max_retries + 1)))) max_retries
              create None) as [trace result].
  cbn [fst snd fragments terminal] in *. subst trace result.
  rewrite fragments_of_app, Hfr. cbn [Nat.add]. rewrite Hm.
  replace (S k) with (k + 1)%nat by lia. rewrite seq_snoc, map_app, concat_app.
  cbn [seq map stream_retry_loop concat]. rewrite app_nil_r.
  destruct (failure (create (Z.of_nat k))) as [e |] eqn:Hc.
  - assert (Hstop : is_api_status_error e && (Z.of_nat k <? max_retries) = false).
    { destruct (Hdec e eq_refl) as [-> | Heq]; [done |].
      apply andb_false_iff. right. apply Z.ltb_ge. lia. }
    destruct (is_api_status_error e); cbn [andb] in Hstop; [rewrite Hstop |];
      cbn [fst snd];
      change (Create (Z.of_nat k) :: yields_of (chunks (create (Z.of_nat k))))
        with ([Create (Z.of_nat k)] ++ yields_of (chunks (create (Z.of_nat k))));
      by rewrite fragments_of_app, fragments_of_yields.
  - cbn [fst snd].
    change (Create (Z.of_nat k) :: yields_of (chunks (create (Z.of_nat k))) ++ [Sleep REQUEST_DELAY])
      with ([Create (Z.of_nat k)] ++ yields_of (chunks (create (Z.of_nat k)))
            ++ [Sleep REQUEST_DELAY]).
    rewrite !fragments_of_app, fragments_of_yields. cbn. by rewrite app_nil_r.
Qed.


(** A negative [max_retries] leaves the loops empty: no request is sent;
    the streamed call ends at once, the other one raises a [TypeError]. *)
Lemma negative_max_retries (max_retries : Z) :
  max_retries < 0 →
  (∀ create, _stream_chat max_retries create = ([], None)) ∧
  (∀ create, _chat_with_retry max_retries create = ([], raise_last_error None)).
Proof.
  intros Hneg.
  assert (Hr : py_range (max_retries + 1) = []).
  { unfold py_range. replace (Z.to_nat (max_retries + 1)) with 0%nat by lia. done. }
  split; intros create; unfold _stream_chat, _chat_with_retry; by rewrite Hr.
Qed.

(** The first attempt that settles the call: the first one that does not
    ask for a retry, or the last one allowed. *)
Lemma first_settled (asks : nat → bool) (m : nat) :
  ∃ k : nat, (k ≤ m)%nat ∧ (∀ j : nat, (j < k)%nat → asks j = true) ∧
             (asks k = false ∨ k = m).
Proof.
  induction m as [| m (k & Hk & Hbefore & Hstop)].
  - exists O. split; [lia |]. split; [intros j Hj; lia | by right].
  - destruct Hstop as [Hstop | ->].
    + exists k. split; [lia |]. split; [done | by left].
    + destruct (asks m) eqn:Hm.
      * exists (S m). split; [lia |]. split; [| by right].
        intros j Hj. destruct (decide (j = m)) as [-> | ?]; [done | apply Hbefore; lia].
      * exists m. split; [lia |]. split; [done | by left].
Qed.

Lemma stream_chat_settles (max_retries : Z) (create : Z → StreamAttempt) :
  0 ≤ max_retries →
  ∃ k : nat,
    Z.of_nat k ≤ max_retries ∧
    fails_before failure create k ∧
    requests_of (fst (_stream_chat max_retries create)) = py_range (Z.of_nat k + 1) ∧
    snd (_stream_chat max_retries create) = failure (create (Z.of_nat k)) ∧
    sleeps_of (fst (_stream_chat max_retries create))
    = backoffs k ++ match failure (create (Z.of_nat k)) with
                    | None => [REQUEST_DELAY]
                    | Some _ => []
                    end.
Proof.
  intros Hmax.
  destruct (first_settled (fun j => asks_retry (failure (create (Z.of_nat j))))
              (Z.to_nat max_retries)) as (k & Hk & Hbefore & Hstop).
  assert (Hk' : Z.of_nat k ≤ max_retries) by lia.
  assert (Hfail : fails_before failure create k).
  { intros j Hj. specialize (Hbefore j Hj). unfold asks_retry in Hbefore.
    destruct (failure (create (Z.of_nat j))) as [e |]; [by exists e | done]. }
  exists k. split; [done |]. split; [done |].
  pose proof (stream_chat_outcome max_retries k create Hk' Hfail) as Hout. cbn zeta in Hout.
  destruct (failure (create (Z.of_nat k))) as [e |] eqn:Hlast.
  - destruct Hout as (Hreq & Hsl & Hres).
    { destruct Hstop as [Hstop | ->]; [by left | right; lia]. }
    by rewrite app_nil_r.
  - by destruct Hout as (Hreq & Hsl & _ & Hres).
Qed.

Lemma chat_with_retry_settles (max_retries : Z) (create : Z → outcome Completion) :
  0 ≤ max_retries →
  ∃ k : nat,
    Z.of_nat k ≤ max_retries ∧
    fails_before raised_by create k ∧
    requests_of (fst (_chat_with_retry max_retries create)) = py_range (Z.of_nat k + 1) ∧
    snd (_chat_with_retry max_retries create) = reply_result (create (Z.of_nat k)) ∧
    sleeps_of (fst (_chat_with_retry max_retries create))
    = backoffs k ++ match create (Z.of_nat k) with
                    | Returned _ => [REQUEST_DELAY]
                    | Raised _ => []
                    end.
Proof.
  intros Hmax.
  destruct (first_settled (fun j => asks_retry (raised_by (create (Z.of_nat j))))
              (Z.to_nat max_retries)) as (k & Hk & Hbefore & Hstop).
  assert (Hk' : Z.of_nat k ≤ max_retries) by lia.
  assert (Hfail : fails_before raised_by create k).
  { intros j Hj. specialize (Hbefore j Hj). unfold asks_retry in Hbefore.
    destruct (raised_by (create (Z.of_nat j))) as [e |]; [by exists e | done]. }
  exists k. split; [done |]. split; [done |].
  pose proof (chat_with_retry_outcome max_retries k create Hk' Hfail) as Hout. cbn zeta in Hout.
  destruct (create (Z.of_nat k)) as [response | e] eqn:Hlast.
  - by destruct Hout as (Hreq & Hsl & Hres).
  - destruct Hout as (Hreq & Hsl & Hres).
    { destruct Hstop as [Hstop | ->]; [by left | right; lia]. }
    by rewrite app_nil_r.
Qed.



Lemma sum_Q_app (l1 l2 : list Q) :
  (fold_right Qplus (0 # 1) (l1 ++ l2)
   == fold_right Qplus (0 # 1) l1 + fold_right Qplus (0 # 1) l2)%Q.
Proof.
  induction l1 as [| q l1 IH]; cbn [app fold_right].
  - lra.
  - rewrite IH. lra.
Qed.

Lemma backoffs_snoc (k : nat) : backoffs (S k) = backoffs k ++ [retry_delay (Z.of_nat k)].
Proof.
  unfold backoffs. replace (S k) with (k + 1)%nat by lia. by rewrite seq_snoc, map_app.
Qed.

(** The backoffs of [k] retries add up to [2 ^ (k + 1) - 2] seconds. *)
Lemma total_backoffs (k : nat) :
  (fold_right Qplus (0 # 1) (backoffs k) == inject_Z (2 ^ (Z.of_nat k + 1) - 2))%Q.
Proof.
  induction k as [| k IH].
  - cbn. reflexivity.
  - rewrite backoffs_snoc, sum_Q_app, IH. cbn [fold_right].
    unfold retry_delay, BASE_RETRY_DELAY.
    replace (2 ^ (Z.of_nat (S k) + 1) - 2)
      with ((2 ^ (Z.of_nat k + 1) - 2) + 2 * 2 ^ Z.of_nat k).
    + rewrite inject_Z_plus. lra.
    + replace (Z.of_nat (S k) + 1) with (Z.succ (Z.of_nat k + 1)) by lia.
      rewrite Z.pow_succ_r by lia. rewrite (Z.pow_add_r 2 (Z.of_nat k) 1) by lia. lia.
Qed.

Lemma total_sleep_bound (max_retries : Z) (k : nat) (sleeps : list Q) (cooldown : list Q) :
  Z.of_nat k ≤ max_retries →
  sleeps = backoffs k ++ cooldown →
  cooldown = [REQUEST_DELAY] ∨ cooldown = [] →
  (fold_right Qplus (0 # 1) sleeps <= inject_Z (2 ^ (max_retries + 1)) - (1 # 2))%Q.
Proof.
  intros Hk -> Hc. rewrite sum_Q_app, total_backoffs.
  assert (Hpow : 2 ^ (Z.of_nat k + 1) ≤ 2 ^ (max_retries + 1))
    by (apply Z.pow_le_mono_r; lia).
  apply (Z.sub_le_mono_r _ _ 2) in Hpow. rewrite Zle_Qle in Hpow.
  unfold Z.sub in Hpow at 2. rewrite inject_Z_plus in Hpow.
  change (inject_Z (- (2))) with (- (2 # 1))%Q in Hpow.
  destruct Hc as [-> | ->]; cbn [fold_right]; unfold REQUEST_DELAY; lra.
Qed.

(** X4: Whatever the provider does, a call with a retry count of [max_retries]
    sleeps less than [2 ^ (max_retries + 1)] seconds in all, backoffs and
    cooldown together: at most 7.5 seconds for a speech (two retries) and
    63.5 seconds for a call of the moderator (five retries). *)
Theorem sleep_is_bounded (max_retries : Z) :
  0 ≤ max_retries →
  (∀ create : Z → StreamAttempt,
     (total_sleep (fst (_stream_chat max_retries create))
      <= inject_Z (2 ^ (max_retries + 1)) - (1 # 2))%Q) ∧
  (∀ create : Z → outcome Completion,
     (total_sleep (fst (_chat_with_retry max_retries create))
      <= inject_Z (2 ^ (max_retries + 1)) - (1 # 2))%Q).
Proof.
  intros Hmax. split; intros create; unfold total_sleep.
  - destruct (stream_chat_settles max_retries create Hmax) as (k & Hk & _ & _ & _ & Hsl).
    apply (total_sleep_bound max_retries k _ _ Hk Hsl).
    destruct (failure (create (Z.of_nat k))); [by right | by left].
  - destruct (chat_with_retry_settles max_retries create Hmax) as (k & Hk & _ & _ & _ & Hsl).
    apply (total_sleep_bound max_retries k _ _ Hk Hsl).
    destruct (create (Z.of_nat k)); [by left | by right].
Qed.

Lemma sleep_is_bounded_witness :
  0 ≤ 5 ∧
  (total_sleep (fst (_stream_chat 5 always_limited)) <= 127 # 2)%Q ∧
  (total_sleep (fst (_stream_chat 5 always_limited)) == 62 # 1)%Q.
Proof.
  assert (H0 : 0 ≤ 5) by lia.
  split; [exact H0 |]. split.
  - exact (proj1 (sleep_is_bounded 5 H0) always_limited).
  - reflexivity.
Defined.

End client_facts.

(** ** The moderator *)

Section moderator_facts.

Import Models OpenRouter Search Moderator.

Lemma match_member_spec (rt : Runtime) (selected : string) (remaining : list string) :
  match match_member rt selected remaining with
  | Some member =>
      ∃ before after,
        remaining = before ++ member :: after ∧
        name_matches rt selected member = true ∧
        Forall (fun m => name_matches rt selected m = false) before
  | None => Forall (fun m => name_matches rt selected m = false) remaining
  end.
Proof.
  induction remaining as [| m rest IH]; cbn [match_member]; [by apply Forall_nil |].
  destruct (name_matches rt selected m) eqn:Hm.
  - exists [], rest. split; [done |]. split; [done | by apply Forall_nil].
  - destruct (match_member rt selected rest) as [member |].
    + destruct IH as (before & after & -> & Hmatch & Hbefore).
      exists (m :: before), after. split; [done |]. split; [done |].
      by apply Forall_cons.
    + by apply Forall_cons.
Qed.

(** C7: whenever the provider answers, [select_next_speaker] on a non-empty
    list returns one of its elements: the first candidate that the stripped
    reply matches (either contains the other, case set aside), and the first
    candidate of the list when none matches.  It raises only what the
    provider call raised. *)
Theorem select_next_speaker_in_remaining (rt : Runtime) (reply : Z → outcome Completion)
    (topic : string) (history : list Message) (remaining_members : list string)
    (current_round total_rounds : Z) :
  remaining_members ≠ [] →
  match select_next_speaker rt reply topic history remaining_members current_round total_rounds with
  | Raised e => snd (_chat_with_retry DEFAULT_MAX_RETRIES reply) = Raised e
  | Returned member =>
      member ∈ remaining_members ∧
      ∃ response,
        snd (_chat_with_retry DEFAULT_MAX_RETRIES reply) = Returned response ∧
        let selected := str_strip rt (OpenRouter.content response) in
        (∃ before after,
           remaining_members = before ++ member :: after ∧
           name_matches rt selected member = true ∧
           Forall (fun m => name_matches rt selected m = false) before)
        ∨ (Forall (fun m => name_matches rt selected m = false) remaining_members ∧
           head remaining_members = Some member)
  end.
Proof.
  intros Hne. unfold select_next_speaker.
  destruct (snd (_chat_with_retry DEFAULT_MAX_RETRIES reply)) as [response | e]; [| done].
  pose proof (match_member_spec rt (str_strip rt (OpenRouter.content response)) remaining_members)
    as Hspec.
  destruct (match_member rt _ remaining_members) as [member |].
  - destruct Hspec as (before & after & Heq & Hmatch & Hbefore).
    split.
    + rewrite Heq. apply elem_of_app. right. apply list_elem_of_here.
    + exists response. split; [done |]. left. by exists before, after.
  - destruct remaining_members as [| first rest]; [done |].
    split; [apply list_elem_of_here |].
    exists response. split; [done |]. by right.
Qed.

Lemma searches_app (l1 l2 : list ModEvent) : searches (l1 ++ l2) = searches l1 ++ searches l2.
Proof. unfold searches. by rewrite map_app, concat_app. Qed.

Lemma yielded_app (l1 l2 : list ModEvent) : yielded (l1 ++ l2) = yielded l1 ++ yielded l2.
Proof. unfold yielded. by rewrite map_app, concat_app. Qed.

Lemma yielded_map_Yield (l : list string) : yielded (map Yield l) = l.
Proof. induction l as [| x l IH]; [done |]. unfold yielded in *. cbn. by rewrite IH. Qed.

Lemma searches_map_Yield (l : list string) : searches (map Yield l) = [].
Proof. induction l as [| x l IH]; [done |]. unfold searches in *. cbn. by rewrite IH. Qed.

Lemma chat_calls_map_Yield (l : list string) : chat_calls (map Yield l) = [].
Proof. induction l as [| x l IH]; [done |]. unfold chat_calls in *. cbn. by rewrite IH. Qed.

(** What the loop over the tool calls does when every request that names
    the search tool decodes: one search per such request, in order, and
    nothing else that is visible. *)
Lemma dispatch_tool_calls_spec (rt : Runtime) (search_service : json → outcome TavilyResponse)
    (on_search : bool) (tcs : list ToolCall) :
  ∀ qs, queries_are rt (web_search_calls tcs) qs →
    let '(evs, r) := dispatch_tool_calls rt search_service on_search tcs in
    searches evs = qs ∧ yielded evs = [] ∧ chat_calls evs = [] ∧
    ∃ search_results,
      r = Returned search_results ∧
      map (fun p => ToolResult (tc_id (fst p)) (snd p)) search_results
      = zip_with (tool_result_turn search_service) (web_search_calls tcs) qs.
Proof.
  induction tcs as [| tc tcs IH]; intros qs Hqs.
  - cbn in *. inversion Hqs; subst. repeat split; try done. by exists [].
  - cbn [dispatch_tool_calls web_search_calls List.filter] in *.
    destruct (decide (tc_name tc = "web_search")) as [Hname | Hname].
    + rewrite (bool_decide_eq_true_2 _ Hname) in Hqs.
      inversion Hqs as [| ? q ? qs' Hq Hrest]; subst. rewrite Hq.
      specialize (IH qs' Hrest).
      destruct (dispatch_tool_calls rt search_service on_search tcs) as [evs r].
      destruct IH as (Hs & Hy & Hc & results & -> & Hmap).
      rewrite (bool_decide_eq_true_2 _ Hname).
      destruct on_search; cbn; unfold searches, yielded, chat_calls in *; cbn;
        rewrite Hs, Hy, Hc; (repeat split; try done);
        eexists; (split; [done |]); cbn; by rewrite Hmap.
    + rewrite (bool_decide_eq_false_2 _ Hname) in *. by apply IH.
Qed.

Lemma dispatch_tool_calls_quiet (rt : Runtime) (search_service : json → outcome TavilyResponse)
    (on_search : bool) (tcs : list ToolCall) :
  yielded (fst (dispatch_tool_calls rt search_service on_search tcs)) = [] ∧
  chat_calls (fst (dispatch_tool_calls rt search_service on_search tcs)) = [].
Proof.
  induction tcs as [| tc tcs IH]; [done |]. cbn [dispatch_tool_calls].
  destruct (decide (tc_name tc = "web_search")); [| done].
  destruct (tool_query rt tc); [| done].
  destruct (dispatch_tool_calls rt search_service on_search tcs) as [evs r].
  cbn [fst] in *. destruct IH as [Hy Hc].
  destruct on_search; unfold yielded, chat_calls in *; cbn; by rewrite ?Hy, ?Hc.
Qed.

Lemma tool_enabled_calls_app (l1 l2 : list ModEvent) :
  tool_enabled_calls (l1 ++ l2) = tool_enabled_calls l1 ++ tool_enabled_calls l2.
Proof. unfold tool_enabled_calls. apply List.filter_app. Qed.

Lemma chat_calls_app (l1 l2 : list ModEvent) :
  chat_calls (l1 ++ l2) = chat_calls l1 ++ chat_calls l2.
Proof. unfold chat_calls. apply List.filter_app. Qed.

Lemma tool_enabled_calls_no_chat (l : list ModEvent) :
  chat_calls l = [] → tool_enabled_calls l = [].
Proof.
  induction l as [| ev l IH]; [done |]. unfold chat_calls, tool_enabled_calls in *.
  destruct ev as [stream tools ms mr | q | q res | s]; cbn; [done | apply IH ..].
Qed.

Lemma tool_enabled_calls_map_Yield (l : list string) : tool_enabled_calls (map Yield l) = [].
Proof. apply tool_enabled_calls_no_chat, chat_calls_map_Yield. Qed.


(** What [_chat_with_optional_search] does once its first call returned. *)
Lemma chat_with_optional_search_spec (rt : Runtime)
    (search_service : json → outcome TavilyResponse)
    (tools_reply : Z → outcome Completion) (follow_up : Z → StreamAttempt)
    (on_search : bool) (messages : list ChatMessage) (max_tokens max_retries : Z)
    (response : Response) :
  snd (_chat_with_retry max_retries tools_reply) = Returned response →
  let r := _chat_with_optional_search rt search_service tools_reply follow_up on_search
             messages max_tokens max_retries in
  let first_call := ChatCall false true messages max_retries in
  head (log r) = Some first_call ∧
  tool_enabled_calls (log r) = [first_call] ∧
  match tool_calls response with
  | Some (tc :: tcs) =>
      ∀ qs, queries_are rt (web_search_calls (tc :: tcs)) qs →
        searches (log r) = qs ∧
        messages_after r
        = messages ++ AssistantToolCalls (OpenRouter.content response) (tc :: tcs)
                      :: zip_with (tool_result_turn search_service)
                           (web_search_calls (tc :: tcs)) qs ∧
        chat_calls (log r) = [first_call; ChatCall true false (messages_after r) max_retries] ∧
        yielded (log r) = fragments (stream_result max_retries follow_up) ∧
        raised r = terminal (stream_result max_retries follow_up)
  | _ =>
      searches (log r) = [] ∧
      messages_after r = messages ∧
      chat_calls (log r) = [first_call] ∧
      yielded (log r) = (if decide (OpenRouter.content response = "") then []
                         else [OpenRouter.content response]) ∧
      raised r = None
  end.
Proof.
  intros Hfirst r first_call. subst r. unfold _chat_with_optional_search. rewrite Hfirst.
  fold first_call.
  assert (Hplain :
    let r := {| log := first_call ::
                       (if decide (OpenRouter.content response = "") then []
                        else [Yield (OpenRouter.content response)]);
                messages_after := messages; raised := None |} in
    head (log r) = Some first_call ∧ tool_enabled_calls (log r) = [first_call] ∧
    searches (log r) = [] ∧ messages_after r = messages ∧ chat_calls (log r) = [first_call] ∧
    yielded (log r) = (if decide (OpenRouter.content response = "") then []
                       else [OpenRouter.content response]) ∧
    raised r = None).
  { cbn. by destruct (decide (OpenRouter.content response = "")). }
  cbn zeta in Hplain. destruct Hplain as (P1 & P2 & P3 & P4 & P5 & P6 & P7).
  destruct (tool_calls response) as [[| tc tcs] |]; [done | | done].
  pose proof (dispatch_tool_calls_quiet rt search_service on_search (tc :: tcs)) as [Hy Hc].
  pose proof (dispatch_tool_calls_spec rt search_service on_search (tc :: tcs)) as Hspec.
  destruct (dispatch_tool_calls rt search_service on_search (tc :: tcs)) as [evs res].
  cbn [fst] in Hy, Hc.
  assert (Hte : tool_enabled_calls evs = []) by by apply tool_enabled_calls_no_chat.
  split; [by destruct res |]. split.
  { destruct res; cbn [log]; change (first_call :: ?l) with ([first_call] ++ l);
      rewrite ?tool_enabled_calls_app, ?Hte; [| done].
    change (ChatCall true false ?m max_retries :: ?l)
      with ([ChatCall true false m max_retries] ++ l).
    by rewrite tool_enabled_calls_app, tool_enabled_calls_map_Yield. }
  intros qs Hqs. destruct (Hspec qs Hqs) as (Hs & _ & _ & results & -> & Hmap).
  cbn [log messages_after raised].
  change (first_call :: evs ++ ?c :: ?l) with ([first_call] ++ evs ++ [c] ++ l).
  rewrite !searches_app, !chat_calls_app, !yielded_app, Hs, Hy, Hc, Hmap.
  rewrite searches_map_Yield, chat_calls_map_Yield, yielded_map_Yield.
  rewrite <- app_assoc. cbn. by rewrite app_nil_r.
Qed.

Lemma append_nonempty (s t : string) : s ≠ "" → s +:+ t ≠ "".
Proof. destruct s as [| c s]; [done |]. intros _. by change (String c (s +:+ t) ≠ ""). Qed.

Lemma join_nonempty (sep x : string) (xs : list string) :
  x ≠ "" → String.concat sep (x :: xs) ≠ "".
Proof.
  intros Hx. destruct xs as [| y xs]; [done |].
  cbn [String.concat]. by apply append_nonempty.
Qed.

(** X5: [format_sources] returns the empty string exactly when the search
    failed or found nothing; otherwise it returns the links of the results
    in order, one per line. *)
Theorem format_sources_empty_iff (search_results : SearchResults) :
  (format_sources search_results = ""
   ↔ error search_results ≠ None ∨ results search_results = []) ∧
  format_sources search_results
  = match error search_results with
    | Some _ => ""
    | None =>
        String.concat nl
          (map (fun result => "- [" +:+ title result +:+ "](" +:+ url result +:+ ")")
               (results search_results))
    end.
Proof.
  unfold format_sources.
  destruct (error search_results) as [err |]; [split; [split; [by left | done] | done] |].
  destruct (results search_results) as [| result rest].
  - split; [split; [by right | done] | done].
  - split; [| done]. split.
    + intros Hempty. exfalso. revert Hempty. cbn [map]. by apply join_nonempty.
    + intros [? | ?]; done.
Qed.

Lemma drop_app_length_ge {A : Type} (older recent : list A) (n : nat) :
  (n ≤ length recent)%nat →
  drop (length (older ++ recent) - n) (older ++ recent) = drop (length recent - n) recent.
Proof.
  intros Hn. rewrite length_app.
  replace (length older + length recent - n)%nat
    with (length older + (length recent - n))%nat by lia.
  apply drop_app_add.
Qed.

(** X6: [_summarize_history] reads the last five entries only: what came before
    them does not change its result; and its result is never empty. *)
Theorem summarize_history_reads_last_five (older recent : list Message) :
  (5 ≤ length recent)%nat →
  _summarize_history (older ++ recent) = _summarize_history recent ∧
  _summarize_history recent ≠ "".
Proof.
  intros Hlen. split.
  - unfold _summarize_history, last_five.
    rewrite drop_app_length_ge by done.
    destruct recent as [| m recent]; [cbn in Hlen; lia |].
    destruct older as [| o older]; [done |]. done.
  - unfold _summarize_history.
    destruct recent as [| m recent]; [done |].
    destruct (concat _) as [| line lines] eqn:Hlines; [done |].
    apply join_nonempty.
    assert (Hall : Forall (fun l => l ≠ "")
                     (concat (map (fun msg =>
                        if decide (speaker_name msg = "") then []
                        else
                          ["- " +:+ speaker_name msg +:+ ": " +:+
                           (if 100 <? py_len (Models.content msg)
                            then py_take 100 (Models.content msg) +:+ "..."
                            else Models.content msg)])
                        (last_five (m :: recent))))).
    { apply Forall_concat, Forall_map, Forall_true. intros msg.
      destruct (decide (speaker_name msg = "")); [by apply Forall_nil |].
      by apply Forall_singleton. }
    rewrite Hlines in Hall. by apply Forall_cons in Hall as [? _].
Qed.

Lemma summarize_history_reads_last_five_witness :
  let say (who what : string) : Message :=
    {| role := MEMBER; Models.content := what; speaker_name := who; model_id := "";
       message_type := SPEECH; sources := []; hat_color := ""; hat_name := "" |} in
  let recent := [say "Alice" "a"; say "Bob" "b"; say "" "c"; say "Alice" "d"; say "Bob" "e"] in
  (5 ≤ length recent)%nat ∧
  _summarize_history ([say "Carol" "old"] ++ recent) = _summarize_history recent.
Proof.
  intros say recent.
  assert (H0 : (5 ≤ length recent)%nat) by (cbn; lia).
  split; [exact H0 |].
  exact (proj1 (summarize_history_reads_last_five [say "Carol" "old"] recent H0)).
Defined.

Lemma concat_map_filter {A B : Type} (f : A → list B) (p : A → bool) (l : list A) :
  (∀ x, p x = false → f x = []) →
  concat (map f (List.filter p l)) = concat (map f l).
Proof.
  intros Hf. induction l as [| x l IH]; [done |].
  cbn [List.filter map concat]. destruct (p x) eqn:Hp.
  - cbn [map concat]. by rewrite IH.
  - by rewrite (Hf x Hp), IH.
Qed.

(** X7: The two formatters agree on what a speech looks like: the history of a
    round is the full history restricted to its speeches; and the full
    history shows openings, speeches and after-speech summaries only, so
    that a final summary or a search result already recorded leaves it
    unchanged. *)
Theorem format_history_by_type (history : list Message) :
  _format_round_history history = _format_full_history (List.filter is_speech history) ∧
  _format_full_history history = _format_full_history (List.filter is_discussion history).
Proof.
  split.
  - unfold _format_round_history, _format_full_history. f_equal.
    rewrite <- (concat_map_filter _ is_speech history).
    + f_equal. apply map_ext_in. intros msg Hin. apply filter_In in Hin as [_ Hs].
      apply bool_decide_eq_true in Hs. by rewrite Hs.
    + intros msg Hs. apply bool_decide_eq_false in Hs. by destruct (message_type msg).
  - unfold _format_full_history. f_equal. symmetry. apply concat_map_filter.
    intros msg Hd. unfold is_discussion in Hd. by destruct (message_type msg).
Qed.

Lemma search_events_app (l1 l2 : list ModEvent) :
  search_events (l1 ++ l2) = search_events l1 ++ search_events l2.
Proof. unfold search_events. apply List.filter_app. Qed.

Lemma search_events_map_Yield (l : list string) : search_events (map Yield l) = [].
Proof. induction l as [| x l IH]; [done |]. unfold search_events in *. cbn. by rewrite IH. Qed.

Lemma dispatch_tool_calls_rounds (rt : Runtime) (search_service : json → outcome TavilyResponse)
    (on_search : bool) (tcs : list ToolCall) :
  let evs := fst (dispatch_tool_calls rt search_service on_search tcs) in
  search_events evs = evs ∧
  evs = concat (map (search_round search_service on_search) (searches evs)).
Proof.
  induction tcs as [| tc tcs IH]; [done |]. cbn [dispatch_tool_calls].
  destruct (decide (tc_name tc = "web_search")) as [Hname | Hname]; [| done].
  destruct (tool_query rt tc) as [query | e]; [| done].
  destruct (dispatch_tool_calls rt search_service on_search tcs) as [evs r].
  cbn [fst] in *. cbn zeta in IH. destruct IH as [IH1 IH2].
  assert (Hs : searches (search_round search_service on_search query ++ evs)
               = query :: searches evs).
  { unfold search_round. by destruct on_search. }
  assert (Hf : search_events (search_round search_service on_search query ++ evs)
               = search_round search_service on_search query ++ search_events evs).
  { unfold search_round. by destruct on_search. }
  change (SearchCall query :: (if on_search then [OnSearch query (search search_service query)]
                               else []) ++ evs)
    with (search_round search_service on_search query ++ evs).
  rewrite Hs, Hf. cbn [map concat]. split; [by rewrite IH1 | by rewrite <- IH2].
Qed.

(** X8: Every search of the final summary is followed at once by the call of
    the [on_search] callback, when one was passed, with the query and the
    result of that very search; without a callback nothing is called.  This
    holds however the call ends. *)
Theorem on_search_follows_every_search (rt : Runtime)
    (search_service : json → outcome TavilyResponse)
    (tools_reply : Z → outcome Completion) (follow_up : Z → StreamAttempt)
    (on_search : bool) (messages : list ChatMessage) (max_tokens max_retries : Z) :
  let r := _chat_with_optional_search rt search_service tools_reply follow_up on_search
             messages max_tokens max_retries in
  search_events (log r)
  = concat (map (search_round search_service on_search) (searches (log r))).
Proof.
  cbn zeta. unfold _chat_with_optional_search.
  destruct (snd (_chat_with_retry max_retries tools_reply)) as [response | e]; [| done].
  destruct (tool_calls response) as [[| tc tcs] |].
  - by destruct (decide (OpenRouter.content response = "")).
  - pose proof (dispatch_tool_calls_rounds rt search_service on_search (tc :: tcs)) as Hd.
    destruct (dispatch_tool_calls rt search_service on_search (tc :: tcs)) as [evs res].
    cbn [fst] in Hd. cbn zeta in Hd. destruct Hd as [Hd1 Hd2].
    destruct res as [search_results | e]; cbn [log].
    + change (ChatCall false true messages max_retries :: evs ++ ?c :: ?l)
        with ([ChatCall false true messages max_retries] ++ evs ++ [c] ++ l).
      rewrite !search_events_app, !searches_app, search_events_map_Yield, searches_map_Yield.
      cbn [search_events searches List.filter map concat app]. rewrite !app_nil_r.
      by rewrite Hd1.
    + change (ChatCall false true messages max_retries :: evs)
        with ([ChatCall false true messages max_retries] ++ evs).
      rewrite search_events_app, searches_app.
      cbn [search_events searches List.filter map concat app]. by rewrite Hd1.
  - by destruct (decide (OpenRouter.content response = "")).
Qed.

Lemma zip_with_failed_search (search_service : json → outcome TavilyResponse) (e : exn)
    (tcs : list ToolCall) (qs : list json) (P : ToolCall → json → Prop) :
  (∀ q, search_service q = Raised e) →
  Forall2 P tcs qs →
  zip_with (tool_result_turn search_service) tcs qs
  = map (fun tc => ToolResult (tc_id tc) ("搜尋失敗: " +:+ exn_str e)) tcs.
Proof.
  intros Hfail. induction 1 as [| tc q tcs qs _ _ IH]; [done |].
  cbn [zip_with map]. rewrite IH. f_equal.
  unfold tool_result_turn, search, format_results_for_ai. by rewrite Hfail.
Qed.

(** X9: A search that fails does not end the final summary: when the search
    service raises (no API key, no network), [search] hands the error back
    as data, [format_results_for_ai] turns it into a line of text, and that
    line is the tool result the follow-up call receives for each request;
    the call then ends as its follow-up stream ends. *)
Theorem failed_search_does_not_end_summary (rt : Runtime)
    (search_service : json → outcome TavilyResponse)
    (tools_reply : Z → outcome Completion) (follow_up : Z → StreamAttempt)
    (on_search : bool) (messages : list ChatMessage) (max_tokens max_retries : Z)
    (response : Response) (tc : ToolCall) (tcs : list ToolCall) (qs : list json) (e : exn) :
  snd (_chat_with_retry max_retries tools_reply) = Returned response →
  tool_calls response = Some (tc :: tcs) →
  queries_are rt (web_search_calls (tc :: tcs)) qs →
  (∀ q, search_service q = Raised e) →
  let r := _chat_with_optional_search rt search_service tools_reply follow_up on_search
             messages max_tokens max_retries in
  (∀ q, search search_service q
        = {| error := Some (exn_str e); answer := ""; results := [] |}) ∧
  searches (log r) = qs ∧
  messages_after r
  = messages ++ AssistantToolCalls (OpenRouter.content response) (tc :: tcs)
                :: map (fun tc => ToolResult (tc_id tc) ("搜尋失敗: " +:+ exn_str e))
                     (web_search_calls (tc :: tcs)) ∧
  yielded (log r) = fragments (stream_result max_retries follow_up) ∧
  raised r = terminal (stream_result max_retries follow_up).
Proof.
  intros Hfirst Htools Hqs Hfail r. subst r.
  pose proof (chat_with_optional_search_spec rt search_service tools_reply follow_up on_search
                messages max_tokens max_retries response Hfirst) as (_ & _ & Hspec).
  cbn zeta in Hspec. rewrite Htools in Hspec.
  destruct (Hspec qs Hqs) as (Hs & Hm & _ & Hy & Hr).
  split; [intros q; unfold search; by rewrite Hfail |].
  split; [done |]. split; [| done].
  rewrite Hm. by rewrite (zip_with_failed_search search_service e _ qs _ Hfail Hqs).
Qed.

Lemma failed_search_does_not_end_summary_witness :
  let no_key (q : json) : outcome TavilyResponse :=
    Raised (PyException "ValueError" "TAVILY_API_KEY 未設定") in
  let r := _chat_with_optional_search Scenario.json_runtime no_key
             (Scenario.tool_reply [Scenario.search_call]) (Scenario.says ["Done."]) false
             [] 1000 5 in
  messages_after r
  = [AssistantToolCalls "" [Scenario.search_call];
     ToolResult "call_1" "搜尋失敗: TAVILY_API_KEY 未設定"] ∧
  yielded (log r) = ["Done."] ∧
  raised r = None.
Proof.
  intros no_key r.
  destruct (failed_search_does_not_end_summary Scenario.json_runtime no_key
              (Scenario.tool_reply [Scenario.search_call]) (Scenario.says ["Done."]) false
              [] 1000 5
              {| OpenRouter.content := ""; tool_calls := Some [Scenario.search_call];
                 finish_reason := Some "tool_calls" |}
              Scenario.search_call [] [JStr "library sunday hours"]
              (PyException "ValueError" "TAVILY_API_KEY 未設定"))
    as (_ & _ & Hm & Hy & Hr).
  - reflexivity.
  - reflexivity.
  - repeat constructor.
  - intros q. reflexivity.
  - split; [exact Hm |]. split; [exact Hy | exact Hr].
Defined.

End moderator_facts.

(** ** The session *)

Section text_facts.

Import Session.

Lemma string_app_assoc (a b c : string) : (a +:+ b) +:+ c = a +:+ (b +:+ c).
Proof.
  induction a as [| x a IH]; [done |].
  change (String x ((a +:+ b) +:+ c) = String x (a +:+ (b +:+ c))). by rewrite IH.
Qed.

Lemma string_app_nil_r (a : string) : a +:+ "" = a.
Proof.
  induction a as [| x a IH]; [done |]. change (String x (a +:+ "") = String x a). by rewrite IH.
Qed.

Lemma string_app_cons (x : Ascii.ascii) (a b : string) : String x a +:+ b = String x (a +:+ b).
Proof. done. Qed.

Lemma string_app_snoc (a b : string) (c : Ascii.ascii) :
  (a +:+ String c "") +:+ b = a +:+ String c b.
Proof. by rewrite string_app_assoc. Qed.

Lemma part_of_refl (a : string) : part_of a a.
Proof. exists "", "". by rewrite string_app_nil_r. Qed.

Lemma part_of_trans (a b c : string) : part_of a b → part_of b c → part_of a c.
Proof.
  intros (a1 & a2 & ->) (b1 & b2 & ->). exists (b1 +:+ a1), (a2 +:+ b2).
  by rewrite !string_app_assoc.
Qed.

Lemma part_of_prefix (a b : string) : part_of a (a +:+ b).
Proof. by exists "", b. Qed.

Lemma part_of_suffix (a b : string) : part_of b (a +:+ b).
Proof. exists a, "". by rewrite string_app_nil_r. Qed.

Lemma prefix_true (m s : string) : String.prefix m s = true ↔ ∃ t, s = m +:+ t.
Proof.
  revert s. induction m as [| x m IH]; intros s.
  - split; [intros _; by exists s | by destruct s].
  - destruct s as [| y s]; cbn [String.prefix].
    + split; [done | by intros [t Ht]].
    + destruct (Ascii.ascii_dec x y) as [-> | Hne].
      * rewrite IH. split; intros [t Ht]; exists t.
        -- by rewrite Ht.
        -- rewrite string_app_cons in Ht. by injection Ht.
      * split; [done |]. intros [t Ht]. rewrite string_app_cons in Ht. by injection Ht.
Qed.

Lemma is_substring_part_of (m s : string) : is_substring m s = true ↔ part_of m s.
Proof.
  induction s as [| y s IH].
  - cbn [is_substring]. rewrite orb_false_r, prefix_true. split.
    + intros [t Ht]. exists "", t. done.
    + intros (a & b & Hab). destruct a as [| x a]; [by exists b |].
      by rewrite string_app_cons in Hab.
  - cbn [is_substring]. rewrite orb_true_iff, IH, prefix_true. split.
    + intros [[t Ht] | (a & b & Hab)].
      * exists "", t. done.
      * exists (String y a), b. by rewrite Hab.
    + intros (a & b & Hab). destruct a as [| x a].
      * left. by exists b.
      * right. rewrite string_app_cons in Hab. injection Hab as _ Hab. by exists a, b.
Qed.

Lemma is_substring_within (m a b : string) :
  part_of a b → is_substring m b = false → is_substring m a = false.
Proof.
  intros Hab Hb. destruct (is_substring m a) eqn:Ha; [| done].
  apply is_substring_part_of in Ha.
  pose proof (proj2 (is_substring_part_of m b) (part_of_trans _ _ _ Ha Hab)). congruence.
Qed.

Lemma ends_with_true (m s : string) : ends_with m s = true ↔ ∃ a, s = a +:+ m.
Proof.
  induction s as [| y s IH].
  - cbn [ends_with]. rewrite orb_false_r, String.eqb_eq. split.
    + intros <-. by exists "".
    + intros [a Ha]. destruct a as [| x a]; [done | by rewrite string_app_cons in Ha].
  - cbn [ends_with]. rewrite orb_true_iff, String.eqb_eq, IH. split.
    + intros [<- | [a ->]]; [by exists "" | by exists (String y a)].
    + intros [a Ha]. destruct a as [| x a].
      * by left.
      * right. rewrite string_app_cons in Ha. injection Ha as _ Ha. by exists a.
Qed.

Lemma ends_with_part_of (m s : string) : ends_with m s = true → part_of m s.
Proof. intros [a ->]%ends_with_true. apply part_of_suffix. Qed.

Lemma ends_with_refl (m : string) : ends_with m m = true.
Proof. apply ends_with_true. by exists "". Qed.

Lemma ends_with_app (m a s : string) : ends_with m s = true → ends_with m (a +:+ s) = true.
Proof.
  intros [b ->]%ends_with_true. apply ends_with_true. exists (a +:+ b).
  by rewrite string_app_assoc.
Qed.

(** A byte that opens no copy of [m] can be dropped in front. *)
Lemma ends_with_cons_other (m s : string) (c : Ascii.ascii) :
  (∀ m', m ≠ String c m') → ends_with m (String c s) = ends_with m s.
Proof.
  intros Hc. cbn [ends_with].
  destruct (String.eqb_spec (String c s) m) as [<- | _]; [by destruct (Hc s) | done].
Qed.

Lemma prefix_snoc (m : string) : ∀ (s : string) (c : Ascii.ascii),
  m ≠ "" →
  String.prefix m (s +:+ String c "") = String.prefix m s || String.eqb (s +:+ String c "") m.
Proof.
  induction m as [| x m IH]; intros s c Hm; [done |].
  destruct s as [| y s].
  - cbn [String.prefix String.eqb]. change ("" +:+ String c "") with (String c "").
    cbn [String.prefix String.eqb]. destruct (Ascii.ascii_dec x c) as [-> | Hne].
    + rewrite Ascii.eqb_refl. by destruct m.
    + by rewrite (proj2 (Ascii.eqb_neq c x)).
  - rewrite string_app_cons. cbn [String.prefix String.eqb].
    destruct (Ascii.ascii_dec x y) as [-> | Hne].
    + rewrite Ascii.eqb_refl. destruct (decide (m = "")) as [-> | Hm'].
      * by destruct s.
      * by apply IH.
    + by rewrite (proj2 (Ascii.eqb_neq y x)).
Qed.

(** A copy of [m] in a text that grew by one byte was there before, or ends
    the text. *)
Lemma is_substring_snoc (m s : string) (c : Ascii.ascii) :
  m ≠ "" →
  is_substring m (s +:+ String c "")
  = is_substring m s || ends_with m (s +:+ String c "").
Proof.
  intros Hm. induction s as [| y s IH].
  - change ("" +:+ String c "") with (String c "").
    cbn [is_substring ends_with String.prefix].
    destruct m as [| x m]; [done |]. cbn [String.prefix String.eqb].
    destruct (Ascii.ascii_dec x c) as [-> | Hne].
    + rewrite Ascii.eqb_refl. by destruct m.
    + by rewrite (proj2 (Ascii.eqb_neq c x)).
  - rewrite string_app_cons. cbn [is_substring ends_with]. rewrite IH.
    rewrite <- string_app_cons, prefix_snoc by done. rewrite string_app_cons.
    destruct (String.prefix m (String y s)), (String.eqb (String y (s +:+ String c "")) m),
      (is_substring m s), (ends_with m (s +:+ String c "")); done.
Qed.

(** *** Stripping *)

Lemma py_lstrip_ind (P : string → Prop) :
  (∀ s, py_lstrip s = s → P s) →
  (∀ c1 s1, is_space1 c1 = true → P s1 → P (String c1 s1)) →
  (∀ c1 c2 s2, is_space1 c1 = false → is_space2 c1 c2 = true → P s2 →
     P (String c1 (String c2 s2))) →
  (∀ c1 c2 c3 s3, is_space1 c1 = false → is_space2 c1 c2 = false →
     is_space3 c1 c2 c3 = true → P s3 → P (String c1 (String c2 (String c3 s3)))) →
  ∀ s, P s.
Proof.
  intros H0 H1 H2 H3 s.
  assert (Hall : ∀ (n : nat) s, (String.length s ≤ n)%nat → P s); [| by apply (Hall (String.length s) s)].
  clear s. induction n as [| n IH]; intros s Hn.
  - destruct s; [by apply H0 | cbn in Hn; lia].
  - destruct s as [| c1 s1]; [by apply H0 |]. cbn [String.length] in Hn.
    destruct (is_space1 c1) eqn:E1; [apply H1; [done | apply IH; lia] |].
    destruct s1 as [| c2 s2]; [apply H0; cbn [py_lstrip]; by rewrite E1 |].
    cbn [String.length] in Hn.
    destruct (is_space2 c1 c2) eqn:E2; [apply H2; [done | done | apply IH; lia] |].
    destruct s2 as [| c3 s3]; [apply H0; cbn [py_lstrip]; by rewrite E1, E2 |].
    cbn [String.length] in Hn.
    destruct (is_space3 c1 c2 c3) eqn:E3; [apply H3; [done | done | done | apply IH; lia] |].
    apply H0. cbn [py_lstrip]. by rewrite E1, E2, E3.
Qed.

Lemma py_lstrip_space1 (c1 : Ascii.ascii) (s1 : string) :
  is_space1 c1 = true → py_lstrip (String c1 s1) = py_lstrip s1.
Proof. intros E1. cbn [py_lstrip]. by rewrite E1. Qed.

Lemma py_lstrip_space2 (c1 c2 : Ascii.ascii) (s2 : string) :
  is_space1 c1 = false → is_space2 c1 c2 = true →
  py_lstrip (String c1 (String c2 s2)) = py_lstrip s2.
Proof. intros E1 E2. cbn [py_lstrip]. by rewrite E1, E2. Qed.

Lemma py_lstrip_space3 (c1 c2 c3 : Ascii.ascii) (s3 : string) :
  is_space1 c1 = false → is_space2 c1 c2 = false → is_space3 c1 c2 c3 = true →
  py_lstrip (String c1 (String c2 (String c3 s3))) = py_lstrip s3.
Proof. intros E1 E2 E3. cbn [py_lstrip]. by rewrite E1, E2, E3. Qed.

Lemma py_lstrip_suffix (s : string) : ∃ a, s = a +:+ py_lstrip s.
Proof.
  induction s as [s Hs | c1 s1 E1 [a IH] | c1 c2 s2 E1 E2 [a IH] | c1 c2 c3 s3 E1 E2 E3 [a IH]]
    using py_lstrip_ind.
  - exists "". by rewrite Hs.
  - rewrite py_lstrip_space1 by done. exists (String c1 a). by rewrite string_app_cons, <- IH.
  - rewrite py_lstrip_space2 by done. exists (String c1 (String c2 a)).
    by rewrite !string_app_cons, <- IH.
  - rewrite py_lstrip_space3 by done. exists (String c1 (String c2 (String c3 a))).
    by rewrite !string_app_cons, <- IH.
Qed.

Lemma py_rstrip_prefix (s : string) : ∃ b, s = py_rstrip s +:+ b.
Proof.
  induction s as [| c s [b IH]]; [by exists "" |]. cbn [py_rstrip].
  destruct (decide (py_lstrip (String c s) = "")); [by exists (String c s) |].
  exists b. by rewrite string_app_cons, <- IH.
Qed.

Lemma py_strip_part_of (s : string) : part_of (py_strip s) s.
Proof.
  unfold py_strip. destruct (py_lstrip_suffix s) as [a Ha].
  destruct (py_rstrip_prefix (py_lstrip s)) as [b Hb].
  exists a, b. by rewrite <- Hb.
Qed.

Lemma mark_opens (m m' : string) (c : Ascii.ascii) :
  mark m → opens_mark c = false → m ≠ String c m'.
Proof. intros [-> | ->] Hc Hm; injection Hm as <- _; done. Qed.

Lemma mark_nonempty (m : string) : mark m → m ≠ "".
Proof. by intros [-> | ->]. Qed.

Lemma ends_with_nil (m : string) : mark m → ends_with m "" = false.
Proof. by intros [-> | ->]. Qed.

Ltac byte_facts :=
  repeat match goal with
    | H : (_ && _)%bool = true |- _ => apply andb_true_iff in H as [? ?]
    | H : (_ || _)%bool = true |- _ => apply orb_true_iff in H as [? | ?]
    | H : (_ =? _)%nat = true |- _ => apply Nat.eqb_eq in H
    | H : (_ <=? _)%nat = true |- _ => apply Nat.leb_le in H
    end.

Lemma is_space1_opens (c1 : Ascii.ascii) : is_space1 c1 = true → opens_mark c1 = false.
Proof.
  unfold is_space1, opens_mark. intros H. byte_facts;
    apply orb_false_iff; split; apply Nat.eqb_neq; lia.
Qed.

Lemma is_space2_opens (c1 c2 : Ascii.ascii) :
  is_space2 c1 c2 = true → opens_mark c1 = false ∧ opens_mark c2 = false.
Proof.
  unfold is_space2, opens_mark. intros H. byte_facts;
    (split; apply orb_false_iff; split; apply Nat.eqb_neq; lia).
Qed.

Lemma is_space3_opens (c1 c2 c3 : Ascii.ascii) :
  is_space3 c1 c2 c3 = true →
  opens_mark c1 = false ∧ opens_mark c2 = false ∧ opens_mark c3 = false.
Proof.
  unfold is_space3, opens_mark. intros H. byte_facts;
    (repeat split; apply orb_false_iff; split; apply Nat.eqb_neq; lia).
Qed.

Lemma ends_with_drop (m s : string) (c : Ascii.ascii) :
  mark m → opens_mark c = false → ends_with m (String c s) = ends_with m s.
Proof. intros Hm Hc. apply ends_with_cons_other. intros m'. by apply mark_opens. Qed.

(** Stripping leaves a final question mark in place. *)
Lemma py_lstrip_keeps_mark (m s : string) :
  mark m → ends_with m s = true → ends_with m (py_lstrip s) = true.
Proof.
  intros Hm.
  induction s as [s Hs | c1 s1 E1 IH | c1 c2 s2 E1 E2 IH | c1 c2 c3 s3 E1 E2 E3 IH]
    using py_lstrip_ind; intros He.
  - by rewrite Hs.
  - rewrite py_lstrip_space1 by done. apply IH.
    by rewrite ends_with_drop in He by auto using is_space1_opens.
  - rewrite py_lstrip_space2 by done. apply IH.
    destruct (is_space2_opens _ _ E2) as [O1 O2].
    by rewrite !ends_with_drop in He by done.
  - rewrite py_lstrip_space3 by done. apply IH.
    destruct (is_space3_opens _ _ _ E3) as (O1 & O2 & O3).
    by rewrite !ends_with_drop in He by done.
Qed.

Lemma py_rstrip_mark (m : string) : mark m → py_rstrip m = m.
Proof. by intros [-> | ->]. Qed.

Lemma py_rstrip_keeps_mark (m s : string) :
  mark m → ends_with m s = true → ends_with m (py_rstrip s) = true.
Proof.
  intros Hm. induction s as [| c s IH]; intros He.
  - by rewrite ends_with_nil in He.
  - cbn [py_rstrip]. destruct (decide (py_lstrip (String c s) = "")) as [Hempty | _].
    + apply (py_lstrip_keeps_mark m) in He; [| done].
      by rewrite Hempty, ends_with_nil in He.
    + cbn [ends_with] in He. apply orb_true_iff in He as [He | He].
      * apply String.eqb_eq in He. pose proof (py_rstrip_mark m Hm) as Hr.
        rewrite <- He in Hr at 1. cbn [py_rstrip] in Hr.
        destruct (decide (py_lstrip (String c s) = "")) as [_ | _]; [by subst |].
        rewrite Hr. apply ends_with_refl.
      * change (String c (py_rstrip s)) with (String c "" +:+ py_rstrip s).
        apply ends_with_app. by apply IH.
Qed.

Lemma py_strip_keeps_mark (m s : string) :
  mark m → ends_with m s = true → ends_with m (py_strip s) = true.
Proof. intros Hm He. by apply py_rstrip_keeps_mark, py_lstrip_keeps_mark. Qed.

Lemma ends_with_question_mark_iff (s : string) :
  ends_with_question_mark s = true ↔ ∃ m, mark m ∧ ends_with m s = true.
Proof.
  unfold ends_with_question_mark, mark. rewrite orb_true_iff. split.
  - intros [H | H]; eauto.
  - intros (m & [-> | ->] & H); auto.
Qed.

Lemma py_strip_keeps_question_mark (s : string) :
  ends_with_question_mark s = true → ends_with_question_mark (py_strip s) = true.
Proof.
  rewrite !ends_with_question_mark_iff. intros (m & Hm & He). exists m.
  split; [done | by apply py_strip_keeps_mark].
Qed.

Lemma ends_with_has_question_mark (s : string) :
  ends_with_question_mark s = true → has_question_mark s = true.
Proof.
  unfold ends_with_question_mark, has_question_mark. rewrite !orb_true_iff.
  intros [H | H]; [left | right]; by apply is_substring_part_of, ends_with_part_of.
Qed.

Lemma has_question_mark_within (a b : string) :
  part_of a b → has_question_mark b = false → has_question_mark a = false.
Proof.
  unfold has_question_mark. rewrite !orb_false_iff. intros Hab [H1 H2].
  split; by eapply is_substring_within.
Qed.

Lemma has_question_mark_snoc (s : string) (c : Ascii.ascii) :
  has_question_mark (s +:+ String c "")
  = has_question_mark s || ends_with_question_mark (s +:+ String c "").
Proof.
  unfold has_question_mark, ends_with_question_mark. rewrite !is_substring_snoc by done.
  destruct (is_substring "?" s), (is_substring "？" s),
    (ends_with "?" (s +:+ String c "")), (ends_with "？" (s +:+ String c "")); done.
Qed.

Lemma is_question_true (s : string) : ends_with_question_mark s = true → is_question s = true.
Proof.
  intros He. apply py_strip_keeps_question_mark in He. unfold is_question.
  apply andb_true_iff. split; [| done]. apply bool_decide_eq_true_2. intros Hempty.
  by rewrite Hempty in He.
Qed.

Lemma is_question_false (s : string) : has_question_mark s = false → is_question s = false.
Proof.
  intros Hn. unfold is_question. apply andb_false_iff. right.
  destruct (ends_with_question_mark (py_strip s)) eqn:He; [| done].
  apply ends_with_has_question_mark in He.
  by rewrite (has_question_mark_within _ _ (py_strip_part_of s) Hn) in He.
Qed.

(** *** The sentences *)

(** What [re.split] gives: pieces that each end with their only question
    mark, then a rest that holds none; put together again they are the
    text. *)
Lemma split_after_question_marks_spec (rest : string) : ∀ piece : string,
  has_question_mark piece = false →
  ∃ questions tail,
    split_after_question_marks piece rest = questions ++ [tail] ∧
    Forall (fun p => ends_with_question_mark p = true ∧ single_mark p) questions ∧
    has_question_mark tail = false ∧
    piece +:+ rest = fold_right String.append tail questions.
Proof.
  induction rest as [| c rest IH]; intros piece Hpiece.
  - exists [], piece. cbn [split_after_question_marks app fold_right].
    rewrite string_app_nil_r. by repeat split.
  - cbn [split_after_question_marks].
    destruct (ends_with_question_mark (piece +:+ String c "")) eqn:He.
    + destruct (IH "" eq_refl) as (qs & tail & Heq & Hqs & Htail & Hall).
      exists ((piece +:+ String c "") :: qs), tail. rewrite Heq. split; [done |].
      split; [| split; [done |]].
      * apply Forall_cons. split; [| done]. split; [done |]. by exists piece, c.
      * cbn [fold_right]. rewrite <- Hall. change ("" +:+ rest) with rest.
        by rewrite string_app_snoc.
    + destruct (IH (piece +:+ String c "")) as (qs & tail & Heq & Hqs & Htail & Hall).
      { by rewrite has_question_mark_snoc, Hpiece, He. }
      rewrite string_app_snoc in Hall. by exists qs, tail.
Qed.

Lemma fold_right_append_snoc (qs : list string) (q tail : string) :
  fold_right String.append tail (qs ++ [q])
  = fold_right String.append "" qs +:+ (q +:+ tail).
Proof.
  induction qs as [| p qs IH]; [done |]. cbn [app fold_right].
  by rewrite IH, string_app_assoc.
Qed.

Lemma string_snoc_cases (b : string) : b = "" ∨ ∃ b' c, b = b' +:+ String c "".
Proof.
  induction b as [| x b IH]; [by left |]. right.
  destruct IH as [-> | (b' & c & ->)]; [by exists "", x | by exists (String x b'), c].
Qed.

Lemma string_snoc_inj (a : string) : ∀ (a' : string) (c c' : Ascii.ascii),
  a +:+ String c "" = a' +:+ String c' "" → a = a' ∧ c = c'.
Proof.
  induction a as [| x a IH]; intros a' c c' Heq.
  - destruct a' as [| x' a']; [by injection Heq |].
    rewrite string_app_cons in Heq. change ("" +:+ ?s) with s in Heq.
    injection Heq as _ Heq. by destruct a'.
  - destruct a' as [| x' a'].
    + change ("" +:+ ?s) with s in Heq. rewrite string_app_cons in Heq.
      injection Heq as _ Heq. by destruct a.
    + rewrite !string_app_cons in Heq. injection Heq as -> Heq.
      by destruct (IH _ _ _ Heq) as [-> ->].
Qed.

(** Nothing follows a question mark in a piece that holds one only. *)
Lemma single_mark_ends (p a x b : string) :
  single_mark p → p = a +:+ x +:+ b → ends_with_question_mark x = true → b = "".
Proof.
  intros (body & c & -> & Hbody) Heq Hx.
  destruct (string_snoc_cases b) as [-> | (b' & c' & ->)]; [done |].
  rewrite <- !string_app_assoc in Heq. apply string_snoc_inj in Heq as [-> _].
  apply ends_with_has_question_mark in Hx.
  rewrite (has_question_mark_within x ((a +:+ x) +:+ b')) in Hx; [done | | exact Hbody].
  exists a, b'. by rewrite string_app_assoc.
Qed.

Lemma filter_questions (questions : list string) (tail : string) :
  Forall (fun p => ends_with_question_mark p = true) questions →
  has_question_mark tail = false →
  List.filter is_question (questions ++ [tail]) = questions.
Proof.
  intros Hqs Htail. rewrite List.filter_app. cbn [List.filter].
  rewrite is_question_false, app_nil_r by done.
  induction Hqs as [| p qs Hp _ IH]; [done |]. cbn [List.filter].
  by rewrite is_question_true, IH.
Qed.

(** *** The last line *)

Lemma split_from_nonempty (sep : Ascii.ascii) (rest : string) : ∀ line,
  split_from sep line rest ≠ [].
Proof.
  induction rest as [| c rest IH]; intros line; cbn [split_from]; [done |].
  destruct (Ascii.eqb c sep); [done | apply IH].
Qed.

Lemma last_cons_nonempty {A : Type} (x : A) (l : list A) : l ≠ [] → last (x :: l) = last l.
Proof. by destruct l. Qed.

Lemma newline_opens : opens_mark (Ascii.ascii_of_nat 10) = false.
Proof. done. Qed.

(** A question mark that ends a text ends what follows a line break in it. *)
Lemma ends_with_after (m a b : string) (c : Ascii.ascii) :
  mark m → ends_with m (a +:+ String c b) = true →
  c = Ascii.ascii_of_nat 10 → ends_with m b = true.
Proof.
  intros Hm He ->. induction a as [| x a IH].
  - change ("" +:+ ?s) with s in He. by rewrite ends_with_drop in He.
  - rewrite string_app_cons in He. cbn [ends_with] in He.
    apply orb_true_iff in He as [He | He]; [| by apply IH].
    apply String.eqb_eq in He. destruct Hm as [-> | ->].
    + injection He as _ He. by destruct a.
    + injection He as _ He. destruct a as [| y a]; [by injection He |].
      rewrite string_app_cons in He. injection He as _ He.
      destruct a as [| z a]; [by injection He |].
      rewrite string_app_cons in He. injection He as _ He. by destruct a.
Qed.

Lemma last_line_spec (rest : string) : ∀ line : string,
  let newline := Ascii.ascii_of_nat 10 in
  is_substring Search.nl line = false →
  ∃ l, last (split_from newline line rest) = Some l ∧
       is_substring Search.nl l = false ∧
       part_of l (line +:+ rest) ∧
       ∀ m, mark m → ends_with m (line +:+ rest) = true → ends_with m l = true.
Proof.
  cbn zeta. induction rest as [| c rest IH]; intros line Hline.
  - exists line. rewrite string_app_nil_r. cbn [split_from last].
    split; [done |]. split; [done |]. split; [apply part_of_refl | done].
  - cbn [split_from]. destruct (Ascii.eqb_spec c (Ascii.ascii_of_nat 10)) as [-> | Hne].
    + destruct (IH "" eq_refl) as (l & Hl & Hnl & Hpart & Hmark).
      change ("" +:+ rest) with rest in Hpart, Hmark.
      exists l. rewrite last_cons_nonempty by apply split_from_nonempty.
      split; [done |]. split; [done |]. split.
      * eapply part_of_trans; [exact Hpart |].
        rewrite <- (string_app_snoc line rest (Ascii.ascii_of_nat 10)).
        apply part_of_suffix.
      * intros m Hm He. apply Hmark; [done |]. by eapply ends_with_after.
    + destruct (IH (line +:+ String c "")) as (l & Hl & Hnl & Hpart & Hmark).
      { rewrite is_substring_snoc, Hline by done. cbn [orb].
        destruct (ends_with Search.nl (line +:+ String c "")) eqn:He; [| done].
        apply ends_with_true in He as [a Ha]. exfalso. apply Hne.
        clear -Ha. revert a Ha. induction line as [| y line IH]; intros a Ha.
        - destruct a as [| x a]; [by injection Ha |].
          rewrite string_app_cons in Ha. change ("" +:+ ?s) with s in Ha.
          injection Ha as _ Ha. by destruct a.
        - destruct a as [| x a].
          + change ("" +:+ ?s) with s in Ha. rewrite string_app_cons in Ha.
            injection Ha as _ Ha. by destruct line.
          + rewrite !string_app_cons in Ha. injection Ha as _ Ha. by eapply IH. }
      rewrite string_app_snoc in Hpart, Hmark. by exists l.
Qed.

End text_facts.

Section session_facts.

Import Models Hats OpenRouter Session.

Ltac world_eq w :=
  destruct w as [[? ? ? ? ? ? ? ? ? ? ?] ? ? ? ?];
  unfold delivered, with_session, with_cursor, with_speech_succeeded, indices_of,
    set_flags, set_history, set_state, set_speech_count, set_latest_summary,
    set_hat_manager, set_current_round, set_current_hat_info;
  cbn [session emitted cursor state_trace speech_succeeded
       config members state history _stop_requested _summary_requested _speech_count
       _latest_summary _hat_manager _current_round _current_hat_info].

Lemma delivered_nil (env : Env) (track : bool) (w : World) : delivered env track [] w = w.
Proof.
  world_eq w. cbn. rewrite !orb_false_r, app_nil_r, ?andb_false_r, ?orb_false_r. done.
Qed.

Lemma delivered_app (env : Env) (track : bool) (evs1 evs2 : list SessionEvent) (w : World) :
  delivered env track evs2 (delivered env track evs1 w) = delivered env track (evs1 ++ evs2) w.
Proof.
  world_eq w. rewrite !length_app, !seq_app, !existsb_app, !app_assoc, !orb_assoc.
  rewrite andb_orb_distrib_r, orb_assoc. done.
Qed.

Lemma yield_delivered (env : Env) (ev : SessionEvent) (w : World) :
  yield_ env ev w = (Val tt, delivered env false [ev] w).
Proof. unfold yield_. f_equal. world_eq w. cbn. by rewrite !orb_false_r. Qed.

Lemma turn_yield_delivered (env : Env) (ev : SessionEvent) (w : World) :
  turn_yield env ev w = (Val tt, delivered env true [ev] w).
Proof.
  unfold turn_yield, bind, yield_, set_speech_succeeded, ret.
  destruct (is_final_member ev) eqn:Hf; f_equal; world_eq w; cbn; rewrite Hf, !orb_false_r.
  - by rewrite orb_true_r.
  - done.
Qed.

Lemma for_each_delivered {A : Type} (env : Env) (track : bool)
    (cb : SessionEvent → M unit) (f : A → SessionEvent) (l : list A) :
  (∀ ev w, cb ev w = (Val tt, delivered env track [ev] w)) →
  ∀ w, for_each l (fun x => cb (f x)) w = (Val tt, delivered env track (map f l) w).
Proof.
  intros Hcb. induction l as [| x l IH]; intros w.
  - by rewrite delivered_nil.
  - cbn [for_each map]. unfold bind. rewrite Hcb, IH, delivered_app. done.
Qed.

Lemma for_chunks_delivered (env : Env) (track : bool)
    (cb : SessionEvent → M unit) (f : string → SessionEvent) (sr : StreamResult) :
  (∀ ev w, cb ev w = (Val tt, delivered env track [ev] w)) →
  ∀ w, for_chunks sr (fun chunk => cb (f chunk)) w
       = (match terminal sr with Some e => Exc e | None => Val tt end,
          delivered env track (map f (fragments sr)) w).
Proof.
  intros Hcb w. unfold for_chunks, bind.
  rewrite (for_each_delivered env track cb f _ Hcb). by destruct (terminal sr).
Qed.

Lemma assign_hat_returns (r : nat) (b : bool) (self : HatManager) :
  ∃ h self', assign_hat r b self = (Returned h, self') ∧ (b = true → h ∈ FIRST_SPEAKER_HATS).
Proof.
  destruct (assign_hat_spec r b self) as (pool & h & rest & _ & _ & Hf & ->). eauto.
Qed.

Lemma member_speak_spec (env : Env) (member_name : string) (w : World) (member : MemberConfig) :
  dict_get member_name (members (session w)) = Some member →
  let count := _speech_count (session w) in
  let stream := stream_result 2 (speak_stream env count) in
  ∃ hat hm,
    assign_hat (draws env (cursor w)) (bool_decide (count = 1)) (_hat_manager (session w))
      = (Returned hat, hm) ∧
    let info := get_hat_info hat in
    let w0 := with_session (set_current_hat_info (Some info))
                (with_session (set_hat_manager hm) (with_cursor (S (cursor w)) w)) in
    let evs := turn_events member_name count info (fragments stream) in
    _member_speak env member_name (turn_yield env) w =
      (Val tt,
       match terminal stream with
       | Some e =>
           with_session (set_current_hat_info None)
             (delivered env true (evs ++ [speech_skipped member_name count e]) w0)
       | None =>
           delivered env true
             [member_event member_name (String.concat "" (fragments stream)) false true count info]
             (with_session
                (fun s => set_history
                   (history s ++ [speech_message member_name member info
                                    (String.concat "" (fragments stream))]) s)
                (delivered env true evs w0))
       end).
Proof.
  intros Hm count stream.
  destruct (assign_hat_returns (draws env (cursor w)) (bool_decide (count = 1))
              (_hat_manager (session w))) as (hat & hm & Hassign & _).
  exists hat, hm. split; [done |]. cbn zeta.
  unfold _member_speak, bind at 1, get_session. rewrite Hm.
  unfold bind at 1, next_draw. cbn [session with_cursor]. fold count. rewrite Hassign.
  unfold bind at 1, modify_session.
  unfold bind at 1.
  unfold bind at 1. rewrite turn_yield_delivered.
  unfold bind at 1. rewrite turn_yield_delivered, delivered_app.
  unfold bind at 1, try_except, bind at 1.
  rewrite (for_chunks_delivered env true (turn_yield env)
             (fun chunk => member_event member_name chunk true false count (get_hat_info hat)))
    by apply turn_yield_delivered.
  rewrite delivered_app. fold stream.
  destruct (terminal stream) as [e |].
  - unfold bind at 1. rewrite turn_yield_delivered, delivered_app.
    unfold bind, modify_session, ret. unfold turn_events. by rewrite <- app_assoc.
  - unfold ret, _add_message, bind, modify_session. rewrite turn_yield_delivered. done.
Qed.

Lemma existsb_false_seq (f : nat → bool) (a n : nat) :
  (∀ i : nat, (a ≤ i < a + n)%nat → f i = false) → existsb f (seq a n) = false.
Proof.
  revert a. induction n as [| n IH]; intros a Hf; [done |].
  cbn [seq existsb]. rewrite Hf by lia. rewrite IH; [done |]. intros i Hi. apply Hf. lia.
Qed.

Lemma delivered_stop_quiet (env : Env) (track : bool) (evs : list SessionEvent) (w : World) :
  _stop_requested (session w) = false →
  no_stop_during env w (length evs) →
  _stop_requested (session (delivered env track evs w)) = false.
Proof.
  intros Hs Hq. unfold delivered, indices_of. cbn. rewrite Hs. cbn.
  by apply existsb_false_seq.
Qed.

Lemma opening_yield_quiet (env : Env) (ev : SessionEvent) (w : World) :
  _stop_requested (session w) = false →
  no_stop_during env w 1 →
  opening_yield env ev w = (Val tt, delivered env false [ev] w).
Proof.
  intros Hs Hq. unfold opening_yield, bind. rewrite yield_delivered.
  unfold get_session. rewrite (delivered_stop_quiet env false [ev] w Hs Hq). done.
Qed.

Lemma no_stop_during_app (env : Env) (track : bool) (evs : list SessionEvent) (w : World) (n : nat) :
  no_stop_during env w (length evs + n) →
  no_stop_during env w (length evs) ∧ no_stop_during env (delivered env track evs w) n.
Proof.
  intros Hq. split; intros i Hi; apply Hq; [lia |].
  unfold delivered in Hi. cbn in Hi. rewrite length_app in Hi. lia.
Qed.

Lemma for_each_opening_quiet {A : Type} (env : Env) (f : A → SessionEvent) (l : list A) :
  ∀ w, _stop_requested (session w) = false →
       no_stop_during env w (length l) →
       for_each l (fun x => opening_yield env (f x)) w
       = (Val tt, delivered env false (map f l) w).
Proof.
  induction l as [| x l IH]; intros w Hs Hq.
  - by rewrite delivered_nil.
  - cbn [for_each map]. unfold bind.
    destruct (no_stop_during_app env false [f x] w (length l) Hq) as [Hq1 Hq2].
    rewrite opening_yield_quiet by done.
    rewrite IH; [by rewrite delivered_app | by apply delivered_stop_quiet | done].
Qed.

Lemma moderator_opening_quiet (env : Env) (w : World) :
  let stream := stream_result 5 (opening_stream env) in
  let mod_name := moderator_name (session w) in
  _stop_requested (session w) = false →
  no_stop_during env w (length (fragments stream) + 2) →
  terminal stream = None →
  _moderator_opening env (opening_yield env) w =
    (Val tt,
     delivered env false
       [moderator_event mod_name (String.concat "" (fragments stream)) false true]
       (with_session
          (append_message (moderator_message mod_name (String.concat "" (fragments stream)) OPENING))
          (delivered env false (moderator_events mod_name (fragments stream)) w))) ∧
  _stop_requested
    (session
       (delivered env false
          [moderator_event mod_name (String.concat "" (fragments stream)) false true]
          (with_session
             (append_message (moderator_message mod_name (String.concat "" (fragments stream)) OPENING))
             (delivered env false (moderator_events mod_name (fragments stream)) w)))) = false.
Proof.
  intros stream mod_name Hs Hq Hterm.
  assert (Hq' : no_stop_during env w (length (moderator_events mod_name (fragments stream)) + 1)).
  { unfold moderator_events. cbn [length]. rewrite length_map.
    intros i Hi. apply Hq. lia. }
  destruct (no_stop_during_app env false _ w 1 Hq') as [Hq1 Hq2].
  assert (Hs1 := delivered_stop_quiet env false _ w Hs Hq1).
  split.
  - unfold _moderator_opening, bind at 1, get_session. fold mod_name.
    unfold bind at 1.
    destruct (no_stop_during_app env false [moderator_event mod_name "" true false] w
                (length (fragments stream))) as [Hqa Hqb].
    { intros i Hi. apply Hq. cbn [length] in Hi. lia. }
    rewrite opening_yield_quiet by done.
    unfold bind at 1, for_chunks, bind at 1. fold stream.
    rewrite (for_each_opening_quiet env
               (fun chunk => moderator_event mod_name chunk true false) (fragments stream));
      [| by apply delivered_stop_quiet | done].
    rewrite delivered_app, Hterm. unfold ret, bind at 1, _add_message, modify_session.
    change ([moderator_event mod_name "" true false]
            ++ map (fun chunk => moderator_event mod_name chunk true false) (fragments stream))
      with (moderator_events mod_name (fragments stream)).
    rewrite opening_yield_quiet; [done | done | done].
  - apply delivered_stop_quiet; [done | done].
Qed.

Lemma after_speech_summary_spec (env : Env) (w : World) :
  let s := session w in
  let stream := stream_result 5 (summary_stream env (_speech_count s)) in
  let mod_name := moderator_name s in
  let full_content := String.concat "" (fragments stream) in
  _after_speech_summary env (yield_ env) w =
    match last_speech (history s) with
    | None => (Val tt, w)
    | Some _ =>
        match terminal stream with
        | Some e => (Exc e, delivered env false (moderator_events mod_name (fragments stream)) w)
        | None =>
            (Val tt,
             delivered env false [moderator_event mod_name full_content false true]
               (with_session
                  (fun s => append_message (moderator_message mod_name full_content ROUND_SUMMARY)
                              (set_latest_summary full_content s))
                  (delivered env false (moderator_events mod_name (fragments stream)) w)))
        end
    end.
Proof.
  cbn zeta. unfold _after_speech_summary, bind at 1, get_session.
  destruct (last_speech (history (session w))); [| done].
  unfold bind at 1. rewrite yield_delivered.
  unfold bind at 1.
  rewrite (for_chunks_delivered env false (yield_ env)
             (fun chunk => moderator_event (moderator_name (session w)) chunk true false))
    by apply yield_delivered.
  rewrite delivered_app.
  change ([moderator_event (moderator_name (session w)) "" true false]
          ++ map (fun chunk => moderator_event (moderator_name (session w)) chunk true false)
               (fragments (stream_result 5 (summary_stream env (_speech_count (session w))))))
    with (moderator_events (moderator_name (session w))
            (fragments (stream_result 5 (summary_stream env (_speech_count (session w)))))).
  destruct (terminal (stream_result 5 (summary_stream env (_speech_count (session w))))); [done |].
  unfold _add_message, bind, modify_session. rewrite yield_delivered. done.
Qed.

Lemma assign_state_with_state (v : SessionState) (w : World) :
  assign_state v w = (Val tt, with_state v w).
Proof. done. Qed.

Lemma final_summary_spec (env : Env) (w : World) :
  let w1 := with_state SUMMARIZING w in
  let r := moderator_final_summary env (session w1) in
  let frags := Moderator.yielded (Moderator.log r) in
  let full_content := String.concat "" frags in
  _final_summary env (yield_ env) w =
    match Moderator.raised r with
    | Some e => (Exc e, delivered env false (final_summary_events (session w1) frags) w1)
    | None =>
        (Val tt,
         delivered env false [moderator_event (summary_name (session w1)) full_content false true]
           (with_session
              (append_message
                 (moderator_message (moderator_name (session w1)) full_content FINAL_SUMMARY))
              (delivered env false (final_summary_events (session w1) frags) w1)))
    end.
Proof.
  cbn zeta. unfold _final_summary, bind at 1. rewrite assign_state_with_state.
  unfold bind at 1, get_session. unfold bind at 1. rewrite yield_delivered.
  unfold bind at 1. rewrite yield_delivered, delivered_app.
  unfold bind at 1.
  set (w1 := with_state SUMMARIZING w).
  set (r := moderator_final_summary env (session w1)).
  rewrite (for_chunks_delivered env false (yield_ env)
             (fun chunk => moderator_event (moderator_name (session w1) +:+ "（總結）") chunk true false))
    by apply yield_delivered.
  rewrite delivered_app. cbn [fragments terminal].
  change (([system_event "進行最終總結" 0 "" ""]
           ++ [moderator_event (moderator_name (session w1) +:+ "（總結）") "" true false])
          ++ map (fun chunk => moderator_event (moderator_name (session w1) +:+ "（總結）") chunk true false)
               (Moderator.yielded (Moderator.log r)))
    with (final_summary_events (session w1) (Moderator.yielded (Moderator.log r))).
  destruct (Moderator.raised r); [done |].
  unfold _add_message, bind, modify_session. rewrite yield_delivered. done.
Qed.

Lemma build_speaking_order_spec (env : Env) (names : list string) (rounds : list Z) :
  ∀ (speaking_order : list string) (w : World),
    build_speaking_order env rounds names speaking_order w =
      (Val (speaking_order
            ++ concat (shuffled_rounds (draws env) (cursor w) (length rounds) names)),
       with_cursor (cursor w + length rounds * shuffle_cost names)%nat w).
Proof.
  induction rounds as [| r rounds IH]; intros speaking_order w.
  - cbn. rewrite app_nil_r, Nat.add_0_r. unfold ret. f_equal. by destruct w.
  - cbn [build_speaking_order length shuffled_rounds concat]. unfold bind, next_draws.
    rewrite IH. cbn [cursor with_cursor]. rewrite <- app_assoc. f_equal.
    unfold with_cursor. cbn. f_equal. lia.
Qed.

Lemma loop_frame_refl (w : World) : loop_frame w w.
Proof.
  split; try done.
  - exists []. by rewrite app_nil_r.
  - exists []. by rewrite app_nil_r.
Qed.

Lemma loop_frame_trans (w1 w2 w3 : World) :
  loop_frame w1 w2 → loop_frame w2 w3 → loop_frame w1 w3.
Proof.
  intros [Hc1 Hm1 Hs1 Ht1 [e1 He1] [a1 [Ha1 Hf1]]] [Hc2 Hm2 Hs2 Ht2 [e2 He2] [a2 [Ha2 Hf2]]].
  split; try congruence.
  - exists (e1 ++ e2). by rewrite He2, He1, app_assoc.
  - exists (a1 ++ a2). split; [by rewrite Ha2, Ha1, app_assoc | by apply Forall_app].
Qed.

Lemma member_speak_frame (env : Env) (member_name : string) (w : World) :
  is_Some (dict_get member_name (members (session w))) →
  ∃ w', _member_speak env member_name (turn_yield env) w = (Val tt, w') ∧ loop_frame w w'.
Proof.
  intros [member Hm].
  destruct (member_speak_spec env member_name w member Hm) as (hat & hm & _ & Heq).
  cbn zeta in Heq. rewrite Heq. eexists. split; [done |].
  destruct (terminal (stream_result 2 (speak_stream env (_speech_count (session w))))).
  - split; try done.
    + cbn. eauto.
    + exists []. cbn. by rewrite app_nil_r.
  - split; try done.
    + cbn. rewrite <- app_assoc. eauto.
    + eexists. cbn. split; [done |]. apply Forall_singleton. by left.
Qed.

Lemma after_speech_summary_frame (env : Env) (w : World) :
  (∀ k, terminal (stream_result 5 (summary_stream env k)) = None) →
  ∃ w', _after_speech_summary env (yield_ env) w = (Val tt, w') ∧ loop_frame w w'.
Proof.
  intros Hok. rewrite after_speech_summary_spec.
  destruct (last_speech (history (session w))).
  - rewrite Hok. eexists. split; [done |]. split; try done.
    + cbn. rewrite <- app_assoc. eauto.
    + eexists. cbn. split; [done |]. apply Forall_singleton. by right.
  - exists w. split; [done | apply loop_frame_refl].
Qed.

Lemma speaking_loop_frame (env : Env) (total_speeches speeches_per_round : Z) :
  (∀ k, terminal (stream_result 5 (summary_stream env k)) = None) →
  ∀ (speaking_order : list string) (i : Z) (w : World),
    (∀ member_name, member_name ∈ speaking_order →
                    is_Some (dict_get member_name (members (session w)))) →
    ∃ w', speaking_loop env total_speeches speeches_per_round i speaking_order w = (Val tt, w')
          ∧ loop_frame w w'.
Proof.
  intros Hok. induction speaking_order as [| member_name rest IH]; intros i w Hin.
  - exists w. split; [done | apply loop_frame_refl].
  - cbn [speaking_loop]. unfold bind at 1, get_session.
    destruct (flag_raised (session w)).
    { exists w. split; [done | apply loop_frame_refl]. }
    unfold bind at 1, modify_session. unfold bind at 1. unfold bind at 1, set_speech_succeeded.
    set (w1 := with_speech_succeeded false _).
    assert (F1 : loop_frame w w1).
    { split; try done; exists []; cbn; by rewrite app_nil_r. }
    destruct (member_speak_frame env member_name w1) as (w2 & Hspeak & F2).
    { rewrite (frame_members _ _ F1). apply Hin. in_list. }
    unfold bind at 1. rewrite Hspeak.
    unfold after_member_speak, bind at 1, get_session.
    destruct (flag_raised (session w2)).
    { exists w2. split; [done | by eapply loop_frame_trans]. }
    unfold bind at 1, get_speech_succeeded.
    assert (Hsum : ∃ w3,
      (if speech_succeeded w2 && (i <? total_speeches - 1)
       then _after_speech_summary env (yield_ env) else ret tt) w2 = (Val tt, w3)
      ∧ loop_frame w2 w3).
    { destruct (speech_succeeded w2 && (i <? total_speeches - 1)).
      - by apply after_speech_summary_frame.
      - exists w2. split; [done | apply loop_frame_refl]. }
    destruct Hsum as (w3 & Hsum & F3).
    unfold bind at 1. rewrite Hsum.
    assert (F : loop_frame w w3) by (eapply loop_frame_trans; [eapply loop_frame_trans |]; done).
    destruct (IH (i + 1) w3) as (w4 & Hloop & F4).
    { intros n Hn. rewrite (frame_members _ _ F). apply Hin. by apply list_elem_of_further. }
    exists w4. split; [done | by eapply loop_frame_trans].
Qed.

Lemma list_swap_perm {A : Type} (i j : nat) (x : list A) : list_swap i j x ≡ₚ x.
Proof.
  unfold list_swap. destruct (x !! i) as [xi |] eqn:Hi; [| done].
  destruct (x !! j) as [xj |] eqn:Hj; [| done]. by apply Permutation_insert_swap.
Qed.

Lemma shuffle_from_perm {A : Type} (i : nat) : ∀ (draws : list nat) (x : list A),
  shuffle_from i draws x ≡ₚ x.
Proof.
  induction i as [| i IH]; intros draws x; [done |].
  cbn [shuffle_from]. destruct draws as [| r draws]; [done |].
  rewrite IH. apply list_swap_perm.
Qed.

Lemma random_shuffle_perm {A : Type} (draws : list nat) (x : list A) :
  random_shuffle draws x ≡ₚ x.
Proof. apply shuffle_from_perm. Qed.

Lemma shuffled_rounds_perm (draws : nat → nat) (names : list string) (rounds : nat) :
  ∀ cursor, Forall (fun round => round ≡ₚ names) (shuffled_rounds draws cursor rounds names).
Proof.
  induction rounds as [| rounds IH]; intros cursor; [by apply Forall_nil |].
  cbn [shuffled_rounds]. apply Forall_cons. split; [apply random_shuffle_perm | apply IH].
Qed.

Lemma shuffled_rounds_length (draws : nat → nat) (names : list string) (rounds : nat) :
  ∀ cursor, length (shuffled_rounds draws cursor rounds names) = rounds.
Proof. induction rounds as [| rounds IH]; intros cursor; [done |]. cbn. by rewrite IH. Qed.

Lemma elem_of_concat_perms (names : list string) (perms : list (list string)) (x : string) :
  Forall (fun round => round ≡ₚ names) perms → x ∈ concat perms → x ∈ names.
Proof.
  induction 1 as [| round perms Hp _ IH]; cbn [concat]; intros Hin.
  - by apply elem_of_nil in Hin.
  - apply elem_of_app in Hin as [Hin | Hin]; [by rewrite <- Hp | by apply IH].
Qed.

Lemma dict_get_member_names {V : Type} (d : list (string * V)) (k : string) :
  k ∈ map fst d → is_Some (dict_get k d).
Proof.
  induction d as [| [k' v] d IH]; cbn [map fst dict_get]; intros Hin.
  - by apply elem_of_nil in Hin.
  - destruct (decide (k' = k)); [by eexists |].
    apply elem_of_cons in Hin as [-> | Hin]; [done | by apply IH].
Qed.

Lemma run_prelude_started (s : Session) : run_prelude (initial_world s) = (Val tt, started s).
Proof. done. Qed.

Lemma run_unfold (env : Env) (s : Session) :
  run env s =
    snd (try_except (run_body env)
           (fun e => yield_ env (system_event ("發生錯誤: " +:+ exn_str e) 0 "" "") ;;
                     assign_state IDLE) (started s)).
Proof. unfold run, bind at 1. by rewrite run_prelude_started. Qed.

Lemma run_completes (env : Env) (s : Session) :
  let opening := stream_result 5 (opening_stream env) in
  (∀ i : nat, (i < length (fragments opening) + 3)%nat → stop_at env i = false) →
  terminal opening = None →
  (∀ k, terminal (stream_result 5 (summary_stream env k)) = None) →
  (∀ s', Moderator.raised (moderator_final_summary env s') = None) →
  ∃ w3, loop_frame (opened env s) w3 ∧ run env s = summarized env w3.
Proof.
  intros opening Hquiet Hopen Hsum Hfinal. rewrite run_unfold.
  unfold try_except, run_body, bind at 1. rewrite yield_delivered.
  set (w1 := delivered env false _ (started s)).
  assert (Hs1 : _stop_requested (session w1) = false).
  { apply delivered_stop_quiet; [done |]. intros i Hi. apply Hquiet. cbn in Hi. lia. }
  destruct (moderator_opening_quiet env w1) as [Hopening Hs2]; [done | | done |].
  { intros i Hi. apply Hquiet. cbn in Hi. fold opening in Hi. lia. }
  unfold bind at 1. rewrite Hopening. clear Hopening Hs2.
  subst w1. rewrite delivered_app.
  change (moderator_name (session (delivered env false [system_event "討論開始" 0 "" ""] (started s))))
    with (moderator_name s).
  change ([system_event "討論開始" 0 "" ""] ++ moderator_events (moderator_name s)
            (fragments (stream_result 5 (opening_stream env))))
    with (system_event "討論開始" 0 "" "" :: moderator_events (moderator_name s)
            (fragments (stream_result 5 (opening_stream env)))).
  fold (opened env s).
  unfold bind at 1, get_session. unfold bind at 1. rewrite build_speaking_order_spec.
  set (order := [] ++ _). set (w2' := with_cursor _ (opened env s)).
  destruct (speaking_loop_frame env
              (Z.of_nat (length (member_names (session (opened env s))))
               * total_rounds (config (session (opened env s))))
              (Z.of_nat (length (member_names (session (opened env s))))) Hsum order 0 w2')
    as (w3 & Hloop & F).
  { intros n Hn. apply dict_get_member_names. subst order. rewrite app_nil_l in Hn.
    eapply elem_of_concat_perms; [apply shuffled_rounds_perm | done]. }
  unfold bind at 1. rewrite Hloop.
  unfold bind at 1. rewrite final_summary_spec, Hfinal.
  rewrite assign_state_with_state. cbn [snd].
  exists w3. split; [| done].
  eapply loop_frame_trans; [| done].
  split; try done; exists []; cbn; by rewrite app_nil_r.
Qed.

(** C1 (as amended): in a run during whose opening the consumer raises no
    stop flag, and in which no call of the moderator ends with an exception,
    the final summary is always performed, however the speaking loop ends
    (the schedule runs out, or a stop or summarize-now flag is raised at any
    later moment): the state goes RUNNING, SUMMARIZING, FINISHED and the run
    appends exactly one FINAL_SUMMARY entry, the last one. *)
Theorem final_summary_always_reached (env : Env) (s : Session) :
  let opening := stream_result 5 (opening_stream env) in
  (∀ i : nat, (i < length (fragments opening) + 3)%nat → stop_at env i = false) →
  terminal opening = None →
  (∀ k, terminal (stream_result 5 (summary_stream env k)) = None) →
  (∀ s', Moderator.raised (moderator_final_summary env s') = None) →
  let w := run env s in
  state (session w) = FINISHED ∧
  state_trace w = [RUNNING; SUMMARIZING; FINISHED] ∧
  ∃ before final,
    history (session w) = history s ++ before ++ [final] ∧
    message_type final = FINAL_SUMMARY ∧
    Forall (fun m => message_type m ≠ FINAL_SUMMARY) before.
Proof.
  intros opening Hquiet Hopen Hsum Hfinal w. subst w.
  destruct (run_completes env s Hquiet Hopen Hsum Hfinal) as (w3 & F & ->).
  destruct F as [_ _ _ Ft _ [added [Fh Fa]]].
  split; [done |]. split.
  - cbn. rewrite Ft. done.
  - eexists (_ :: added), _. cbn. rewrite Fh. cbn.
    split; [by rewrite <- !app_assoc |]. split; [done |].
    apply Forall_cons. split; [done |].
    eapply Forall_impl; [done |]. intros m [Hm | Hm]; by rewrite Hm.
Qed.

Lemma grown_refl (w : World) : grown w w.
Proof. split; exists []; by rewrite app_nil_r. Qed.

Lemma grown_trans (w1 w2 w3 : World) : grown w1 w2 → grown w2 w3 → grown w1 w3.
Proof.
  intros [[a1 Ha1] [e1 He1]] [[a2 Ha2] [e2 He2]]. split.
  - exists (a1 ++ a2). by rewrite Ha2, Ha1, app_assoc.
  - exists (e1 ++ e2). by rewrite He2, He1, app_assoc.
Qed.

Ltac same_world := intros ?; apply grown_refl.
Ltac small_step := intros ?; split; eexists; cbn; try done; by rewrite app_nil_r.

Lemma appends_ret {A : Type} (a : A) : appends (ret a).
Proof. same_world. Qed.

Lemma appends_raise {A : Type} (e : exn) : appends (@raise A e).
Proof. same_world. Qed.

Lemma appends_gen_return {A : Type} : appends (@gen_return A).
Proof. same_world. Qed.

Lemma appends_bind {A B : Type} (m : M A) (k : A → M B) :
  appends m → (∀ a, appends (k a)) → appends (bind m k).
Proof.
  intros Hm Hk w. unfold bind. pose proof (Hm w) as H1.
  destruct (m w) as [[a | e |] w']; cbn [snd] in *; [| done | done].
  eapply grown_trans; [done | apply Hk].
Qed.

Lemma appends_try_except {A : Type} (body : M A) (handler : exn → M A) :
  appends body → (∀ e, appends (handler e)) → appends (try_except body handler).
Proof.
  intros Hb Hh w. unfold try_except. pose proof (Hb w) as H1.
  destruct (body w) as [[a | e |] w']; cbn [snd] in *; [done | | done].
  eapply grown_trans; [done | apply Hh].
Qed.

Lemma appends_for_each {A : Type} (l : list A) (body : A → M unit) :
  (∀ x, appends (body x)) → appends (for_each l body).
Proof.
  intros Hb. induction l as [| x l IH]; cbn [for_each]; [apply appends_ret |].
  apply appends_bind; [apply Hb | by intros _].
Qed.

Lemma appends_for_chunks (sr : StreamResult) (body : string → M unit) :
  (∀ x, appends (body x)) → appends (for_chunks sr body).
Proof.
  intros Hb. unfold for_chunks. apply appends_bind; [by apply appends_for_each |].
  intros _. destruct (terminal sr); [apply appends_raise | apply appends_ret].
Qed.

Lemma appends_modify_session (f : Session → Session) :
  (∀ s, history (f s) = history s) → appends (modify_session f).
Proof. intros Hf w. split; exists []; cbn; by rewrite ?Hf, app_nil_r. Qed.

Lemma appends_add_message (role : Role) (content speaker_name : string)
    (message_type : MessageType) (model_id hat_color hat_name : string) :
  appends (_add_message role content speaker_name message_type model_id hat_color hat_name).
Proof. small_step. Qed.

Lemma appends_yield (env : Env) (ev : SessionEvent) : appends (yield_ env ev).
Proof. small_step. Qed.

Lemma appends_get_session : appends get_session.
Proof. same_world. Qed.

Lemma appends_assign_state (v : SessionState) : appends (assign_state v).
Proof. small_step. Qed.

Lemma appends_opening_yield (env : Env) (ev : SessionEvent) : appends (opening_yield env ev).
Proof.
  unfold opening_yield. apply appends_bind; [apply appends_yield | intros _].
  apply appends_bind; [apply appends_get_session | intros s].
  destruct (_stop_requested s); [apply appends_gen_return | apply appends_ret].
Qed.

Lemma appends_turn_yield (env : Env) (ev : SessionEvent) : appends (turn_yield env ev).
Proof.
  unfold turn_yield. apply appends_bind; [apply appends_yield | intros _].
  destruct (is_final_member ev); [| apply appends_ret]. small_step.
Qed.

Lemma appends_moderator_opening (env : Env) (yield_event : SessionEvent → M unit) :
  (∀ ev, appends (yield_event ev)) → appends (_moderator_opening env yield_event).
Proof.
  intros Hy. unfold _moderator_opening.
  apply appends_bind; [apply appends_get_session | intros s].
  apply appends_bind; [apply Hy | intros _].
  apply appends_bind; [by apply appends_for_chunks | intros _].
  apply appends_bind; [apply appends_add_message | intros _]. apply Hy.
Qed.

Lemma appends_member_speak (env : Env) (member_name : string)
    (yield_event : SessionEvent → M unit) :
  (∀ ev, appends (yield_event ev)) → appends (_member_speak env member_name yield_event).
Proof.
  intros Hy. unfold _member_speak.
  apply appends_bind; [apply appends_get_session | intros s].
  destruct (dict_get member_name (members s)); [| apply appends_raise].
  apply appends_bind; [small_step | intros r].
  destruct (assign_hat r _ _) as [[hat | e] hm].
  - apply appends_bind; [by apply appends_modify_session | intros _].
    apply appends_bind; [by apply appends_modify_session | intros _].
    apply appends_bind; [apply Hy | intros _].
    apply appends_bind; [apply Hy | intros _].
    apply appends_bind.
    + apply appends_try_except.
      * apply appends_bind; [by apply appends_for_chunks | intros _; apply appends_ret].
      * intros e. apply appends_bind; [apply Hy | intros _].
        apply appends_bind; [by apply appends_modify_session | intros _; apply appends_ret].
    + intros [|]; [| apply appends_ret].
      apply appends_bind; [apply appends_add_message | intros _; apply Hy].
  - apply appends_bind; [by apply appends_modify_session | intros _; apply appends_raise].
Qed.

Lemma appends_after_speech_summary (env : Env) (yield_event : SessionEvent → M unit) :
  (∀ ev, appends (yield_event ev)) → appends (_after_speech_summary env yield_event).
Proof.
  intros Hy. unfold _after_speech_summary.
  apply appends_bind; [apply appends_get_session | intros s].
  destruct (last_speech (history s)); [| apply appends_ret].
  apply appends_bind; [apply Hy | intros _].
  apply appends_bind; [by apply appends_for_chunks | intros _].
  apply appends_bind; [by apply appends_modify_session | intros _].
  apply appends_bind; [apply appends_add_message | intros _]. apply Hy.
Qed.

Lemma appends_final_summary (env : Env) (yield_event : SessionEvent → M unit) :
  (∀ ev, appends (yield_event ev)) → appends (_final_summary env yield_event).
Proof.
  intros Hy. unfold _final_summary.
  apply appends_bind; [apply appends_assign_state | intros _].
  apply appends_bind; [apply appends_get_session | intros s].
  apply appends_bind; [apply Hy | intros _].
  apply appends_bind; [apply Hy | intros _].
  apply appends_bind; [by apply appends_for_chunks | intros _].
  apply appends_bind; [apply appends_add_message | intros _]. apply Hy.
Qed.

Lemma appends_build_speaking_order (env : Env) (names : list string) (rounds : list Z) :
  ∀ speaking_order, appends (build_speaking_order env rounds names speaking_order).
Proof.
  induction rounds as [| r rounds IH]; intros acc; cbn [build_speaking_order];
    [apply appends_ret |].
  apply appends_bind; [small_step | intros ds; apply IH].
Qed.

Lemma appends_after_member_speak (env : Env) (total_speeches i : Z) (continue : M unit) :
  appends continue → appends (after_member_speak env total_speeches i continue).
Proof.
  intros Hc. unfold after_member_speak.
  apply appends_bind; [apply appends_get_session | intros s'].
  destruct (flag_raised s'); [apply appends_ret |].
  apply appends_bind; [same_world | intros succeeded].
  apply appends_bind; [| by intros _].
  destruct (succeeded && _); [apply appends_after_speech_summary, appends_yield | apply appends_ret].
Qed.

Lemma appends_speaking_loop (env : Env) (total_speeches speeches_per_round : Z)
    (speaking_order : list string) :
  ∀ i, appends (speaking_loop env total_speeches speeches_per_round i speaking_order).
Proof.
  induction speaking_order as [| member_name rest IH]; intros i; cbn [speaking_loop];
    [apply appends_ret |].
  apply appends_bind; [apply appends_get_session | intros s].
  destruct (flag_raised s); [apply appends_ret |].
  apply appends_bind; [by apply appends_modify_session | intros _].
  apply appends_bind; [by apply appends_modify_session | intros _].
  apply appends_bind; [small_step | intros _].
  apply appends_bind; [apply appends_member_speak, appends_turn_yield | intros _].
  apply appends_after_member_speak, IH.
Qed.

Lemma appends_run_body (env : Env) : appends (run_body env).
Proof.
  unfold run_body.
  apply appends_bind; [apply appends_yield | intros _].
  apply appends_bind; [apply appends_moderator_opening, appends_opening_yield | intros _].
  apply appends_bind; [apply appends_get_session | intros s].
  apply appends_bind; [apply appends_build_speaking_order | intros order].
  apply appends_bind; [apply appends_speaking_loop | intros _].
  apply appends_bind; [apply appends_final_summary, appends_yield | intros _].
  apply appends_assign_state.
Qed.

(** Whatever happens during a run, it only appends to the history. *)
Lemma run_history_append_only (env : Env) (s : Session) :
  ∃ added, history (session (run env s)) = history s ++ added.
Proof.
  rewrite run_unfold.
  destruct (appends_try_except (run_body env)
              (fun e => yield_ env (system_event ("發生錯誤: " +:+ exn_str e) 0 "" "") ;;
                        assign_state IDLE) (appends_run_body env)) with (w := started s)
    as [[added Hadded] _].
  - intros e. apply appends_bind; [apply appends_yield | intros _; apply appends_assign_state].
  - by exists added.
Qed.

Lemma prefix_append (s t : string) : String.prefix s (s +:+ t) = true.
Proof.
  induction s as [| c s IH]; [by destruct t |].
  change (String c s +:+ t) with (String c (s +:+ t)).
  cbn [String.prefix]. destruct (Ascii.ascii_dec c c); [apply IH | done].
Qed.

Lemma hat_emoji_nonempty (h : HatColor) : emoji (get_hat_info h) ≠ "".
Proof. by destruct h. Qed.

Lemma filter_member_events_warning (member_name : string) (count : Z) (info : HatInfo)
    (l : list string) :
  List.filter is_warning
    (map (fun chunk => member_event member_name chunk true false count info) l) = [].
Proof. induction l as [| x l IH]; [done |]. cbn. apply IH. Qed.

Lemma filter_warning_failed_turn (member_name : string) (count : Z) (info : HatInfo)
    (frags : list string) (e : exn) :
  emoji info ≠ "" →
  List.filter is_warning
    (turn_events member_name count info frags ++ [speech_skipped member_name count e])
  = [speech_skipped member_name count e].
Proof.
  intros Hne. rewrite List.filter_app. unfold turn_events.
  cbn [List.filter]. rewrite filter_member_events_warning.
  assert (H1 : is_warning (speech_started member_name count info) = false).
  { unfold is_warning. cbn. rewrite (bool_decide_eq_false_2 _ Hne). done. }
  rewrite H1.
  assert (H2 : is_warning (member_event member_name "" true false count info) = false) by done.
  assert (H3 : is_warning (speech_skipped member_name count e) = true).
  { unfold is_warning, speech_skipped, system_event. cbn.
    rewrite !bool_decide_eq_true_2 by done. apply prefix_append. }
  rewrite H2. cbn [List.filter app]. rewrite H3. done.
Qed.

Lemma existsb_final_member_events (member_name : string) (count : Z) (info : HatInfo)
    (l : list string) :
  existsb is_final_member
    (map (fun chunk => member_event member_name chunk true false count info) l) = false.
Proof. induction l as [| x l IH]; [done |]. cbn. apply IH. Qed.

Lemma existsb_final_failed_turn (member_name : string) (count : Z) (info : HatInfo)
    (frags : list string) (e : exn) :
  existsb is_final_member
    (turn_events member_name count info frags ++ [speech_skipped member_name count e]) = false.
Proof.
  rewrite existsb_app. unfold turn_events. cbn [existsb].
  rewrite existsb_final_member_events. done.
Qed.

Lemma delivered_flag_quiet (env : Env) (track : bool) (evs : list SessionEvent) (w : World) :
  flag_raised (session w) = false →
  no_flag_during env w (length evs) →
  flag_raised (session (delivered env track evs w)) = false.
Proof.
  unfold flag_raised. intros Hf Hq. apply orb_false_iff in Hf as [Hs Hy].
  unfold delivered, indices_of. cbn. rewrite Hs, Hy. cbn.
  rewrite !existsb_false_seq; [done | |]; intros i Hi; by apply Hq.
Qed.

Lemma speaking_loop_turn (env : Env) (total_speeches speeches_per_round i : Z)
    (member_name : string) (rest : list string) (w : World) :
  flag_raised (session w) = false →
  speaking_loop env total_speeches speeches_per_round i (member_name :: rest) w =
    (_member_speak env member_name (turn_yield env) ;;
     after_member_speak env total_speeches i
       (speaking_loop env total_speeches speeches_per_round (i + 1) rest))
      (entering_turn speeches_per_round i w).
Proof.
  intros Hf. cbn [speaking_loop]. unfold bind at 1, get_session. rewrite Hf.
  unfold bind at 1, modify_session. unfold bind at 1. unfold bind at 1, set_speech_succeeded.
  done.
Qed.

(** C2: a turn whose provider call ends with a terminal exception is
    contained: [_member_speak] returns normally, the history is as it was,
    the events of the turn hold exactly one system warning, and, when no
    flag is raised meanwhile, the loop resumes at the next index, so that
    the next scheduled speaker is announced.  Histories only ever grow. *)
Theorem failed_turn_is_skipped (env : Env) (total_speeches speeches_per_round i : Z)
    (member_name : string) (rest : list string) (w : World) (member : MemberConfig) (e : exn) :
  let w0 := entering_turn speeches_per_round i w in
  let count := _speech_count (session w) + 1 in
  let stream := stream_result 2 (speak_stream env count) in
  flag_raised (session w) = false →
  dict_get member_name (members (session w)) = Some member →
  terminal stream = Some e →
  ∃ hat w1,
    let evs := turn_events member_name count (get_hat_info hat) (fragments stream)
               ++ [speech_skipped member_name count e] in
    _member_speak env member_name (turn_yield env) w0 = (Val tt, w1) ∧
    history (session w1) = history (session w) ∧
    emitted w1 = emitted w ++ evs ∧
    List.filter is_warning evs = [speech_skipped member_name count e] ∧
    (no_flag_during env w (length evs) →
       speaking_loop env total_speeches speeches_per_round i (member_name :: rest) w
       = speaking_loop env total_speeches speeches_per_round (i + 1) rest w1 ∧
       ∀ next rest', rest = next :: rest' →
         is_Some (dict_get next (members (session w))) →
         ∃ hat' later,
           emitted (snd (speaking_loop env total_speeches speeches_per_round i
                           (member_name :: rest) w))
           = emitted w1 ++ speech_started next (count + 1) (get_hat_info hat') :: later) ∧
    grown w (snd (speaking_loop env total_speeches speeches_per_round i (member_name :: rest) w)).
Proof.
  intros w0 count stream Hflag Hmember Hterm.
  destruct (member_speak_spec env member_name w0 member Hmember) as (hat & hm & _ & Heq).
  cbn zeta in Heq.
  change (_speech_count (session w0)) with count in Heq. fold stream in Heq.
  rewrite Hterm in Heq.
  set (evs := turn_events member_name count (get_hat_info hat) (fragments stream)
              ++ [speech_skipped member_name count e]) in *.
  set (w1 := with_session (set_current_hat_info None) _) in Heq.
  exists hat, w1. cbn zeta. fold evs.
  split; [done |]. split; [done |]. split; [done |].
  split; [apply filter_warning_failed_turn, hat_emoji_nonempty |].
  split; [| apply appends_speaking_loop].
  intros Hquiet.
  assert (Hflag1 : flag_raised (session w1) = false).
  { subst w1. unfold flag_raised. cbn [session with_session set_current_hat_info
      _stop_requested _summary_requested].
    apply (delivered_flag_quiet env true evs); [done | done]. }
  assert (Hsucc : speech_succeeded w1 = false).
  { subst w1. unfold delivered, with_session, with_cursor, w0, entering_turn,
      with_speech_succeeded. cbn [speech_succeeded]. subst evs.
    by rewrite existsb_final_failed_turn. }
  assert (Hstep : speaking_loop env total_speeches speeches_per_round i (member_name :: rest) w
                  = speaking_loop env total_speeches speeches_per_round (i + 1) rest w1).
  { rewrite speaking_loop_turn by done. fold w0. unfold bind at 1. rewrite Heq.
    unfold after_member_speak, bind at 1, get_session. rewrite Hflag1.
    unfold bind at 1, get_speech_succeeded. rewrite Hsucc. cbn [andb]. done. }
  split; [done |].
  intros next rest' -> Hnext. rewrite Hstep.
  rewrite speaking_loop_turn by done.
  set (w0' := entering_turn speeches_per_round (i + 1) w1).
  destruct Hnext as [member' Hnext].
  destruct (member_speak_spec env next w0' member' Hnext) as (hat' & hm' & _ & Heq').
  cbn zeta in Heq'. change (_speech_count (session w0')) with (count + 1) in Heq'.
  unfold bind at 1. rewrite Heq'.
  match goal with
  | |- context [after_member_speak ?a ?b ?c ?k ?x] =>
      destruct (appends_after_member_speak a b c k
                  (appends_speaking_loop env total_speeches speeches_per_round rest' (i + 1 + 1)) x)
        as [_ [later Hlater]];
      rewrite Hlater
  end.
  exists hat'. destruct (terminal (stream_result 2 (speak_stream env (count + 1)))).
  - eexists. cbn. rewrite <- !app_assoc. cbn. done.
  - eexists. cbn. rewrite <- !app_assoc. cbn. done.
Qed.

(** C1 as stated fails: a stop flag raised while the opening is streamed
    ends the run at once, with no final summary and the state left at
    RUNNING; a summarize-now flag raised at the same moment leads to the
    final summary, so the two flags are told apart. *)
Lemma stop_during_opening_ends_run :
  (let w := run Scenario.stop_during_opening (init (Scenario.council 2)) in
   state (session w) = RUNNING ∧ state_trace w = [RUNNING] ∧
   final_summaries (history (session w)) = []) ∧
  (let w := run Scenario.summary_during_opening (init (Scenario.council 2)) in
   state (session w) = FINISHED ∧ state_trace w = [RUNNING; SUMMARIZING; FINISHED] ∧
   length (final_summaries (history (session w))) = 1%nat).
Proof. vm_compute. repeat split. Qed.

Lemma final_summary_always_reached_witness :
  let env := Scenario.stop_during_first_speech in
  let s := init (Scenario.council 2) in
  (∀ i : nat, (i < length (fragments (stream_result 5 (opening_stream env))) + 3)%nat →
              stop_at env i = false) ∧
  terminal (stream_result 5 (opening_stream env)) = None ∧
  (∀ k, terminal (stream_result 5 (summary_stream env k)) = None) ∧
  (∀ s', Moderator.raised (moderator_final_summary env s') = None) ∧
  state (session (run env s)) = FINISHED ∧
  state_trace (run env s) = [RUNNING; SUMMARIZING; FINISHED] ∧
  ∃ before final,
    history (session (run env s)) = history s ++ before ++ [final] ∧
    message_type final = FINAL_SUMMARY ∧
    Forall (fun m => message_type m ≠ FINAL_SUMMARY) before.
Proof.
  intros env s.
  assert (H1 : ∀ i : nat, (i < length (fragments (stream_result 5 (opening_stream env))) + 3)%nat
                          → stop_at env i = false).
  { intros i Hi. change (i < 4)%nat in Hi.
    destruct i as [| [| [| [| i]]]]; [reflexivity | reflexivity | reflexivity | reflexivity | lia]. }
  assert (H2 : terminal (stream_result 5 (opening_stream env)) = None) by reflexivity.
  assert (H3 : ∀ k, terminal (stream_result 5 (summary_stream env k)) = None)
    by (intros k; reflexivity).
  assert (H4 : ∀ s', Moderator.raised (moderator_final_summary env s') = None)
    by (intros s'; reflexivity).
  split; [exact H1 |]. split; [exact H2 |]. split; [exact H3 |]. split; [exact H4 |].
  exact (final_summary_always_reached env s H1 H2 H3 H4).
Defined.

Lemma failed_turn_is_skipped_witness :
  let env := Scenario.first_turn_fails in
  let w := started (init (Scenario.council 1)) in
  let e := PyException "APIConnectionError" "Connection error." in
  flag_raised (session w) = false ∧
  (∃ member, dict_get "Bob" (members (session w)) = Some member) ∧
  terminal (stream_result 2 (speak_stream env (_speech_count (session w) + 1))) = Some e ∧
  ∃ hat w1,
    _member_speak env "Bob" (turn_yield env) (entering_turn 2 0 w) = (Val tt, w1) ∧
    history (session w1) = history (session w) ∧
    List.filter is_warning
      (turn_events "Bob" 1 (get_hat_info hat) [] ++ [speech_skipped "Bob" 1 e])
    = [speech_skipped "Bob" 1 e].
Proof.
  intros env w e.
  assert (H1 : flag_raised (session w) = false) by reflexivity.
  assert (H3 : terminal (stream_result 2 (speak_stream env (_speech_count (session w) + 1)))
               = Some e) by reflexivity.
  split; [exact H1 |]. split; [eexists; reflexivity |]. split; [exact H3 |].
  destruct (failed_turn_is_skipped env 2 2 0 "Bob" ["Alice"] w _ e H1 eq_refl H3)
    as (hat & w1 & Hspeak & Hhist & _ & Hwarn & _).
  exists hat, w1. split; [exact Hspeak |]. split; [exact Hhist |]. exact Hwarn.
Defined.

(** C4 at the failing input: the provider refuses the first speech, so the
    first speech recorded is the one of the second turn, drawn without the
    restriction; here it wears the black hat. *)
Theorem first_recorded_speech_may_be_black :
  let w := run Scenario.first_turn_fails (init (Scenario.council 1)) in
  (hat_color <$> first_speech (history (session w))) = Some (hat_value BLACK) ∧
  (BLACK ∉ FIRST_SPEAKER_HATS) ∧
  map ev_content (List.filter is_warning (emitted w))
    = ["⚠️ Bob 發言失敗，已跳過：Connection error."].
Proof.
  split; [vm_compute; reflexivity |]. split; [unfold FIRST_SPEAKER_HATS; not_in_list |].
  vm_compute. reflexivity.
Qed.

(** The restricted draw: made exactly on the turn whose speech counter is 1,
    it always returns, and what it returns is WHITE or GREEN; a speech
    recorded by that turn carries it. *)
Lemma first_turn_hat_restricted (env : Env) (member_name : string) (w : World)
    (member : MemberConfig) :
  dict_get member_name (members (session w)) = Some member →
  _speech_count (session w) = 1 →
  ∃ hat w1,
    hat ∈ FIRST_SPEAKER_HATS ∧
    _member_speak env member_name (turn_yield env) w = (Val tt, w1) ∧
    (history (session w1) = history (session w) ∨
     ∃ text, history (session w1)
             = history (session w) ++ [speech_message member_name member (get_hat_info hat) text]).
Proof.
  intros Hm Hcount.
  destruct (member_speak_spec env member_name w member Hm) as (hat & hm & Hassign & Heq).
  cbn zeta in Heq.
  destruct (assign_hat_returns (draws env (cursor w)) (bool_decide (_speech_count (session w) = 1))
              (_hat_manager (session w))) as (hat' & hm' & Hassign' & Hfirst).
  rewrite Hassign in Hassign'. injection Hassign' as <- <-.
  eexists hat, _. split; [apply Hfirst; by apply bool_decide_eq_true_2 |].
  split; [exact Heq |].
  destruct (terminal (stream_result 2 (speak_stream env (_speech_count (session w))))).
  - by left.
  - right. by eexists.
Qed.

Lemma string_append_nil_r (s : string) : s +:+ "" = s.
Proof.
  induction s as [| c s IH]; [done |].
  change (String c s +:+ "") with (String c (s +:+ "")). by rewrite IH.
Qed.

Lemma string_append_assoc (s t u : string) : (s +:+ t) +:+ u = s +:+ (t +:+ u).
Proof.
  induction s as [| c s IH]; [done |].
  change ((String c s +:+ t) +:+ u) with (String c ((s +:+ t) +:+ u)). by rewrite IH.
Qed.

(** ["".join(a + b) == "".join(a) + "".join(b)] *)
Lemma join_app (a b : list string) :
  String.concat "" (a ++ b) = String.concat "" a +:+ String.concat "" b.
Proof.
  induction a as [| x a IH]; [done |].
  cbn [app]. destruct a as [| y a].
  - cbn [app String.concat]. destruct b as [| z b]; [by rewrite string_append_nil_r |].
    done.
  - cbn [app String.concat] in *. rewrite IH.
    change ("" +:+ (String.concat "" (y :: a) +:+ String.concat "" b))
      with (String.concat "" (y :: a) +:+ String.concat "" b).
    change ("" +:+ String.concat "" (y :: a)) with (String.concat "" (y :: a)).
    by rewrite string_append_assoc.
Qed.

(** C10: when the first attempt of a streamed call ends with a rate-limit
    or provider-status error after some fragments were yielded, and a retry
    remains, the request is sent again and the fragments of the second
    attempt follow those of the first: the consumer holds the delivered
    prefix twice, and the speech [_member_speak] records is the
    concatenation of both. *)
Theorem retried_stream_repeats_fragments (max_retries : Z) (create : Z → StreamAttempt) (e : exn) :
  1 ≤ max_retries →
  failure (create 0) = Some e →
  is_api_status_error e = true →
  failure (create 1) = None →
  let first := attempt_fragments (create 0) in
  let second := attempt_fragments (create 1) in
  requests_of (fst (_stream_chat max_retries create)) = [0; 1] ∧
  fragments_of (fst (_stream_chat max_retries create)) = first ++ second ∧
  snd (_stream_chat max_retries create) = None ∧
  (∀ rest, second = first ++ rest →
     fragments (stream_result max_retries create) = first ++ first ++ rest) ∧
  ∀ (env : Env) (member_name : string) (member : MemberConfig) (w : World),
    dict_get member_name (members (session w)) = Some member →
    speak_stream env (_speech_count (session w)) = create →
    max_retries = 2 →
    ∃ hat w1,
      _member_speak env member_name (turn_yield env) w = (Val tt, w1) ∧
      history (session w1)
      = history (session w)
        ++ [speech_message member_name member (get_hat_info hat)
              (String.concat "" first +:+ String.concat "" second)].
Proof.
  intros Hmax Hfail Hretry Hok first second.
  assert (Hbefore : fails_before failure create 1).
  { intros j Hj. assert (j = 0%nat) as -> by lia. by exists e. }
  pose proof (stream_chat_outcome max_retries 1 create ltac:(lia) Hbefore) as Hstream.
  cbn zeta in Hstream.
  change (Z.of_nat 1) with 1 in Hstream. rewrite Hok in Hstream.
  destruct Hstream as (Hreq & _ & _ & Hres).
  destruct (stream_result_fragments max_retries 1 create) as [Hfr Hterm]; [lia | done | |].
  { intros e' He'. change (Z.of_nat 1) with 1 in He'. congruence. }
  cbn [seq map concat] in Hfr. rewrite app_nil_r in Hfr.
  change (Z.of_nat 0) with 0 in Hfr. change (Z.of_nat 1) with 1 in Hfr, Hterm.
  fold first second in Hfr.
  assert (Hfr' : fragments_of (fst (_stream_chat max_retries create)) = first ++ second).
  { unfold stream_result in Hfr. by destruct (_stream_chat max_retries create). }
  split; [done |]. split; [done |]. split; [done |]. split.
  - intros rest Hrest. by rewrite Hfr, Hrest.
  - intros env member_name member w Hmember Hcreate ->.
    destruct (member_speak_spec env member_name w member Hmember) as (hat & hm & _ & Heq).
    cbn zeta in Heq. rewrite Hcreate, Hterm, Hok, Hfr in Heq.
    eexists hat, _. split; [exact Heq |]. cbn. by rewrite join_app.
Qed.

Lemma retried_stream_repeats_fragments_witness :
  1 ≤ 2 ∧
  failure (flaky_stream 0) = Some (APIStatusError "502") ∧
  is_api_status_error (APIStatusError "502") = true ∧
  failure (flaky_stream 1) = None ∧
  fragments (stream_result 2 flaky_stream) = ["I think "; "I think "; "so."].
Proof.
  assert (H0 : 1 ≤ 2) by lia.
  assert (H1 : failure (flaky_stream 0) = Some (APIStatusError "502")) by reflexivity.
  assert (H2 : is_api_status_error (APIStatusError "502") = true) by reflexivity.
  assert (H3 : failure (flaky_stream 1) = None) by reflexivity.
  split; [exact H0 |]. split; [exact H1 |]. split; [exact H2 |]. split; [exact H3 |].
  destruct (retried_stream_repeats_fragments 2 flaky_stream _ H0 H1 H2 H3)
    as (_ & _ & _ & Hdup & _).
  apply (Hdup ["so."]). reflexivity.
Defined.

(** The same in a whole run: the speech recorded for the interrupted turn
    holds its first words twice. *)
Lemma interrupted_speech_is_recorded_twice :
  let w := run Scenario.interrupted_speech (init (Scenario.council 1)) in
  (Models.content <$> first_speech (history (session w))) = Some "I think I think so.".
Proof. vm_compute. reflexivity. Qed.

Lemma shuffled_rounds_lookup (draws : nat → nat) (names : list string) (rounds : nat) :
  ∀ (cursor k : nat), (k < rounds)%nat →
    shuffled_rounds draws cursor rounds names !! k
    = Some (random_shuffle (round_draws draws cursor names k) names).
Proof.
  induction rounds as [| rounds IH]; intros cursor k Hk; [lia |].
  cbn [shuffled_rounds]. destruct k as [| k].
  - cbn. unfold round_draws. by rewrite Nat.add_0_r.
  - cbn [lookup list_lookup]. rewrite IH by lia. unfold round_draws. do 4 f_equal. lia.
Qed.

Lemma length_concat_perms (names : list string) (perms : list (list string)) :
  Forall (fun round => round ≡ₚ names) perms →
  length (concat perms) = (length perms * length names)%nat.
Proof.
  induction 1 as [| round perms Hp _ IH]; [done |].
  cbn [concat length]. rewrite length_app, IH, (Permutation_length Hp). lia.
Qed.

(** C8: the speaking order is built in one go, before the speaking loop:
    it is the concatenation of [total_rounds] shuffles of the member names,
    each a permutation of them made with its own fresh values of the random
    generator, so its length is participants times rounds and it is a
    function of the random values alone; nothing removes a repeat across a
    round boundary (last conjunct: Alice closes round 1 and opens round 2). *)
Theorem speaking_order_is_concatenated_shuffles (env : Env) (names : list string)
    (total_rounds : Z) (w : World) :
  0 ≤ total_rounds →
  let rounds := Z.to_nat total_rounds in
  let perms := shuffled_rounds (draws env) (cursor w) rounds names in
  build_speaking_order env (py_range total_rounds) names [] w
    = (Val (concat perms), with_cursor (cursor w + rounds * shuffle_cost names)%nat w) ∧
  length perms = rounds ∧
  Forall (fun round => round ≡ₚ names) perms ∧
  (∀ k : nat, (k < rounds)%nat →
     perms !! k = Some (random_shuffle (round_draws (draws env) (cursor w) names k) names)) ∧
  Z.of_nat (length (concat perms)) = Z.of_nat (length names) * total_rounds ∧
  concat (shuffled_rounds (fun n => n) 0 2 ["Alice"; "Bob"]) = ["Bob"; "Alice"; "Alice"; "Bob"].
Proof.
  intros Hrounds rounds perms.
  assert (Hlen : length (py_range total_rounds) = rounds).
  { unfold py_range. by rewrite length_map, length_seq. }
  split; [by rewrite build_speaking_order_spec, Hlen |].
  split; [apply shuffled_rounds_length |].
  split; [apply shuffled_rounds_perm |].
  split; [intros k Hk; by apply shuffled_rounds_lookup |].
  split; [| reflexivity].
  rewrite (length_concat_perms names); [| apply shuffled_rounds_perm].
  subst perms. rewrite shuffled_rounds_length. subst rounds. lia.
Qed.

Lemma speaking_order_is_concatenated_shuffles_witness :
  let env := Scenario.first_turn_fails in
  let w := started (init (Scenario.council 2)) in
  0 ≤ 2 ∧
  build_speaking_order env (py_range 2) ["Alice"; "Bob"] [] w
    = (Val (concat (shuffled_rounds (draws env) (cursor w) (Z.to_nat 2) ["Alice"; "Bob"])),
       with_cursor (cursor w + Z.to_nat 2 * shuffle_cost ["Alice"; "Bob"])%nat w) ∧
  Z.of_nat (length (concat (shuffled_rounds (draws env) (cursor w) (Z.to_nat 2) ["Alice"; "Bob"])))
    = Z.of_nat (length ["Alice"; "Bob"]) * 2.
Proof.
  intros env w.
  assert (H0 : 0 ≤ 2) by lia.
  split; [exact H0 |].
  destruct (speaking_order_is_concatenated_shuffles env ["Alice"; "Bob"] 2 w H0)
    as (Hbuild & _ & _ & _ & Hlen & _).
  split; [exact Hbuild | exact Hlen].
Defined.

Lemma moderator_final_summary_unfold (env : Env) (s : Session) :
  moderator_final_summary env s
  = Moderator._chat_with_optional_search (runtime env) (search_service env)
      (final_tools_reply env) (final_stream env) false (final_summary_messages env s) 1000 5.
Proof. done. Qed.


Lemma select_next_speaker_in_remaining_witness :
  ["Alice"; "Bob"] ≠ [] ∧
  Moderator.select_next_speaker Scenario.runtime (Scenario.plain_reply "  I pick BOB. ")
    "topic" [] ["Alice"; "Bob"] 1 2 = Returned "Bob" ∧
  Moderator.select_next_speaker Scenario.runtime (Scenario.plain_reply "Carol")
    "topic" [] ["Alice"; "Bob"] 1 2 = Returned "Alice" ∧
  "Bob" ∈ ["Alice"; "Bob"].
Proof.
  assert (H0 : ["Alice"; "Bob"] ≠ []) by discriminate.
  split; [exact H0 |]. split; [reflexivity |]. split; [reflexivity |].
  pose proof (select_next_speaker_in_remaining Scenario.runtime
                (Scenario.plain_reply "  I pick BOB. ") "topic" [] ["Alice"; "Bob"] 1 2 H0)
    as H.
  change (Moderator.select_next_speaker Scenario.runtime (Scenario.plain_reply "  I pick BOB. ")
            "topic" [] ["Alice"; "Bob"] 1 2) with (@Returned string "Bob") in H.
  exact (proj1 H).
Defined.



Lemma list_swap_length {A : Type} (i j : nat) (x : list A) :
  length (list_swap i j x) = length x.
Proof.
  unfold list_swap. destruct (x !! i); [| done]. destruct (x !! j); [| done].
  by rewrite !length_insert.
Qed.

Lemma list_swap_lookup_other {A : Type} (i j k : nat) (x : list A) :
  k ≠ i → k ≠ j → list_swap i j x !! k = x !! k.
Proof.
  intros Hi Hj. unfold list_swap. destruct (x !! i); [| done]. destruct (x !! j); [| done].
  by rewrite !list_lookup_insert_ne.
Qed.

Lemma list_swap_lookup_first {A : Type} (i j : nat) (x : list A) :
  (i < length x)%nat → (j < length x)%nat → list_swap i j x !! i = x !! j.
Proof.
  intros Hi Hj. unfold list_swap.
  destruct (lookup_lt_is_Some_2 x i Hi) as [xi Hxi].
  destruct (lookup_lt_is_Some_2 x j Hj) as [xj Hxj]. rewrite Hxi, Hxj.
  destruct (decide (i = j)) as [<- | Hne].
  - rewrite list_lookup_insert_eq by (by rewrite length_insert). congruence.
  - rewrite list_lookup_insert_ne by done. by rewrite list_lookup_insert_eq.
Qed.

Lemma shuffle_from_length {A : Type} (i : nat) : ∀ (draws : list nat) (x : list A),
  length (shuffle_from i draws x) = length x.
Proof.
  induction i as [| i IH]; intros draws x; [done |].
  cbn [shuffle_from]. destruct draws as [| r draws]; [done |].
  by rewrite IH, list_swap_length.
Qed.

Lemma shuffle_from_above {A : Type} (i : nat) : ∀ (draws : list nat) (x : list A) (k : nat),
  (i < k)%nat → shuffle_from i draws x !! k = x !! k.
Proof.
  induction i as [| i IH]; intros draws x k Hk; [done |].
  cbn [shuffle_from]. destruct draws as [| r draws]; [done |].
  rewrite IH by lia. apply list_swap_lookup_other; [lia |].
  pose proof (Nat.mod_upper_bound r (S i + 1)). lia.
Qed.

(** Two runs of the shuffle that end with the same order made the same
    exchanges: each order comes from one sequence of choices only, so
    choices drawn uniformly give every order the same chance. *)
Lemma shuffle_from_injective {A : Type} (i : nat) : ∀ (draws draws' : list nat) (x : list A),
  NoDup x → (i < length x)%nat → length draws = i → length draws' = i →
  shuffle_from i draws x = shuffle_from i draws' x →
  shuffle_choices i draws = shuffle_choices i draws'.
Proof.
  induction i as [| i IH]; intros draws draws' x Hnd Hi Hl Hl' Heq; [done |].
  destruct draws as [| r draws]; [done |]. destruct draws' as [| r' draws']; [done |].
  cbn [shuffle_from shuffle_choices] in *.
  set (j := (r mod (S i + 1))%nat) in *. set (j' := (r' mod (S i + 1))%nat) in *.
  assert (Hj : (j < length x)%nat) by (pose proof (Nat.mod_upper_bound r (S i + 1)); lia).
  assert (Hj' : (j' < length x)%nat) by (pose proof (Nat.mod_upper_bound r' (S i + 1)); lia).
  assert (Hsame : x !! j = x !! j').
  { assert (H1 : shuffle_from i draws (list_swap (S i) j x) !! S i = x !! j).
    { rewrite shuffle_from_above by lia. by apply list_swap_lookup_first. }
    assert (H2 : shuffle_from i draws' (list_swap (S i) j' x) !! S i = x !! j').
    { rewrite shuffle_from_above by lia. by apply list_swap_lookup_first. }
    rewrite Heq in H1. congruence. }
  assert (Hjj : j = j').
  { destruct (lookup_lt_is_Some_2 x j Hj) as [a Ha].
    eapply NoDup_lookup; [exact Hnd | exact Ha | congruence]. }
  rewrite <- Hjj in *. f_equal.
  apply (IH draws draws' (list_swap (S i) j x)).
  - by rewrite list_swap_perm.
  - rewrite list_swap_length. lia.
  - cbn in Hl. lia.
  - cbn in Hl'. lia.
  - done.
Qed.

Lemma random_shuffle_injective (draws draws' : list nat) (names : list string) :
  NoDup names →
  length draws = shuffle_cost names → length draws' = shuffle_cost names →
  random_shuffle draws names = random_shuffle draws' names →
  shuffle_choices (shuffle_cost names) draws = shuffle_choices (shuffle_cost names) draws'.
Proof.
  unfold random_shuffle, shuffle_cost. intros Hnd Hl Hl' Heq.
  destruct names as [| n names].
  - done.
  - apply (shuffle_from_injective _ draws draws' (n :: names)); try done. cbn. lia.
Qed.

Lemma count_type_app (t : MessageType) (l1 l2 : list Message) :
  count_type t (l1 ++ l2) = (count_type t l1 + count_type t l2)%nat.
Proof. unfold count_type. by rewrite List.filter_app, length_app. Qed.

Lemma within_refl (bound : MessageType → nat) (w : World) : within bound w w.
Proof.
  repeat split. exists []. split; [by rewrite app_nil_r |]. intros t. cbn. lia.
Qed.

Lemma within_trans (b1 b2 : MessageType → nat) (w1 w2 w3 : World) :
  within b1 w1 w2 → within b2 w2 w3 → within (bound_plus b1 b2) w1 w3.
Proof.
  intros (Hc1 & Hm1 & Hs1 & Ht1 & a1 & Ha1 & Hb1) (Hc2 & Hm2 & Hs2 & Ht2 & a2 & Ha2 & Hb2).
  repeat split; try congruence.
  exists (a1 ++ a2). split; [by rewrite Ha2, Ha1, app_assoc |].
  intros t. rewrite count_type_app. unfold bound_plus. specialize (Hb1 t). specialize (Hb2 t). lia.
Qed.

Lemma within_weaken (b b' : MessageType → nat) (w w' : World) :
  (∀ t, (b t ≤ b' t)%nat) → within b w w' → within b' w w'.
Proof.
  intros Hle (Hc & Hm & Hs & Ht & a & Ha & Hb). repeat split; try done.
  exists a. split; [done |]. intros t. specialize (Hb t). specialize (Hle t). lia.
Qed.

Lemma sw_weaken {A : Type} (r : bool) (b b' : MessageType → nat) (m : M A) :
  (∀ t, (b t ≤ b' t)%nat) → stays_within r b m → stays_within r b' m.
Proof.
  intros Hle Hm w. destruct (Hm w) as [Hw Hr]. split; [by eapply within_weaken | done].
Qed.

Lemma sw_ret {A : Type} (r : bool) (a : A) : stays_within r no_messages (ret a).
Proof. intros w. split; [apply within_refl | done]. Qed.

Lemma sw_raise {A : Type} (r : bool) (e : exn) : stays_within r no_messages (@raise A e).
Proof. intros w. split; [apply within_refl | done]. Qed.

Lemma sw_bind {A B : Type} (r : bool) (b1 b2 : MessageType → nat) (m : M A) (k : A → M B) :
  stays_within r b1 m → (∀ a, stays_within r b2 (k a)) →
  stays_within r (bound_plus b1 b2) (bind m k).
Proof.
  intros Hm Hk w. unfold bind. destruct (Hm w) as [Hw Hr].
  destruct (m w) as [[a | e |] w1]; cbn [fst snd] in *.
  - destruct (Hk a w1) as [Hw1 Hr1]. split; [by eapply within_trans | done].
  - split; [| done]. eapply within_weaken; [| done]. intros t. unfold bound_plus. lia.
  - split; [| intros _; by apply Hr]. eapply within_weaken; [| done].
    intros t. unfold bound_plus. lia.
Qed.

Lemma sw_try_except {A : Type} (r : bool) (b1 b2 : MessageType → nat)
    (body : M A) (handler : exn → M A) :
  stays_within r b1 body → (∀ e, stays_within r b2 (handler e)) →
  stays_within r (bound_plus b1 b2) (try_except body handler).
Proof.
  intros Hb Hh w. unfold try_except. destruct (Hb w) as [Hw Hr].
  destruct (body w) as [[a | e |] w1]; cbn [fst snd] in *.
  - split; [| done]. eapply within_weaken; [| done]. intros t. unfold bound_plus. lia.
  - destruct (Hh e w1) as [Hw1 Hr1]. split; [by eapply within_trans | done].
  - split; [| exact Hr]. eapply within_weaken; [| done]. intros t. unfold bound_plus. lia.
Qed.

(** Steps that add nothing one after the other add nothing. *)
Lemma sw_then {A B : Type} (r : bool) (b : MessageType → nat) (m : M A) (k : A → M B) :
  stays_within r no_messages m → (∀ a, stays_within r b (k a)) → stays_within r b (bind m k).
Proof.
  intros Hm Hk. eapply sw_weaken; [| by apply sw_bind]. intros t. unfold bound_plus, no_messages. lia.
Qed.

Lemma sw_for_each {A : Type} (r : bool) (l : list A) (body : A → M unit) :
  (∀ x, stays_within r no_messages (body x)) → stays_within r no_messages (for_each l body).
Proof.
  intros Hb. induction l as [| x l IH]; cbn [for_each]; [apply sw_ret |].
  apply sw_then; [apply Hb | by intros _].
Qed.

Lemma sw_for_chunks (r : bool) (sr : StreamResult) (body : string → M unit) :
  (∀ x, stays_within r no_messages (body x)) → stays_within r no_messages (for_chunks sr body).
Proof.
  intros Hb. unfold for_chunks. apply sw_then; [by apply sw_for_each |].
  intros _. destruct (terminal sr); [apply sw_raise | apply sw_ret].
Qed.

Lemma sw_modify_session (r : bool) (f : Session → Session) :
  (∀ s, config (f s) = config s ∧ members (f s) = members s ∧ state (f s) = state s
        ∧ history (f s) = history s) →
  stays_within r no_messages (modify_session f).
Proof.
  intros Hf w. destruct (Hf (session w)) as (Hc & Hm & Hs & Hh).
  split; [| done]. repeat split; cbn; try done.
  exists []. split; [by rewrite Hh, app_nil_r |]. intros t. cbn. lia.
Qed.

Lemma count_type_singleton (t : MessageType) (m : Message) :
  (count_type t [m] ≤ one_message (message_type m) t)%nat.
Proof.
  unfold count_type, one_message. cbn [List.filter].
  destruct (decide (t = message_type m)) as [-> | Hne].
  - rewrite bool_decide_eq_true_2 by done. cbn. lia.
  - rewrite bool_decide_eq_false_2 by done. cbn. lia.
Qed.

Lemma sw_add_message (r : bool) (role : Role) (content speaker_name : string)
    (message_type : MessageType) (model_id hat_color hat_name : string) :
  stays_within r (one_message message_type)
    (_add_message role content speaker_name message_type model_id hat_color hat_name).
Proof.
  intros w. split; [| done]. repeat split; cbn; try done.
  eexists. split; [done |]. intros t. apply count_type_singleton.
Qed.

Lemma sw_yield (r : bool) (env : Env) (ev : SessionEvent) :
  stays_within r no_messages (yield_ env ev).
Proof.
  intros w. split; [| done]. repeat split; cbn; try done.
  exists []. split; [by rewrite app_nil_r |]. intros t. cbn. lia.
Qed.

Lemma sw_get_session (r : bool) : stays_within r no_messages get_session.
Proof. intros w. split; [apply within_refl | done]. Qed.

Lemma sw_opening_yield (env : Env) (ev : SessionEvent) :
  stays_within true no_messages (opening_yield env ev).
Proof.
  intros w. unfold opening_yield, bind. destruct (sw_yield true env ev w) as [Hw _].
  rewrite yield_delivered in *. cbn [snd] in Hw. unfold get_session.
  destruct (_stop_requested (session (delivered env false [ev] w))) eqn:Hstop.
  - split; [done |]. intros _. by split.
  - split; [done | done].
Qed.

(** A step that leaves the session object alone. *)
Lemma sw_same_session {A : Type} (r : bool) (m : M A) :
  (∀ w, session (snd (m w)) = session w ∧ state_trace (snd (m w)) = state_trace w
        ∧ fst (m w) ≠ Ret) →
  stays_within r no_messages m.
Proof.
  intros Hm w. destruct (Hm w) as (Hs & Ht & Hr). split; [| done].
  unfold within. rewrite Hs, Ht. repeat split; try done.
  exists []. split; [by rewrite app_nil_r |]. intros t. cbn. lia.
Qed.

Lemma sw_turn_yield (r : bool) (env : Env) (ev : SessionEvent) :
  stays_within r no_messages (turn_yield env ev).
Proof.
  unfold turn_yield. apply sw_then; [apply sw_yield | intros _].
  destruct (is_final_member ev); [| apply sw_ret].
  by apply sw_same_session.
Qed.

Ltac sw_bound := let t := fresh in intros t; destruct t; vm_compute; lia.

Lemma sw_moderator_opening (r : bool) (env : Env) (yield_event : SessionEvent → M unit) :
  (∀ ev, stays_within r no_messages (yield_event ev)) →
  stays_within r (one_message OPENING) (_moderator_opening env yield_event).
Proof.
  intros Hy. unfold _moderator_opening.
  apply sw_then; [apply sw_get_session | intros s].
  apply sw_then; [apply Hy | intros _].
  apply sw_then; [by apply sw_for_chunks | intros _].
  eapply sw_weaken; [| apply sw_bind; [apply sw_add_message | intros _; apply Hy]].
  sw_bound.
Qed.

Lemma sw_member_speak (r : bool) (env : Env) (member_name : string)
    (yield_event : SessionEvent → M unit) :
  (∀ ev, stays_within r no_messages (yield_event ev)) →
  stays_within r (one_message SPEECH) (_member_speak env member_name yield_event).
Proof.
  intros Hy. unfold _member_speak.
  apply sw_then; [apply sw_get_session | intros s].
  destruct (dict_get member_name (members s));
    [| eapply sw_weaken; [| apply sw_raise]; sw_bound].
  apply sw_then; [by apply sw_same_session | intros rnd].
  destruct (assign_hat rnd _ _) as [[hat | e] hm].
  - apply sw_then; [by apply sw_modify_session | intros _].
    apply sw_then; [by apply sw_modify_session | intros _].
    apply sw_then; [apply Hy | intros _].
    apply sw_then; [apply Hy | intros _].
    apply sw_then.
    + eapply sw_weaken; cycle 1.
      { apply sw_try_except.
        - apply sw_then; [by apply sw_for_chunks | intros _; apply sw_ret].
        - intros e. apply sw_then; [apply Hy | intros _].
          apply sw_then; [by apply sw_modify_session | intros _; apply sw_ret]. }
      sw_bound.
    + intros [|]; [| eapply sw_weaken; [| apply sw_ret]; sw_bound].
      eapply sw_weaken; [| apply sw_bind; [apply sw_add_message | intros _; apply Hy]].
      sw_bound.
  - apply sw_then; [by apply sw_modify_session | intros _].
    eapply sw_weaken; [| apply sw_raise]. sw_bound.
Qed.

Lemma sw_after_speech_summary (r : bool) (env : Env) (yield_event : SessionEvent → M unit) :
  (∀ ev, stays_within r no_messages (yield_event ev)) →
  stays_within r (one_message ROUND_SUMMARY) (_after_speech_summary env yield_event).
Proof.
  intros Hy. unfold _after_speech_summary.
  apply sw_then; [apply sw_get_session | intros s].
  destruct (last_speech (history s)); [| eapply sw_weaken; [| apply sw_ret]; sw_bound].
  apply sw_then; [apply Hy | intros _].
  apply sw_then; [by apply sw_for_chunks | intros _].
  apply sw_then; [by apply sw_modify_session | intros _].
  eapply sw_weaken; [| apply sw_bind; [apply sw_add_message | intros _; apply Hy]].
  sw_bound.
Qed.

Lemma sw_after_member_speak (r : bool) (b : MessageType → nat) (env : Env)
    (total_speeches i : Z) (continue : M unit) :
  stays_within r b continue →
  stays_within r (bound_plus (one_message ROUND_SUMMARY) b)
    (after_member_speak env total_speeches i continue).
Proof.
  intros Hc. unfold after_member_speak.
  apply sw_then; [apply sw_get_session | intros s'].
  destruct (flag_raised s').
  { eapply sw_weaken; [| apply sw_ret]. intros t. unfold no_messages. lia. }
  apply sw_then; [by apply sw_same_session | intros succeeded].
  apply sw_bind; [| by intros _].
  destruct (succeeded && _).
  - apply sw_after_speech_summary. intros ev. apply sw_yield.
  - eapply sw_weaken; [| apply sw_ret]. intros t. unfold no_messages. lia.
Qed.

Lemma sw_speaking_loop (r : bool) (env : Env) (total_speeches speeches_per_round : Z)
    (speaking_order : list string) :
  ∀ i, stays_within r (turn_bound (length speaking_order))
         (speaking_loop env total_speeches speeches_per_round i speaking_order).
Proof.
  induction speaking_order as [| member_name rest IH]; intros i; cbn [speaking_loop].
  { eapply sw_weaken; [| apply sw_ret]. intros t. unfold no_messages. lia. }
  apply sw_then; [apply sw_get_session | intros s].
  destruct (flag_raised s).
  { eapply sw_weaken; [| apply sw_ret]. intros t. unfold no_messages. lia. }
  apply sw_then; [by apply sw_modify_session | intros _].
  apply sw_then; [by apply sw_modify_session | intros _].
  apply sw_then; [by apply sw_same_session | intros _].
  eapply sw_weaken;
    [| apply sw_bind;
       [apply sw_member_speak; intros ev; apply sw_turn_yield
       | intros _; apply sw_after_member_speak, (IH (i + 1))]].
  intros t. unfold bound_plus, one_message, turn_bound. cbn [length].
  destruct t; repeat case_decide; try done; lia.
Qed.

Lemma run_body_split (env : Env) (w : World) :
  run_body env w
  = (before_summary env ;; _final_summary env (yield_ env) ;; assign_state FINISHED) w.
Proof.
  unfold run_body, before_summary, bind.
  repeat match goal with
         | |- context [match ?x with _ => _ end] =>
             lazymatch x with
             | (_, _) => fail
             | _ => destruct x as [[? | ? |] ?]
             end
         end; reflexivity.
Qed.

Lemma shuffled_rounds_total (draws : nat → nat) (cursor rounds : nat) (names : list string) :
  length (concat (shuffled_rounds draws cursor rounds names)) = (rounds * length names)%nat.
Proof.
  rewrite (length_concat_perms names); [| apply shuffled_rounds_perm].
  by rewrite shuffled_rounds_length.
Qed.

(** Up to the final summary a run leaves [self.state] at RUNNING and adds
    one opening and, for each scheduled turn, at most one speech and one
    after-speech summary; only the loop over the opening can end it with
    [return], the stop flag being raised. *)
Lemma before_summary_within (env : Env) (w : World) :
  ∃ (r : result unit) (w' : World),
    before_summary env w = (r, w') ∧
    within (bound_plus (one_message OPENING) (turn_bound (scheduled_turns (session w)))) w w' ∧
    (r = Ret → _stop_requested (session w') = true).
Proof.
  unfold before_summary, bind at 1. rewrite yield_delivered.
  set (w0 := delivered env false _ w).
  assert (H0 : within no_messages w w0).
  { subst w0. destruct (sw_yield true env (system_event "討論開始" 0 "" "") w) as [H _].
    by rewrite yield_delivered in H. }
  assert (Hturns : scheduled_turns (session w0) = scheduled_turns (session w)).
  { destruct H0 as (Hc & Hm & _). unfold scheduled_turns, member_names. by rewrite Hc, Hm. }
  unfold bind at 1.
  destruct (sw_moderator_opening true env (opening_yield env) (sw_opening_yield env) w0)
    as [H1 Hr1].
  destruct (_moderator_opening env (opening_yield env) w0) as [[[] | e |] w1];
    cbn [fst snd] in *.
  - unfold bind at 1, get_session. unfold bind at 1. rewrite build_speaking_order_spec.
    set (order := [] ++ _). set (w1' := with_cursor _ w1).
    assert (H1' : within no_messages w1 w1').
    { repeat split. exists []. split; [by rewrite app_nil_r |]. intros t. cbn. lia. }
    match goal with
    | |- context [speaking_loop env ?total ?per 0 order w1'] =>
        destruct (sw_speaking_loop false env total per order 0 w1') as [H2 Hr2];
        destruct (speaking_loop env total per 0 order w1') as [r w2]
    end.
    cbn [fst snd] in *.
    assert (Hlen : length order = scheduled_turns (session w)).
    { subst order. rewrite app_nil_l, shuffled_rounds_total.
      unfold py_range. rewrite length_map, length_seq. rewrite <- Hturns.
      destruct H1 as (Hc & Hm & _). unfold scheduled_turns, member_names. by rewrite Hc, Hm. }
    rewrite Hlen in H2. exists r, w2. split; [done |]. split.
    + eapply within_weaken;
        [| exact (within_trans _ _ _ _ _ H0
                    (within_trans _ _ _ _ _ H1 (within_trans _ _ _ _ _ H1' H2)))].
      intros t. unfold bound_plus, no_messages. lia.
    + intros Hret. by destruct (Hr2 Hret).
  - eexists _, _. split; [done |]. split; [| done].
    eapply within_weaken; [| exact (within_trans _ _ _ _ _ H0 H1)].
    intros t. unfold bound_plus, no_messages. lia.
  - eexists _, _. split; [done |]. split; [| intros _; by apply Hr1].
    eapply within_weaken; [| exact (within_trans _ _ _ _ _ H0 H1)].
    intros t. unfold bound_plus, no_messages. lia.
Qed.

(** The world a run leaves, from the way the run went up to the final
    summary. *)
Lemma run_from_before_summary (env : Env) (s : Session) (r : result unit) (w1 : World) :
  before_summary env (started s) = (r, w1) →
  run env s =
    match r with
    | Val _ =>
        let w2 := with_state SUMMARIZING w1 in
        let f := moderator_final_summary env (session w2) in
        match Moderator.raised f with
        | Some e =>
            with_state IDLE
              (delivered env false [error_event e]
                 (delivered env false
                    (final_summary_events (session w2) (Moderator.yielded (Moderator.log f)))
                    w2))
        | None => summarized env w1
        end
    | Exc e => with_state IDLE (delivered env false [error_event e] w1)
    | Ret => w1
    end.
Proof.
  intros Heq. rewrite run_unfold. unfold try_except. rewrite run_body_split.
  unfold bind at 1. rewrite Heq. destruct r as [[] | e |].
  - unfold bind at 1. rewrite final_summary_spec. cbn zeta.
    destruct (Moderator.raised _) as [e |].
    + unfold bind. rewrite yield_delivered, assign_state_with_state. done.
    + rewrite assign_state_with_state. done.
  - unfold bind. rewrite yield_delivered, assign_state_with_state. done.
  - done.
Qed.

(** How a run ends, from the world [w1] reached before the final summary. *)
Lemma run_ends (env : Env) (s : Session) :
  ∃ w1 : World,
    within (bound_plus (one_message OPENING) (turn_bound (scheduled_turns s))) (started s) w1 ∧
    ((∃ e, run env s = with_state IDLE (delivered env false [error_event e] w1))
     ∨ (_stop_requested (session w1) = true ∧ run env s = w1)
     ∨ (let w2 := with_state SUMMARIZING w1 in
        let f := moderator_final_summary env (session w2) in
        match Moderator.raised f with
        | Some e =>
            run env s
            = with_state IDLE
                (delivered env false [error_event e]
                   (delivered env false
                      (final_summary_events (session w2) (Moderator.yielded (Moderator.log f)))
                      w2))
        | None => run env s = summarized env w1
        end)).
Proof.
  destruct (before_summary_within env (started s)) as (r & w1 & Heq & H1 & Hr).
  exists w1. split; [exact H1 |].
  rewrite (run_from_before_summary env s r w1 Heq).
  destruct r as [[] | e |].
  - right. right. cbn zeta. by destruct (Moderator.raised _).
  - left. by exists e.
  - right. left. split; [by apply Hr | done].
Qed.

(** X10: Whatever the provider, the random generator and the consumer do, a run
    of [Session.run] ends in one of four ways, which the values assigned to
    [self.state] tell apart:
    - RUNNING, SUMMARIZING, FINISHED: the final summary was made and is the
      last entry of the history;
    - RUNNING alone: the loop over the opening returned, and the stop flag is
      raised;
    - RUNNING, IDLE or RUNNING, SUMMARIZING, IDLE: an exception [e] was
      caught, and the last event yielded is the one that reports it.
    The state is never left at SUMMARIZING, and never FINISHED without a
    final summary. *)
Theorem run_state_transitions (env : Env) (s : Session) :
  let w := run env s in
  (state_trace w = [RUNNING; SUMMARIZING; FINISHED] ∧ state (session w) = FINISHED ∧
   ∃ final, last (history (session w)) = Some final ∧ message_type final = FINAL_SUMMARY)
  ∨ (state_trace w = [RUNNING] ∧ state (session w) = RUNNING ∧
     _stop_requested (session w) = true)
  ∨ (∃ e, (state_trace w = [RUNNING; IDLE] ∨ state_trace w = [RUNNING; SUMMARIZING; IDLE]) ∧
          state (session w) = IDLE ∧
          last (emitted w) = Some (error_event e)).
Proof.
  cbn zeta.
  destruct (run_ends env s) as (w1 & (_ & _ & Hs & Ht & _) & Hcases).
  change (state_trace (started s)) with [RUNNING] in Ht.
  change (state (session (started s))) with RUNNING in Hs.
  destruct Hcases as [(e & ->) | [(Hstop & ->) | Hfinal]].
  - right. right. exists e. split; [left; cbn; by rewrite Ht |].
    split; [done |]. cbn. by rewrite last_snoc.
  - right. left. done.
  - cbn zeta in Hfinal.
    destruct (Moderator.raised _) as [e |]; rewrite Hfinal.
    + right. right. exists e. split; [right; cbn; by rewrite Ht |].
      split; [done |]. cbn. by rewrite last_snoc.
    + left. split; [cbn; by rewrite Ht |]. split; [done |].
      eexists. cbn. by rewrite last_snoc.
Qed.

(** X11: Whatever happens, a run adds to the history at most one opening, at
    most one final summary, no search result, and at most one speech and
    one after-speech summary per scheduled turn (members times rounds). *)
Theorem run_adds_bounded_history (env : Env) (s : Session) :
  ∃ added,
    history (session (run env s)) = history s ++ added ∧
    (count_type OPENING added ≤ 1)%nat ∧
    (count_type FINAL_SUMMARY added ≤ 1)%nat ∧
    count_type SEARCH_RESULT added = O ∧
    (count_type SPEECH added ≤ scheduled_turns s)%nat ∧
    (count_type ROUND_SUMMARY added ≤ scheduled_turns s)%nat ∧
    Z.of_nat (scheduled_turns s)
    = Z.of_nat (length (member_names s)) * Z.max 0 (total_rounds (config s)).
Proof.
  assert (Hle : ∀ t, (bound_plus (bound_plus (one_message OPENING)
                                    (turn_bound (scheduled_turns s)))
                        (one_message FINAL_SUMMARY) t ≤ run_bound s t)%nat).
  { intros t. unfold bound_plus, one_message, turn_bound, run_bound.
    destruct t; repeat case_decide; try done; lia. }
  assert (Hmain : ∃ added, history (session (run env s)) = history s ++ added ∧
                           ∀ t, (count_type t added ≤ run_bound s t)%nat).
  { destruct (run_ends env s) as (w1 & (_ & _ & _ & _ & a1 & Ha1 & Hb1) & Hcases).
    change (history (session (started s))) with (history s) in Ha1.
    assert (Hquiet : ∃ added, history (session w1) = history s ++ added ∧
                               ∀ t, (count_type t added ≤ run_bound s t)%nat).
    { exists a1. split; [done |]. intros t. specialize (Hb1 t). specialize (Hle t).
      unfold bound_plus in *. lia. }
    destruct Hcases as [(e & ->) | [(_ & ->) | Hfinal]]; [done | done |].
    cbn zeta in Hfinal. destruct (Moderator.raised _) as [e |]; rewrite Hfinal; [done |].
    eexists. cbn. rewrite Ha1, <- app_assoc. split; [done |].
    intros t. rewrite count_type_app. specialize (Hb1 t). specialize (Hle t).
    match goal with
    | |- context [count_type t [?m]] => pose proof (count_type_singleton t m) as H1
    end.
    cbn [message_type moderator_message] in H1. unfold bound_plus in *. lia. }
  destruct Hmain as (added & Ha & Hb). exists added. split; [done |].
  pose proof (Hb OPENING). pose proof (Hb FINAL_SUMMARY). pose proof (Hb SEARCH_RESULT).
  pose proof (Hb SPEECH). pose proof (Hb ROUND_SUMMARY). cbn [run_bound] in *.
  repeat split; try lia. unfold scheduled_turns. lia.
Qed.

Lemma existsb_orb {A : Type} (f g : A → bool) (l : list A) :
  existsb (fun x => f x || g x) l = existsb f l || existsb g l.
Proof.
  induction l as [| x l IH]; [done |]. cbn [existsb]. rewrite IH.
  destruct (f x), (g x), (existsb f l), (existsb g l); done.
Qed.

Lemma delivered_flag_raised (env : Env) (track : bool) (evs : list SessionEvent) (w : World) :
  flag_raised (session (delivered env track evs w))
  = flag_raised (session w) || existsb (flag_at env) (indices_of w evs).
Proof.
  unfold flag_raised, delivered, flag_at. cbn. rewrite existsb_orb.
  destruct (_stop_requested (session w)), (_summary_requested (session w)),
    (existsb (stop_at env) (indices_of w evs)), (existsb (summary_at env) (indices_of w evs));
    done.
Qed.

Lemma flag_raised_set_current_hat_info (v : option HatInfo) (s : Session) :
  flag_raised (set_current_hat_info v s) = flag_raised s.
Proof. done. Qed.

Lemma flag_raised_set_history (v : list Message) (s : Session) :
  flag_raised (set_history v s) = flag_raised s.
Proof. done. Qed.

Lemma existsb_seq_true (f : nat → bool) (a n j : nat) :
  (a ≤ j < a + n)%nat → f j = true → existsb f (seq a n) = true.
Proof.
  intros Hj Hf. apply existsb_exists. exists j. split; [| done]. apply in_seq. lia.
Qed.

(** X12: Cancellation is cooperative: when the consumer raises the stop or the
    summarize-now flag while it holds any event of a turn, the turn still
    runs to its end: every event of the turn is yielded, the speech, if the
    provider delivered it, is recorded; then the loop ends, with no
    after-speech summary and no further turn. *)
Theorem flag_takes_effect_after_the_turn (env : Env)
    (total_speeches speeches_per_round i : Z) (member_name : string) (rest : list string)
    (w : World) (member : MemberConfig) (j : nat) :
  let count := _speech_count (session w) + 1 in
  let stream := stream_result 2 (speak_stream env count) in
  flag_raised (session w) = false →
  dict_get member_name (members (session w)) = Some member →
  (length (emitted w) ≤ j < length (emitted w) + (length (fragments stream) + 3))%nat →
  flag_at env j = true →
  ∃ hat w1,
    speaking_loop env total_speeches speeches_per_round i (member_name :: rest) w
    = (Val tt, w1) ∧
    flag_raised (session w1) = true ∧
    emitted w1
    = emitted w ++ turn_events member_name count (get_hat_info hat) (fragments stream)
      ++ [turn_end member_name count (get_hat_info hat) stream] ∧
    history (session w1)
    = history (session w)
      ++ match terminal stream with
         | Some _ => []
         | None => [speech_message member_name member (get_hat_info hat)
                      (String.concat "" (fragments stream))]
         end.
Proof.
  intros count stream Hflag Hmember Hj Hat.
  set (w0 := entering_turn speeches_per_round i w).
  destruct (member_speak_spec env member_name w0 member Hmember) as (hat & hm & _ & Heq).
  cbn zeta in Heq. change (_speech_count (session w0)) with count in Heq. fold stream in Heq.
  set (evs := turn_events member_name count (get_hat_info hat) (fragments stream)) in *.
  assert (Hlen : length evs = (length (fragments stream) + 2)%nat).
  { subst evs. unfold turn_events. cbn [length]. rewrite length_map. lia. }
  set (w1 := match terminal stream with Some _ => _ | None => _ end) in Heq.
  assert (Hraised : flag_raised (session w1) = true).
  { subst w1. unfold turn_end. destruct (terminal stream) as [e |].
    - cbn [session with_session]. rewrite flag_raised_set_current_hat_info.
      rewrite delivered_flag_raised. apply orb_true_iff. right.
      apply (existsb_seq_true _ _ _ j); [| done].
      rewrite length_app, Hlen. cbn [length]. cbn. clear -Hj. clearbody stream. lia.
    - rewrite delivered_flag_raised. cbn [session with_session].
      rewrite flag_raised_set_history, delivered_flag_raised.
      destruct (decide (j < length (emitted w) + length evs)%nat) as [Hin | Hout].
      + apply orb_true_iff. left. apply orb_true_iff. right.
        apply (existsb_seq_true _ _ _ j); [| done]. cbn. rewrite length_map.
        rewrite Hlen in Hin. clear -Hj Hin. clearbody stream. lia.
      + apply orb_true_iff. right.
        apply (existsb_seq_true _ _ _ j); [| done]. unfold indices_of. cbn.
        rewrite length_app. clear -Hj Hout Hlen. clearbody evs stream. lia. }
  exists hat, w1. split; [| split; [done |]].
  - rewrite speaking_loop_turn by done. fold w0. unfold bind at 1. rewrite Heq.
    unfold after_member_speak, bind at 1, get_session. by rewrite Hraised.
  - subst w1. unfold turn_end. destruct (terminal stream) as [e |]; cbn.
    + split; [done | by rewrite app_nil_r].
    + split; [by rewrite <- app_assoc | done].
Qed.

Lemma flag_takes_effect_after_the_turn_witness :
  let env := Scenario.stop_mid_speech in
  let w := started (init (Scenario.council 2)) in
  flag_raised (session w) = false ∧
  (∃ member : MemberConfig, dict_get "Bob" (members (session w)) = Some member) ∧
  flag_at env 2 = true ∧
  ∃ w1,
    speaking_loop env 4 2 0 ["Bob"; "Alice"; "Alice"; "Bob"] w = (Val tt, w1) ∧
    flag_raised (session w1) = true ∧
    map Models.content (history (session w1)) = ["Yes. And you?"] ∧
    length (emitted w1) = 5%nat.
Proof.
  intros env w.
  assert (H1 : flag_raised (session w) = false) by reflexivity.
  assert (H3 : flag_at env 2 = true) by reflexivity.
  split; [exact H1 |]. split; [eexists; reflexivity |]. split; [exact H3 |].
  destruct (flag_takes_effect_after_the_turn env 4 2 0 "Bob" ["Alice"; "Alice"; "Bob"] w _ 2%nat
              H1 eq_refl) as (hat & w1 & Hloop & Hraised & Hev & Hhist).
  { cbn. lia. }
  { exact H3. }
  exists w1. split; [exact Hloop |]. split; [exact Hraised |]. split.
  - rewrite Hhist. reflexivity.
  - rewrite Hev. reflexivity.
Defined.

Lemma dict_set_keys {V : Type} (k : string) (v : V) (d : list (string * V)) :
  map fst (dict_set k v d)
  = if decide (k ∈ map fst d) then map fst d else map fst d ++ [k].
Proof.
  induction d as [| [k' v'] d IH]; cbn [dict_set map fst].
  - destruct (decide (k ∈ [])) as [Hin | _]; [by apply elem_of_nil in Hin | done].
  - destruct (decide (k' = k)) as [-> | Hne].
    + cbn [map fst]. destruct (decide (k ∈ k :: map fst d)) as [_ | Hout]; [done |].
      destruct Hout. apply list_elem_of_here.
    + cbn [map fst]. rewrite IH.
      destruct (decide (k ∈ map fst d)) as [Hin | Hout].
      * destruct (decide (k ∈ k' :: map fst d)) as [_ | Hout]; [done |].
        destruct Hout. by apply list_elem_of_further.
      * destruct (decide (k ∈ k' :: map fst d)) as [Hin | _]; [| done].
        apply elem_of_cons in Hin as [-> | Hin]; done.
Qed.

Lemma dict_set_NoDup {V : Type} (k : string) (v : V) (d : list (string * V)) :
  NoDup (map fst d) → NoDup (map fst (dict_set k v d)).
Proof.
  intros Hnd. rewrite dict_set_keys. destruct (decide (k ∈ map fst d)) as [? | Hout]; [done |].
  apply NoDup_app. split; [done |]. split; [| apply NoDup_singleton].
  intros x Hx Hk. apply list_elem_of_singleton in Hk. by subst.
Qed.

Lemma dict_get_set {V : Type} (k k' : string) (v : V) (d : list (string * V)) :
  dict_get k' (dict_set k v d) = if decide (k = k') then Some v else dict_get k' d.
Proof.
  induction d as [| [k0 v0] d IH]; cbn [dict_set dict_get].
  - done.
  - destruct (decide (k0 = k)) as [-> | Hne]; cbn [dict_get].
    + by destruct (decide (k = k')).
    + rewrite IH. destruct (decide (k0 = k')) as [-> | ?]; [| done].
      by destruct (decide (k = k')).
Qed.

Lemma dict_get_is_Some {V : Type} (d : list (string * V)) (k : string) :
  is_Some (dict_get k d) ↔ k ∈ map fst d.
Proof.
  split; [| apply dict_get_member_names].
  induction d as [| [k' v] d IH]; cbn [dict_get map fst]; intros Hs.
  - by destruct Hs.
  - destruct (decide (k' = k)) as [-> | ?]; [apply list_elem_of_here |].
    apply list_elem_of_further. by apply IH.
Qed.

Lemma find_over_app {A : Type} (p : A → bool) (l1 l2 : list A) :
  List.find p (l1 ++ l2)
  = match List.find p l1 with Some x => Some x | None => List.find p l2 end.
Proof.
  induction l1 as [| x l1 IH]; [done |]. cbn [app List.find]. by destruct (p x).
Qed.

(** The loop of [Session.__init__], from a dictionary [d]. *)
Lemma init_members_fold (l : list MemberConfig) : ∀ d : list (string * MemberConfig),
  let d' := fold_left
              (fun d member_config =>
                 if enabled member_config
                 then dict_set (member_display_name member_config) member_config d
                 else d) l d in
  (NoDup (map fst d) → NoDup (map fst d')) ∧
  ∀ name, dict_get name d'
          = match last_named name (List.filter enabled l) with
            | Some m => Some m
            | None => dict_get name d
            end.
Proof.
  induction l as [| m l IH]; intros d; cbn zeta.
  - split; [done |]. intros name. done.
  - cbn [fold_left List.filter]. destruct (IH (if enabled m
                                                 then dict_set (member_display_name m) m d
                                                 else d)) as [IH1 IH2].
    cbn zeta in IH1, IH2. split.
    + intros Hnd. apply IH1. destruct (enabled m); [by apply dict_set_NoDup | done].
    + intros name. rewrite IH2. unfold last_named.
      destruct (enabled m) eqn:Hen; [| done].
      cbn [rev]. rewrite find_over_app.
      destruct (List.find _ (rev (List.filter enabled l))) as [m' |]; [done |].
      cbn [List.find]. rewrite dict_get_set.
      destruct (decide (member_display_name m = name)) as [Heq | Hne].
      * by rewrite bool_decide_eq_true_2.
      * by rewrite bool_decide_eq_false_2.
Qed.

(** X13: [Session.__init__] keys the members by display name: the names of a
    session are pairwise distinct; looking a name up gives the last enabled
    member of the configuration that bears it (an earlier one of the same
    name is replaced, a disabled one is left out); and a name is a member
    name exactly when some enabled member bears it.  Every other field
    starts as the constructor sets it, with an empty history. *)
Theorem init_members_by_name (session_config : SessionConfig) :
  let s := init session_config in
  NoDup (member_names s) ∧
  (∀ name, dict_get name (members s) = last_named name (enabled_members session_config)) ∧
  (∀ name, name ∈ member_names s
           ↔ ∃ m, m ∈ Models.members session_config ∧ enabled m = true
                  ∧ member_display_name m = name) ∧
  (length (member_names s) ≤ length (enabled_members session_config))%nat ∧
  history s = [] ∧ state s = IDLE.
Proof.
  cbn zeta. unfold member_names.
  destruct (init_members_fold (Models.members session_config) []) as [Hnd Hget].
  cbn zeta in Hnd, Hget. change (members (init session_config)) with
    (fold_left
       (fun d member_config =>
          if enabled member_config
          then dict_set (member_display_name member_config) member_config d
          else d) (Models.members session_config) []).
  assert (Hlookup : ∀ name,
    dict_get name
      (fold_left
         (fun d member_config =>
            if enabled member_config
            then dict_set (member_display_name member_config) member_config d
            else d) (Models.members session_config) [])
    = last_named name (enabled_members session_config)).
  { intros name. rewrite Hget. unfold enabled_members.
    by destruct (last_named name _). }
  assert (Hmem : ∀ name,
    name ∈ map fst
      (fold_left
         (fun d member_config =>
            if enabled member_config
            then dict_set (member_display_name member_config) member_config d
            else d) (Models.members session_config) [])
    ↔ ∃ m, m ∈ Models.members session_config ∧ enabled m = true
           ∧ member_display_name m = name).
  { intros name. rewrite <- dict_get_is_Some, Hlookup. unfold last_named, enabled_members.
    split.
    - intros [m Hm]. apply find_some in Hm as [Hin Hname].
      apply in_rev, filter_In in Hin as [Hin Hen]. apply bool_decide_eq_true in Hname.
      exists m. split; [by apply list_elem_of_In | done].
    - intros (m & Hin & Hen & Hname).
      destruct (List.find _ _) as [m' |] eqn:Hfind; [by eexists |].
      exfalso. assert (Hf : bool_decide (member_display_name m = name) = false).
      { apply (find_none _ _ Hfind m). apply in_rev. rewrite rev_involutive.
        apply filter_In. split; [by apply list_elem_of_In | done]. }
      by rewrite bool_decide_eq_true_2 in Hf. }
  split; [apply Hnd, NoDup_nil_2 |]. split; [exact Hlookup |]. split; [exact Hmem |].
  split; [| done].
  (* distinct names, each borne by an enabled member *)
  set (keys := map fst (fold_left _ _ _)) in *.
  assert (Hsub : keys ⊆ map member_display_name (enabled_members session_config)).
  { intros name Hin. destruct (Hmem name) as [Hm _].
    destruct (Hm Hin) as (m & Hin' & Hen & <-). clear Hin. rename Hin' into Hin.
    apply list_elem_of_fmap. exists m. split; [done |].
    unfold enabled_members. apply list_elem_of_In, filter_In.
    split; [by apply list_elem_of_In | done]. }
  pose proof (submseteq_length _ _ (NoDup_submseteq _ _ (Hnd (NoDup_nil_2)) Hsub)) as Hle.
  by rewrite length_map in Hle.
Qed.

(** X14: What the question handed to the next speaker is.  When the speech holds
    no question mark, ASCII or full-width, it is empty.  Otherwise it is a
    piece of the speech, copied as it stands, that ends with the last
    question mark of the speech (none follows it) and holds no line
    break. *)
Theorem extract_question_spec (content : string) :
  let question := _extract_question content in
  if has_question_mark content
  then ends_with_question_mark question = true
       ∧ is_substring Search.nl question = false
       ∧ ∃ before after,
           content = before +:+ question +:+ after ∧ has_question_mark after = false
  else question = "".
Proof.
  cbn zeta. unfold _extract_question.
  destruct (split_after_question_marks_spec content "" eq_refl)
    as (qs & tail & -> & Hqs & Htail & Hall).
  change ("" +:+ content) with content in Hall.
  rewrite filter_questions; [| by eapply Forall_impl; [exact Hqs |]; intros p [? ?] | done].
  destruct (has_question_mark content) eqn:Hmark.
  - destruct qs as [| q qs _] using rev_ind.
    { cbn [fold_right] in Hall. congruence. }
    rewrite map_app. cbn [map]. rewrite last_snoc.
    apply Forall_app in Hqs as [_ Hq]. apply Forall_singleton in Hq as [Hq Hsingle].
    pose proof Hq as Hq'. do 2 apply py_strip_keeps_question_mark in Hq'.
    unfold py_split.
    destruct (last_line_spec (py_strip (py_strip q)) "" eq_refl) as (l & -> & Hnl & Hl & Hkeep).
    change ("" +:+ ?s) with s in Hl, Hkeep. cbn [default].
    assert (Hend : ends_with_question_mark (py_strip l) = true).
    { apply ends_with_question_mark_iff in Hq' as (m & Hm & He).
      apply ends_with_question_mark_iff. exists m. split; [done |].
      by apply py_strip_keeps_mark, Hkeep. }
    split; [done |]. split.
    + eapply is_substring_within; [apply py_strip_part_of | done].
    + assert (Hpart : part_of (py_strip l) q).
      { eapply part_of_trans; [apply py_strip_part_of |].
        eapply part_of_trans; [exact Hl |].
        eapply part_of_trans; apply py_strip_part_of. }
      destruct Hpart as (a & b & Hab).
      pose proof (single_mark_ends _ _ _ _ Hsingle Hab Hend) as ->.
      rewrite string_app_nil_r in Hab.
      exists (fold_right String.append "" qs +:+ a), tail. split; [| done].
      by rewrite Hall, fold_right_append_snoc, Hab, !string_app_assoc.
  - destruct qs as [| q qs]; [done |].
    apply Forall_cons in Hqs as [[Hq _] _].
    apply ends_with_has_question_mark in Hq.
    rewrite (has_question_mark_within q content) in Hq; [done | | done].
    rewrite Hall. cbn [fold_right]. apply part_of_prefix.
Qed.

End session_facts.

(** ** The form *)

Section app_facts.

Import Models Session Config App.

Lemma dict_set_absent {V : Type} (k : string) (v : V) (d : list (string * V)) :
  k ∉ map fst d → dict_set k v d = d ++ [(k, v)].
Proof.
  induction d as [| [k' v'] d IH]; cbn [dict_set map fst app]; intros Hout; [done |].
  apply not_elem_of_cons in Hout as [Hne Hout].
  destruct (decide (k' = k)) as [-> | _]; [done |]. by rewrite IH.
Qed.

(** With names that differ, the dictionary of [Session.__init__] lists the
    members as configured. *)
Lemma init_members_distinct (l : list MemberConfig) : ∀ d : list (string * MemberConfig),
  Forall (fun m => enabled m = true) l →
  NoDup (map fst d ++ map member_display_name l) →
  fold_left
    (fun d member_config =>
       if enabled member_config
       then dict_set (member_display_name member_config) member_config d
       else d) l d
  = d ++ map (fun m => (member_display_name m, m)) l.
Proof.
  induction l as [| m l IH]; intros d Hen Hnd; cbn [fold_left map].
  - by rewrite app_nil_r.
  - apply Forall_cons in Hen as [Hm Hen]. rewrite Hm.
    cbn [map] in Hnd. apply NoDup_app in Hnd as (Hd & Hdisj & Hl).
    apply NoDup_cons in Hl as [Hm' Hl].
    rewrite dict_set_absent.
    + rewrite IH; [by rewrite <- app_assoc | done |].
      rewrite map_app. cbn [map fst]. rewrite <- app_assoc. cbn [app].
      apply NoDup_app. split; [done |]. split; [| by apply NoDup_cons].
      intros x Hx. apply Hdisj in Hx. done.
    + intros Hin. apply (Hdisj _ Hin). apply list_elem_of_here.
Qed.

Lemma omap_cons {A B : Type} (f : A → option B) (x : A) (l : list A) :
  omap f (x :: l) = match f x with Some y => y :: omap f l | None => omap f l end.
Proof. done. Qed.

Lemma add_member_fold (slots : list (option string * option string)) :
  ∀ (available_names : list string) (members : list MemberConfig)
    (name_to_model : list (string * string)),
  (length (omap chosen_slot slots) ≤ length available_names)%nat →
  ∃ name_to_model',
    fold_left add_member slots (available_names, members, name_to_model)
    = (drop (length (omap chosen_slot slots)) available_names,
       members
       ++ zip_with
            (fun alias slot =>
               {| member_model_id := fst slot; member_display_name := alias;
                  member_system_prompt := snd slot; enabled := true |})
            available_names (omap chosen_slot slots),
       name_to_model').
Proof.
  induction slots as [| [model_id prompt] slots IH]; intros names members n2m Hlen.
  - exists n2m. cbn [fold_left omap length drop]. destruct names; cbn [zip_with]; by rewrite app_nil_r.
  - cbn [fold_left]. rewrite omap_cons in Hlen |- *.
    destruct (chosen_slot (model_id, prompt)) as [[id persona] |] eqn:Hslot.
    + unfold chosen_slot in Hslot. cbn [fst snd] in Hslot.
      destruct model_id as [model_id |]; [| done].
      destruct (decide (model_id = "")) as [| Hne] eqn:Hdec; [done |].
      injection Hslot as <- <-.
      destruct names as [| name names]; [cbn in Hlen; lia |].
      assert (Hstep : add_member (name :: names, members, n2m) (Some model_id, prompt)
                      = (names,
                         members ++ [{| member_model_id := model_id;
                                        member_display_name := name;
                                        member_system_prompt := default "" prompt;
                                        enabled := true |}],
                         n2m ++ [(name, get_model_name model_id)])).
      { unfold add_member. cbn [fst snd]. by rewrite Hdec. }
      rewrite Hstep.
      destruct (IH names
                  (members ++ [{| member_model_id := model_id; member_display_name := name;
                                  member_system_prompt := default "" prompt;
                                  enabled := true |}])
                  (n2m ++ [(name, get_model_name model_id)])) as [n2m' ->].
      { cbn [length] in Hlen. lia. }
      exists n2m'. cbn [length drop zip_with fst snd]. by rewrite <- app_assoc.
    + assert (Hstep : add_member (names, members, n2m) (model_id, prompt)
                      = (names, members, n2m)).
      { unfold chosen_slot in Hslot. unfold add_member. cbn [fst snd] in Hslot |- *.
        destruct model_id as [model_id |]; [| done].
        by destruct (decide (model_id = "")). }
      rewrite Hstep. by apply IH.
Qed.

Lemma omap_length_le {A B : Type} (f : A → option B) (l : list A) :
  (length (omap f l) ≤ length l)%nat.
Proof.
  induction l as [| x l IH]; [done |]. rewrite omap_cons.
  destruct (f x); cbn [length]; lia.
Qed.

Lemma chosen_slots_length (member_values : list (option string)) :
  (length (chosen_slots member_values) ≤ 5)%nat.
Proof.
  unfold chosen_slots. etransitivity; [apply omap_length_le |].
  rewrite length_zip, length_take. lia.
Qed.

Lemma NoDup_RANDOM_NAMES : NoDup RANDOM_NAMES.
Proof. apply (bool_decide_unpack (NoDup RANDOM_NAMES)). by vm_compute. Qed.

Lemma MODERATOR_NAME_fresh : MODERATOR_NAME ∉ RANDOM_NAMES.
Proof. apply (bool_decide_unpack (MODERATOR_NAME ∉ RANDOM_NAMES)). by vm_compute. Qed.

(** X15: How the form becomes a session.  The request is refused when the topic
    is blank or no model is chosen.  Otherwise every slot with a model
    becomes one enabled member, with that model and persona, in the order
    of the form; the members get the first names of the shuffled list, so
    their names differ from each other and from the moderator's, whose
    name is fixed; and the session keeps them all, in that order, also when
    one model is chosen in several slots. *)
Theorem start_discussion_members (draws : list nat) (topic : string) (rounds max_tokens : Z)
    (mod_model mod_prompt : string) (member_values : list (option string)) :
  let picked := chosen_slots member_values in
  match start_discussion draws topic rounds max_tokens mod_model mod_prompt member_values with
  | Refused _ => py_strip topic = "" ∨ picked = []
  | Prepared _ session_config =>
      let names := map member_display_name (Models.members session_config) in
      (py_strip topic ≠ "" ∧ picked ≠ [] ∧
      map (fun m => (member_model_id m, member_system_prompt m)) (Models.members session_config)
      = picked ∧
      Forall (fun m => enabled m = true) (Models.members session_config) ∧
      names = take (length picked) (random_shuffle draws RANDOM_NAMES) ∧
      NoDup names ∧
      moderator_display_name (moderator session_config) = MODERATOR_NAME ∧
      (MODERATOR_NAME ∉ names) ∧
      member_names (init session_config) = names)
  end.
Proof.
  cbn zeta. unfold start_discussion.
  destruct (decide (py_strip topic = "")) as [Hblank | Htopic]; [by left |].
  pose proof (chosen_slots_length member_values) as Hfive.
  pose proof (random_shuffle_perm draws RANDOM_NAMES) as Hperm.
  pose proof (Permutation_length Hperm) as Hlen.
  change (length RANDOM_NAMES) with 15%nat in Hlen.
  destruct (add_member_fold (zip (take 5 member_values) (drop 5 member_values))
              (random_shuffle draws RANDOM_NAMES) [] []) as [n2m Hfold].
  { fold (chosen_slots member_values). lia. }
  fold (chosen_slots member_values) in Hfold. cbn zeta. rewrite Hfold. cbn [app].
  set (shuffled := random_shuffle draws RANDOM_NAMES) in *.
  set (picked := chosen_slots member_values) in *.
  set (mk := fun (alias : string) (slot : string * string) =>
               {| member_model_id := slot.1; member_display_name := alias;
                  member_system_prompt := slot.2; enabled := true |}).
  assert (Hnames : map member_display_name (zip_with mk shuffled picked)
                   = take (length picked) shuffled).
  { clearbody shuffled picked. clear -Hfive Hlen.
    assert (Hle : (length picked ≤ length shuffled)%nat) by lia. clear Hfive Hlen.
    revert shuffled Hle. induction picked as [| p picked IH]; intros shuffled Hle.
    - by destruct shuffled.
    - destruct shuffled as [| n shuffled]; [cbn in Hle; lia |].
      cbn [zip_with map length take]. rewrite IH; [done | cbn in Hle; lia]. }
  assert (Hslots : map (fun m => (member_model_id m, member_system_prompt m))
                     (zip_with mk shuffled picked) = picked).
  { clearbody shuffled picked. clear -Hfive Hlen.
    assert (Hle : (length picked ≤ length shuffled)%nat) by lia. clear Hfive Hlen.
    revert shuffled Hle. induction picked as [| [id p] picked IH]; intros shuffled Hle.
    - by destruct shuffled.
    - destruct shuffled as [| n shuffled]; [cbn in Hle; lia |].
      cbn [zip_with map length]. rewrite IH; [done | cbn in Hle; lia]. }
  assert (Henabled : Forall (fun m => enabled m = true) (zip_with mk shuffled picked)).
  { clearbody shuffled picked. clear. revert picked.
    induction shuffled as [| n shuffled IH]; intros picked; [done |].
    destruct picked as [| p picked]; [done |]. cbn [zip_with]. apply Forall_cons. by split. }
  assert (Hnodup : NoDup (take (length picked) shuffled)).
  { apply (sublist_NoDup _ shuffled); [| apply sublist_take].
    rewrite Hperm. apply NoDup_RANDOM_NAMES. }
  destruct (zip_with mk shuffled picked) as [| m ms] eqn:Hmembers.
  - right. cbn [map] in Hslots. done.
  - cbn [Models.members moderator moderator_display_name].
    rewrite Hnames, Hslots.
    split; [done |]. split; [by rewrite <- Hslots |]. split; [done |]. split; [done |].
    split; [done |]. split; [done |]. split; [done |]. split.
    + intros Hin. apply elem_of_take in Hin as (i & Hin & _).
      apply list_elem_of_lookup_2 in Hin. rewrite Hperm in Hin.
      by apply MODERATOR_NAME_fresh.
    + unfold member_names, init. cbn [Session.members Models.members].
      rewrite init_members_distinct; [| done | by rewrite Hnames].
      cbn [app]. rewrite map_map. cbn [fst]. done.
Qed.

Lemma removelast_snoc {A : Type} (l : list A) (x : A) : removelast (l ++ [x]) = l.
Proof. apply removelast_last. Qed.

Lemma removelast_prefix {A : Type} (l : list A) : removelast l `prefix_of` l.
Proof.
  destruct l as [| x l _] using rev_ind; [done |].
  rewrite removelast_snoc. by apply prefix_app_r.
Qed.

Lemma removelast_length {A : Type} (l : list A) :
  l ≠ [] → S (length (removelast l)) = length l.
Proof.
  destruct l as [| x l _] using rev_ind; [done |]. intros _.
  rewrite removelast_snoc, length_app. cbn [length]. lia.
Qed.

Lemma set_last_keeps (text : string) (l : list string) :
  removelast (set_last text l) = removelast l ∧ length (set_last text l) = length l.
Proof.
  destruct l as [| x l]; [done |]. unfold set_last. rewrite removelast_snoc. split; [done |].
  rewrite length_app, <- (removelast_length (x :: l)) by done. cbn [length]. lia.
Qed.

(** A step of the loop appends a bubble, rewrites the last one, or leaves
    the chat as it is. *)
Lemma render_event_step (name_mapping_text : string) (chat : Chat) (event : SessionEvent) :
  let r := render_event name_mapping_text chat event in
  removelast (messages chat) `prefix_of` removelast (messages r.1) ∧
  (length (messages chat) ≤ length (messages r.1))%nat ∧
  (r.2 = [] ∨ ∃ status, r.2 = [(messages r.1, status, name_mapping_text)]).
Proof.
  assert (Happ : ∀ x, removelast (messages chat) `prefix_of` removelast (messages chat ++ [x])
                      ∧ (length (messages chat) ≤ length (messages chat ++ [x]))%nat).
  { intros x. rewrite removelast_snoc, length_app. split; [apply removelast_prefix | lia]. }
  assert (Hset : ∀ x, removelast (messages chat) `prefix_of` removelast (set_last x (messages chat))
                      ∧ (length (messages chat) ≤ length (set_last x (messages chat)))%nat).
  { intros x. destruct (set_last_keeps x (messages chat)) as [-> ->]. done. }
  cbn zeta. unfold render_event.
  destruct (bool_decide (event_type event = "system")).
  { cbn [fst snd messages]. destruct (Happ ("*" +:+ ev_content event +:+ "*")).
    split; [done |]. split; [done |]. right. by eexists. }
  destruct (bool_decide (event_type event = "moderator") || bool_decide (event_type event = "member"));
    [| cbn [fst snd]; by repeat split; [| | left]].
  destruct (is_streaming event && negb (is_final event)).
  { cbn [fst snd]. destruct (decide (ev_speaker_name event ≠ current_speaker chat)).
    - cbn [messages]. destruct (Happ (bubble event (ev_speaker_name event) (ev_content event))).
      split; [done |]. split; [done |]. right. by eexists.
    - cbn [messages].
      destruct (Hset (bubble event (current_speaker chat)
                        (current_content chat +:+ ev_content event))).
      split; [done |]. split; [done |]. right. by eexists. }
  destruct (is_final event); [| cbn [fst snd]; by repeat split; [| | left]].
  cbn [fst snd messages].
  assert (Hfinal : ∀ msgs : list string,
    (∀ x, removelast msgs `prefix_of` removelast (msgs ++ [x])
          ∧ (length msgs ≤ length (msgs ++ [x]))%nat) →
    (∀ x, removelast msgs `prefix_of` removelast (set_last x msgs)
          ∧ (length msgs ≤ length (set_last x msgs))%nat) →
    let msgs' := match msgs with
                 | _ :: _ =>
                     if decide (current_speaker chat = ev_speaker_name event)
                     then set_last (final_content event) msgs
                     else msgs ++ [final_content event]
                 | [] => [final_content event]
                 end in
    removelast msgs `prefix_of` removelast msgs' ∧ (length msgs ≤ length msgs')%nat).
  { intros msgs Ha Hs. cbn zeta. destruct msgs as [| x l]; [split; [apply prefix_nil | cbn; lia] |].
    destruct (decide (current_speaker chat = ev_speaker_name event)); [apply Hs | apply Ha]. }
  destruct (Hfinal (messages chat) Happ Hset) as [H1 H2].
  split; [exact H1 |]. split; [exact H2 |]. right. by eexists.
Qed.

Lemma removelast_prefix_mono {A : Type} (a b : list A) :
  removelast a `prefix_of` removelast b → removelast a `prefix_of` b.
Proof. intros H. etransitivity; [exact H | apply removelast_prefix]. Qed.

(** Every output of the loop still shows the bubbles of the chat it started
    from, the last one apart. *)
Lemma event_loop_keeps (name_mapping_text : string) (events : list SessionEvent) :
  ∀ (chat : Chat) (output : Output),
    output ∈ event_loop name_mapping_text chat events →
    removelast (messages chat) `prefix_of` removelast (shown output)
    ∧ (length (messages chat) ≤ length (shown output))%nat.
Proof.
  induction events as [| event events IH]; intros chat output Hin.
  - cbn [event_loop] in Hin. apply list_elem_of_singleton in Hin as ->. done.
  - cbn [event_loop] in Hin.
    pose proof (render_event_step name_mapping_text chat event) as (Hpre & Hlen & Hout).
    cbn zeta in Hpre, Hlen, Hout.
    destruct (render_event name_mapping_text chat event) as [chat' outputs].
    cbn [fst snd] in *. apply elem_of_app in Hin as [Hin | Hin].
    + destruct Hout as [-> | [status ->]]; [by apply elem_of_nil in Hin |].
      apply list_elem_of_singleton in Hin as ->. done.
    + destruct (IH chat' output Hin) as [Hpre' Hlen']. split; [by etransitivity | lia].
Qed.

(** X16: What the chat has shown stays: the bubbles of an output, the last one
    apart, are there unchanged in every later output, and the chat never gets
    shorter.  Only the last bubble is ever rewritten.  The loop yields at most
    once for each event, and once more at the end, with the closing
    status. *)
Theorem chat_rewrites_only_last_bubble (name_mapping_text : string)
    (events : list SessionEvent) (chat : Chat) :
  let outputs := event_loop name_mapping_text chat events in
  (∀ (i j : nat) (earlier later : Output),
     (i ≤ j)%nat → outputs !! i = Some earlier → outputs !! j = Some later →
     removelast (shown earlier) `prefix_of` shown later
     ∧ (length (shown earlier) ≤ length (shown later))%nat) ∧
  (∃ final, last outputs = Some final
            ∧ status_of final = "狀態：討論結束"
            ∧ shown final = messages (chat_after name_mapping_text chat events)) ∧
  (1 ≤ length outputs ≤ length events + 1)%nat.
Proof.
  cbn zeta. split; [| split].
  - revert chat. induction events as [| event events IH]; intros chat i j earlier later Hij Hi Hj.
    + cbn [event_loop] in Hi, Hj. destruct i, j; try done.
      injection Hi as <-. injection Hj as <-. split; [apply removelast_prefix | done].
    + cbn [event_loop] in Hi, Hj.
      pose proof (render_event_step name_mapping_text chat event) as (_ & _ & Hout).
      cbn zeta in Hout.
      destruct (render_event name_mapping_text chat event) as [chat' outputs].
      cbn [fst snd] in *. destruct Hout as [-> | [status ->]].
      * cbn [app] in Hi, Hj. by eapply IH.
      * cbn [app] in Hi, Hj. destruct i as [| i].
        -- injection Hi as <-. destruct j as [| j].
           ++ injection Hj as <-. split; [apply removelast_prefix | done].
           ++ cbn [lookup list_lookup] in Hj. apply list_elem_of_lookup_2 in Hj.
              destruct (event_loop_keeps _ _ _ _ Hj) as [Hpre Hlen].
              split; [by apply removelast_prefix_mono | done].
        -- destruct j as [| j]; [lia |]. cbn [lookup list_lookup] in Hi, Hj.
           eapply IH; [| exact Hi | exact Hj]. lia.
  - revert chat. induction events as [| event events IH]; intros chat.
    + eexists. cbn [event_loop last chat_after]. done.
    + cbn [event_loop chat_after]. destruct (IH (render_event name_mapping_text chat event).1)
        as (final & Hlast & Hstatus & Hshown).
      destruct (render_event name_mapping_text chat event) as [chat' outputs].
      cbn [fst] in *. exists final. split; [| done].
      destruct (event_loop name_mapping_text chat' events) as [| o os _] using rev_ind; [done |].
      rewrite app_assoc, last_snoc. by rewrite last_snoc in Hlast.
  - revert chat. induction events as [| event events IH]; intros chat.
    + cbn. lia.
    + cbn [event_loop length].
      pose proof (render_event_step name_mapping_text chat event) as (_ & _ & Hout).
      cbn zeta in Hout. specialize (IH (render_event name_mapping_text chat event).1).
      destruct (render_event name_mapping_text chat event) as [chat' outputs].
      cbn [fst snd] in *. rewrite length_app.
      destruct Hout as [-> | [status ->]]; cbn [length]; lia.
Qed.

Lemma join_cons (x : string) (xs : list string) :
  String.concat "" (x :: xs) = x +:+ String.concat "" xs.
Proof. destruct xs as [| y xs]; [by rewrite string_append_nil_r | done]. Qed.

Lemma set_last_snoc (text b : string) (base : list string) :
  set_last text (base ++ [b]) = base ++ [text].
Proof.
  unfold set_last. destruct (base ++ [b]) as [| y l] eqn:Heq.
  - by destruct base.
  - by rewrite <- Heq, removelast_snoc.
Qed.

(** The loop in the middle of a speech: the bubble of the speaker is the
    last one. *)
Lemma event_loop_continues (name_mapping_text : string) (event : SessionEvent)
    (later : list SessionEvent) (base : list string) :
  (event_type event = "moderator" ∨ event_type event = "member") →
  is_final event = true →
  ∀ (chunks : list string) (b content : string),
    event_loop name_mapping_text
      {| messages := base ++ [b]; current_content := content;
         current_speaker := ev_speaker_name event |}
      (speech_events event chunks ++ later)
    = map (fun k =>
             (base ++ [bubble event (ev_speaker_name event)
                         (content +:+ String.concat "" (take (S k) chunks))],
              streaming_status event, name_mapping_text))
          (seq 0 (length chunks))
      ++ (base ++ [final_content event], final_status event, name_mapping_text)
         :: event_loop name_mapping_text
              {| messages := base ++ [final_content event]; current_content := "";
                 current_speaker := "" |} later.
Proof.
  intros Htype Hfinal.
  assert (Hsys : bool_decide (event_type event = "system") = false).
  { apply bool_decide_eq_false_2. by destruct Htype as [-> | ->]. }
  assert (Hmm : bool_decide (event_type event = "moderator")
                || bool_decide (event_type event = "member") = true).
  { destruct Htype as [-> | ->]; done. }
  induction chunks as [| c chunks IH]; intros b content.
  - cbn [speech_events map app event_loop length seq]. unfold render_event.
    rewrite Hsys, Hmm, Hfinal, andb_false_r. cbn [messages current_speaker].
    rewrite decide_True by done. rewrite set_last_snoc.
    by destruct base.
  - unfold speech_events in *. cbn [map app event_loop length seq].
    unfold render_event at 1. cbn [event_type is_streaming is_final ev_speaker_name ev_content].
    rewrite Hsys, Hmm. cbn [andb negb messages current_speaker current_content].
    rewrite decide_False by (intros H; by apply H). cbn [messages current_speaker].
    rewrite set_last_snoc, IH. cbn [map]. f_equal.
    f_equal. rewrite <- seq_shift, map_map. apply map_ext. intros k.
    cbn [take]. by rewrite join_cons, string_append_assoc.
Qed.

(** X17: How a speech is shown, from a chat that is not in the middle of a
    speech of the same speaker.  Its events fill one new bubble: while the
    speech is streamed the bubble holds the parts received so far, joined;
    the final event puts the whole speech in its place; after it the loop is
    ready for the next speaker, and the bubbles before are as they were. *)
Theorem speech_fills_one_bubble (name_mapping_text : string) (chat : Chat)
    (event : SessionEvent) (chunks : list string) (later : list SessionEvent) :
  (event_type event = "moderator" ∨ event_type event = "member") →
  is_final event = true →
  current_speaker chat ≠ ev_speaker_name event →
  event_loop name_mapping_text chat (speech_events event chunks ++ later)
  = map (fun k =>
           (messages chat ++ [bubble event (ev_speaker_name event)
                                (String.concat "" (take (S k) chunks))],
            streaming_status event, name_mapping_text))
        (seq 0 (length chunks))
    ++ (messages chat ++ [final_content event], final_status event, name_mapping_text)
       :: event_loop name_mapping_text
            {| messages := messages chat ++ [final_content event]; current_content := "";
               current_speaker := "" |} later.
Proof.
  intros Htype Hfinal Hother.
  assert (Hsys : bool_decide (event_type event = "system") = false).
  { apply bool_decide_eq_false_2. by destruct Htype as [-> | ->]. }
  assert (Hmm : bool_decide (event_type event = "moderator")
                || bool_decide (event_type event = "member") = true).
  { destruct Htype as [-> | ->]; done. }
  destruct chunks as [| c chunks].
  - cbn [speech_events map app event_loop length seq]. unfold render_event.
    rewrite Hsys, Hmm, Hfinal, andb_false_r.
    destruct (messages chat) as [| x l] eqn:Hm; [done |].
    by rewrite decide_False by done.
  - pose proof (event_loop_continues name_mapping_text event later (messages chat)
                  Htype Hfinal chunks) as Hrest.
    unfold speech_events in *. cbn [map app event_loop length seq].
    unfold render_event at 1. cbn [event_type is_streaming is_final ev_speaker_name ev_content].
    rewrite Hsys, Hmm. cbn [andb negb].
    rewrite decide_True by (intros H; by apply Hother). cbn [messages current_speaker].
    rewrite Hrest. cbn [map]. f_equal.
    f_equal. rewrite <- seq_shift, map_map. apply map_ext. intros k.
    cbn [take]. by rewrite join_cons.
Qed.

Lemma speech_fills_one_bubble_witness :
  let info := Hats.get_hat_info Hats.WHITE in
  let event := member_event "Alice" "Yes. And you?" false true 1 info in
  let started := speech_started "Alice" 1 info in
  let announced :=
    {| messages := ["*" +:+ ev_content started +:+ "*"]; current_content := "";
       current_speaker := "" |} in
  turn_events "Alice" 1 info ["Yes."; " And you?"] ++ [event]
  = started :: speech_events event [""; "Yes."; " And you?"] ∧
  current_speaker announced ≠ ev_speaker_name event ∧
  map shown (discussion_outputs "" (started :: speech_events event [""; "Yes."; " And you?"]))
  = map (fun text => ["*" +:+ ev_content started +:+ "*"] ++ text)
      [[]; [bubble event "Alice" ""]; [bubble event "Alice" "Yes."];
       [bubble event "Alice" "Yes. And you?"]; [final_content event]; [final_content event]] ∧
  final_content event = bubble event "Alice" "Yes. And you?".
Proof.
  intros info event started announced.
  assert (H : current_speaker announced ≠ ev_speaker_name event) by done.
  split; [reflexivity |]. split; [exact H |]. split; [| done].
  unfold discussion_outputs.
  change (event_loop "" empty_chat (started :: speech_events event [""; "Yes."; " And you?"]))
    with ((messages announced, "狀態：" +:+ ev_content started, "")
          :: event_loop "" announced (speech_events event [""; "Yes."; " And you?"] ++ [])).
  rewrite (speech_fills_one_bubble "" announced event [""; "Yes."; " And you?"] []
             (or_intror eq_refl) eq_refl H).
  reflexivity.
Defined.

End app_facts.
